(** * A shallow embedding of the layout and routing engine

    The development follows the TypeScript sources:
    - the weighted grid and the A* search ([Grid], [PathFinder.findPath]);
    - the loader ([enhanceFlows], [computeSizes], [enhanceLinks]);
    - the system simulator ([computeBoundaries], [computeSystemPositions],
      [getObjectsAt], [drawLinks]).

    JavaScript numbers are modelled by [Z]: every quantity the engine handles
    (coordinates, sizes, keyframes, weights other than [Infinity]) is an
    integer.  A JavaScript exception is an explicit [Throw]. *)

From Stdlib Require Import ZArith List Lia Permutation Ascii String DecimalString.
From stdpp Require Import base option list strings gmap.

Local Open Scope Z_scope.

(** ** Outcomes of a call *)

Inductive Failure : Type :=
| TypeError      (* a property of [undefined] was read or written *)
| RangeError     (* an array was given an invalid length *)
| NotAnInteger   (* a value leaves the integer model ([Math.SQRT2], [Infinity]) *)
| OutOfFuel.     (* the loop bound of the model was exhausted *)

Inductive Exec (A : Type) : Type :=
| Ret (a : A)
| Throw (e : Failure).

Arguments Ret {A} a.
Arguments Throw {A} e.

#[global] Instance Exec_ret : MRet Exec := fun _ a => Ret a.
#[global] Instance Exec_bind : MBind Exec := fun _ _ k m =>
  match m with
  | Ret a => k a
  | Throw e => Throw e
  end.

Definition returns {A} (m : Exec A) : Prop := exists a, m = Ret a.

(** [for (const x of xs) body] with the loop state threaded through. *)
Fixpoint forOf {A St : Type} (body : A -> St -> Exec St) (xs : list A) (s : St) : Exec St :=
  match xs with
  | [] => Ret s
  | x :: xs' => s' ← body x s; forOf body xs' s'
  end.

(** [Array.prototype.sort(compare)], a stable sort: [less a b] stands for
    [compare(a, b) < 0]. *)
Fixpoint insertSorted {A : Type} (less : A -> A -> bool) (v : A) (sorted : list A) : list A :=
  match sorted with
  | [] => [v]
  | w :: rest => if less v w then v :: w :: rest else w :: insertSorted less v rest
  end.

Definition sortWith {A : Type} (less : A -> A -> bool) (l : list A) : list A :=
  fold_left (fun sorted v => insertSorted less v sorted) l [].

Lemma insertSorted_perm {A : Type} (less : A -> A -> bool) v sorted :
  Permutation (insertSorted less v sorted) (v :: sorted).
Proof.
  induction sorted as [|w rest IH]; simpl; [done|].
  destruct (less v w); [done|]. rewrite IH. apply perm_swap.
Qed.

Lemma sortWith_perm {A : Type} (less : A -> A -> bool) l :
  Permutation (sortWith less l) l.
Proof.
  unfold sortWith.
  assert (Hgen : forall acc,
    Permutation (fold_left (fun sorted v => insertSorted less v sorted) l acc) (acc ++ l)).
  { induction l as [|v l IH]; intros acc; simpl.
    - by rewrite app_nil_r.
    - rewrite IH, insertSorted_perm. simpl. apply Permutation_middle. }
  apply Hgen.
Qed.

Lemma forOf_cons {A St : Type} (body : A -> St -> Exec St) x xs s :
  forOf body (x :: xs) s = body x s ≫= forOf body xs.
Proof. reflexivity. Qed.

Module PathFinding.

(** ** The grid *)

(** A node is referred to by its coordinates: the fields [x] and [y] of the
    source's [Node] never change and equal the node's indices in [nodes]. *)
Abbreviation Cell := (Z * Z)%type.

Inductive Weight : Type :=
| Finite (w : Z)
| Infinity.

Inductive NodeState : Type :=
| NotVisited
| WillVisit
| Visited.

#[global] Instance Weight_eq_dec : EqDecision Weight.
Proof. solve_decision. Defined.

#[global] Instance NodeState_eq_dec : EqDecision NodeState.
Proof. solve_decision. Defined.

Record Node : Type := mkNode {
  weight : Weight;
  parent : option Cell;
  f : Z;
  g : Z;
  h : Z;
  state : NodeState;
}.

Record Grid : Type := mkGrid {
  width : Z;
  height : Z;
  nodes : Cell -> Node;
}.

Definition setNode (grid : Grid) (c : Cell) (n : Node) : Grid :=
  {| width := width grid;
     height := height grid;
     nodes := fun c' => if decide (c' = c) then n else nodes grid c' |}.

(** [new Grid(width, height, weight)] *)
Definition newGrid (width height : Z) (weight : Z) : Grid :=
  {| width := width;
     height := height;
     nodes := fun _ => mkNode (Finite weight) None 0 0 0 NotVisited |}.

Definition isInside (grid : Grid) (x y : Z) : bool :=
  (0 <=? x) && (x <? width grid) && (0 <=? y) && (y <? height grid).

(** [this.nodes[x]![y]!]: reading a column outside the array is [undefined],
    and indexing [undefined] throws; a row outside the column is [undefined]. *)
Definition getNodeAt (grid : Grid) (x y : Z) : Exec (option Cell) :=
  if (0 <=? x) && (x <? width grid) then
    Ret (if (0 <=? y) && (y <? height grid) then Some (x, y) else None)
  else Throw TypeError.

Definition isWalkableAt (grid : Grid) (x y : Z) : bool :=
  isInside grid x y && bool_decide (weight (nodes grid (x, y)) <> Infinity).

Definition getWeightAt (grid : Grid) (x y : Z) : Exec Weight :=
  n ← getNodeAt grid x y;
  match n with
  | Some c => Ret (weight (nodes grid c))
  | None => Throw TypeError
  end.

Definition withWeight (n : Node) (w : Weight) : Node :=
  mkNode w (parent n) (f n) (g n) (h n) (state n).

Definition setWeightAt (grid : Grid) (x y : Z) (w : Weight) : Exec Grid :=
  n ← getNodeAt grid x y;
  match n with
  | Some c => Ret (setNode grid c (withWeight (nodes grid c) w))
  | None => Throw TypeError
  end.

Definition getNeighbors (grid : Grid) (node : Cell) : list Cell :=
  let '(x, y) := node in
  (if isWalkableAt grid x (y - 1) then [(x, y - 1)] else []) ++
  (if isWalkableAt grid (x + 1) y then [(x + 1, y)] else []) ++
  (if isWalkableAt grid x (y + 1) then [(x, y + 1)] else []) ++
  (if isWalkableAt grid (x - 1) y then [(x - 1, y)] else []).

Definition resetNode (n : Node) : Node :=
  mkNode (weight n) None 0 0 0 NotVisited.

Definition reset (grid : Grid) : Grid :=
  {| width := width grid;
     height := height grid;
     nodes := fun c => resetNode (nodes grid c) |}.

(** ** The open list

    The open list is the binary heap of the npm package [heap], which is not
    part of the repository.  It is taken through its interface: a container of
    node references, ordered by a comparator that reads the nodes' current
    [f].  [heap_items] is the content of the container, and the laws say how
    each operation changes it; which node of the content is popped first is
    left to the implementation, so that what is proved of the search holds
    for every order in which the heap hands out nodes of equal [f]. *)
Record Heap : Type := mkHeap {
  heap : Type;
  heap_new : heap;
  heap_empty : heap -> bool;
  heap_push : (Cell -> Z) -> heap -> Cell -> heap;
  heap_pop : (Cell -> Z) -> heap -> option (Cell * heap);
  heap_updateItem : (Cell -> Z) -> heap -> Cell -> heap;
  heap_items : heap -> list Cell;
  heap_items_new : heap_items heap_new = [];
  heap_items_empty : forall t, heap_empty t = true <-> heap_items t = [];
  heap_items_push : forall cmp t c,
    Permutation (heap_items (heap_push cmp t c)) (c :: heap_items t);
  heap_items_pop : forall cmp t c t',
    heap_pop cmp t = Some (c, t') -> Permutation (heap_items t) (c :: heap_items t');
  heap_pop_some : forall cmp t,
    heap_items t <> [] -> is_Some (heap_pop cmp t);
  heap_items_updateItem : forall cmp t c,
    Permutation (heap_items (heap_updateItem cmp t c)) (heap_items t);
}.

(** ** The path finder *)

Record FinderOptions : Type := mkFinderOptions {
  opt_weight : option Z;
  opt_turnPenalty : option Z;
}.

Record PathFinder : Type := mkPathFinder {
  pf_weight : Z;
  turnPenalty : Z;
}.

(** [constructor(options: FinderOptions = {})] *)
Definition newPathFinder (options : FinderOptions) : PathFinder :=
  {| pf_weight := default 1 (opt_weight options);
     turnPenalty := default 1 (opt_turnPenalty options) |}.

Definition defaultFinder : PathFinder := newPathFinder (mkFinderOptions None None).

(** [x - node.x === 0 || y - node.y === 0 ? 1 : Math.SQRT2] *)
Definition stepLength (node neighbor : Cell) : Exec Z :=
  if (fst neighbor - fst node =? 0) || (snd neighbor - snd node =? 0)
  then Ret 1
  else Throw NotAnInteger.

(** [lastDirection] and [hasTurned] *)
Definition lastDirection (grid : Grid) (node : Cell) : option (Z * Z) :=
  match parent (nodes grid node) with
  | None => None
  | Some p => Some (fst node - fst p, snd node - snd p)
  end.

Definition hasTurned (grid : Grid) (node neighbor : Cell) : bool :=
  match lastDirection grid node with
  | None => false
  | Some d =>
      negb (fst d =? fst neighbor - fst node) || negb (snd d =? snd neighbor - snd node)
  end.

(** The value of [nextG] when the test of line 118 is reached. *)
Definition tentativeG (pf : PathFinder) (grid : Grid) (node neighbor : Cell) : Exec Z :=
  step ← stepLength node neighbor;
  let nextG := g (nodes grid node) + step in
  match weight (nodes grid neighbor) with
  | Infinity => Throw NotAnInteger
  | Finite w =>
      let nextG := nextG * w in
      Ret (if hasTurned grid node neighbor then nextG + turnPenalty pf else nextG)
  end.

Definition fOf (grid : Grid) : Cell -> Z := fun c => f (nodes grid c).

Definition withState (n : Node) (s : NodeState) : Node :=
  mkNode (weight n) (parent n) (f n) (g n) (h n) s.

Section Search.

Variable H : Heap.
Variable pf : PathFinder.
Variables endX endY : Z.

(** The body of [for (const neighbor of neighbors)]. *)
Definition relax (node neighbor : Cell) (st : Grid * heap H) : Exec (Grid * heap H) :=
  let '(grid, openList) := st in
  let nb := nodes grid neighbor in
  if decide (state nb = Visited) then Ret st
  else
    nextG ← tentativeG pf grid node neighbor;
    if negb (bool_decide (state nb = WillVisit)) || (nextG <? g nb) then
      let h' :=
        if h nb =? 0
        then pf_weight pf * (Z.abs (fst neighbor - endX) + Z.abs (snd neighbor - endY))
        else h nb in
      let nb' := mkNode (weight nb) (Some node) (nextG + h') nextG h' (state nb) in
      if negb (bool_decide (state nb = WillVisit)) then
        let grid' := setNode grid neighbor (withState nb' WillVisit) in
        Ret (grid', heap_push H (fOf grid') openList neighbor)
      else
        let grid' := setNode grid neighbor nb' in
        Ret (grid', heap_updateItem H (fOf grid') openList neighbor)
    else Ret st.

(** [while (pathNode.parent) { pathNode = pathNode.parent; path.push(...) }] *)
Fixpoint backtrace (fuel : nat) (grid : Grid) (pathNode : Cell) (path : list Cell)
  : Exec (list Cell) :=
  match parent (nodes grid pathNode) with
  | None => Ret path
  | Some p =>
      match fuel with
      | O => Throw OutOfFuel
      | S fuel' => backtrace fuel' grid p (path ++ [p])
      end
  end.

(** [while (!openList.empty())]; [total] is the bound given to the
    reconstruction of the path. *)
Fixpoint search (total fuel : nat) (endNode : option Cell) (grid : Grid) (openList : heap H)
  : Exec (list Cell * Grid) :=
  match fuel with
  | O => Throw OutOfFuel
  | S fuel' =>
      if heap_empty H openList then Ret ([], grid)
      else
        match heap_pop H (fOf grid) openList with
        | None => Throw TypeError
        | Some (node, openList) =>
            let grid := setNode grid node (withState (nodes grid node) Visited) in
            if decide (Some node = endNode) then
              path ← backtrace total grid node [node];
              Ret (rev path, grid)
            else
              st ← forOf (relax node) (getNeighbors grid node) (grid, openList);
              search total fuel' endNode st.1 st.2
        end
  end.

End Search.

(** Every iteration of the main loop moves one node of the grid to [Visited]
    for good, so that the number of cells bounds both loops. *)
Definition cellCount (grid : Grid) : nat :=
  (Z.to_nat (width grid) * Z.to_nat (height grid))%nat.

Definition searchBound (grid : Grid) : nat := S (cellCount grid).

Definition findPathOn (H : Heap) (pf : PathFinder)
    (startX startY endX endY : Z) (grid : Grid) : Exec (list Cell * Grid) :=
  startNode ← getNodeAt grid startX startY;
  endNode ← getNodeAt grid endX endY;
  match startNode with
  | None => Throw TypeError
  | Some start =>
      let n := nodes grid start in
      let grid := setNode grid start (mkNode (weight n) (parent n) 0 0 (h n) WillVisit) in
      let openList := heap_push H (fOf grid) (heap_new H) start in
      search H pf endX endY (searchBound grid) (searchBound grid) endNode grid openList
  end.

(** The returned array alone. *)
Definition findPath (H : Heap) (pf : PathFinder)
    (startX startY endX endY : Z) (grid : Grid) : Exec (list Cell) :=
  r ← findPathOn H pf startX startY endX endY grid; Ret r.1.

(** ** A reference open list

    An array scanned for its leftmost node of least [f]: the simplest
    container that meets the interface, used to run the search. *)
Fixpoint extractMin (cmp : Cell -> Z) (l : list Cell) : option (Cell * list Cell) :=
  match l with
  | [] => None
  | c :: l' =>
      match extractMin cmp l' with
      | None => Some (c, [])
      | Some (m, rest) => if cmp m <? cmp c then Some (m, c :: rest) else Some (c, l')
      end
  end.

Lemma extractMin_perm cmp l c l' :
  extractMin cmp l = Some (c, l') -> Permutation l (c :: l').
Proof.
  revert c l'. induction l as [|a l IH]; intros c l' Hx; simpl in Hx; [discriminate|].
  destruct (extractMin cmp l) as [[m rest]|] eqn:E.
  - destruct (cmp m <? cmp a); inversion Hx; subst; clear Hx.
    + rewrite (IH _ _ eq_refl). apply perm_swap.
    + reflexivity.
  - inversion Hx; subst. destruct l; [reflexivity|].
    simpl in E. destruct (extractMin cmp l) as [[? ?]|]; [destruct (_ <? _)|]; discriminate.
Qed.

Lemma extractMin_some cmp l : l <> [] -> is_Some (extractMin cmp l).
Proof.
  destruct l as [|a l]; [congruence|]. intros _. simpl.
  destruct (extractMin cmp l) as [[m rest]|]; [destruct (_ <? _)|]; eauto.
Qed.

Definition ListHeap : Heap.
Proof.
  refine {| heap := list Cell;
            heap_new := [];
            heap_empty := fun t => match t with [] => true | _ => false end;
            heap_push := fun _ t c => t ++ [c];
            heap_pop := extractMin;
            heap_updateItem := fun _ t _ => t;
            heap_items := fun t => t |}.
  - reflexivity.
  - intros [|? ?]; split; congruence.
  - intros _ t c. symmetry. apply Permutation_cons_append.
  - apply extractMin_perm.
  - apply extractMin_some.
  - reflexivity.
Defined.

(** ** Facts about the grid *)

Definition cellInside (grid : Grid) (c : Cell) : Prop := isInside grid c.1 c.2 = true.
Definition cellWalkable (grid : Grid) (c : Cell) : Prop := isWalkableAt grid c.1 c.2 = true.

(** Two cells one cardinal step apart. *)
Definition adjacent (a b : Cell) : Prop :=
  (Z.abs (a.1 - b.1) = 1 /\ a.2 = b.2) \/ (a.1 = b.1 /\ Z.abs (a.2 - b.2) = 1).

Definition manhattan (a b : Cell) : Z := Z.abs (a.1 - b.1) + Z.abs (a.2 - b.2).

(** Consecutive cells of a path are one cardinal step apart. *)
Fixpoint fourConnected (path : list Cell) : Prop :=
  match path with
  | a :: (b :: _) as rest => adjacent a b /\ fourConnected rest
  | _ => True
  end.

(** The same dimensions and the same weights: a search writes neither. *)
Definition sameTerrain (g0 grid : Grid) : Prop :=
  width grid = width g0 /\ height grid = height g0 /\
  forall c, weight (nodes grid c) = weight (nodes g0 c).

Lemma sameTerrain_refl grid : sameTerrain grid grid.
Proof. by repeat split. Qed.

Lemma sameTerrain_inside g0 grid x y :
  sameTerrain g0 grid -> isInside grid x y = isInside g0 x y.
Proof. intros (Hw & Hh & _). unfold isInside. by rewrite Hw, Hh. Qed.

Lemma sameTerrain_walkable g0 grid x y :
  sameTerrain g0 grid -> isWalkableAt grid x y = isWalkableAt g0 x y.
Proof.
  intros Ht. unfold isWalkableAt. rewrite (sameTerrain_inside g0 grid) by done.
  destruct Ht as (_ & _ & Hw). by rewrite Hw.
Qed.

Lemma sameTerrain_neighbors g0 grid node :
  sameTerrain g0 grid -> getNeighbors grid node = getNeighbors g0 node.
Proof.
  intros Ht. destruct node as [x y]. unfold getNeighbors.
  by rewrite !(sameTerrain_walkable g0 grid) by done.
Qed.

Lemma sameTerrain_setNode g0 grid c n :
  sameTerrain g0 grid -> weight n = weight (nodes grid c) ->
  sameTerrain g0 (setNode grid c n).
Proof.
  intros (Hw & Hh & Hn) Hwn. repeat split; simpl; try done.
  intros c'. destruct (decide (c' = c)) as [->|]; [by rewrite Hwn|done].
Qed.

Lemma sameTerrain_reset grid : sameTerrain grid (reset grid).
Proof. by repeat split. Qed.

Lemma nodes_setNode_eq grid c n : nodes (setNode grid c n) c = n.
Proof. simpl. by destruct (decide (c = c)). Qed.

Lemma nodes_setNode_ne grid c c' n : c' <> c -> nodes (setNode grid c n) c' = nodes grid c'.
Proof. intros. simpl. by destruct (decide (c' = c)). Qed.

Lemma cellWalkable_inside grid c : cellWalkable grid c -> cellInside grid c.
Proof. unfold cellWalkable, cellInside, isWalkableAt. by intros [? _]%andb_prop. Qed.

Lemma cellWalkable_finite grid c :
  cellWalkable grid c -> exists w, weight (nodes grid c) = Finite w.
Proof.
  unfold cellWalkable, isWalkableAt. destruct c as [x y]; simpl.
  intros [_ Hw%bool_decide_eq_true]%andb_prop.
  destruct (weight (nodes grid (x, y))); [eauto|done].
Qed.

Lemma getNeighbors_spec grid node c :
  c ∈ getNeighbors grid node -> adjacent node c /\ cellWalkable grid c.
Proof.
  rewrite list_elem_of_In.
  destruct node as [x y]. unfold getNeighbors, adjacent, cellWalkable.
  rewrite !in_app_iff.
  intros [Hc|[Hc|[Hc|Hc]]];
    match type of Hc with In _ (if ?b then _ else _) => destruct b eqn:E end;
    simpl in Hc; try done; destruct Hc as [<-|[]]; simpl; (split; [lia|done]).
Qed.

(** The cells of the grid, column by column. *)
Definition cells (grid : Grid) : list Cell :=
  list_prod (seqZ 0 (width grid)) (seqZ 0 (height grid)).

Lemma length_cells grid : length (cells grid) = cellCount grid.
Proof. unfold cells, cellCount. by rewrite length_prod, !length_seqZ. Qed.

Lemma cellInside_cells grid c : cellInside grid c -> c ∈ cells grid.
Proof.
  destruct c as [x y]. unfold cellInside, isInside, cells. simpl. intros Hin.
  apply list_elem_of_In, in_prod; apply list_elem_of_In, elem_of_seqZ; lia.
Qed.

Lemma popped_bound grid (popped : list Cell) :
  NoDup popped -> (forall c, c ∈ popped -> cellInside grid c) ->
  (length popped <= cellCount grid)%nat.
Proof.
  intros Hnd Hin. rewrite <- length_cells.
  apply submseteq_length, NoDup_submseteq; [done|].
  intros c Hc. by apply cellInside_cells, Hin.
Qed.

(** ** The invariant of the main loop *)

Section Invariant.

Variable H : Heap.
Variable pf : PathFinder.
Variables endX endY : Z.

(** The grid the search starts from, and the start node. *)
Variable g0 : Grid.
Variable start : Cell.

(** [Chain grid c path]: following [parent] from the visited node [c] leads
    to [start]; [path] lists the nodes met, from [start] to [c]. *)
Inductive Chain (grid : Grid) : Cell -> list Cell -> Prop :=
| Chain_start :
    state (nodes grid start) = Visited ->
    parent (nodes grid start) = None ->
    Chain grid start [start]
| Chain_step c q path :
    state (nodes grid c) = Visited ->
    parent (nodes grid c) = Some q ->
    adjacent q c ->
    cellWalkable g0 c ->
    Chain grid q path ->
    Chain grid c (path ++ [c]).

(** [popped] lists the nodes taken from the open list so far. *)
Record Inv (popped : list Cell) (grid : Grid) (items : list Cell) : Prop := {
  inv_terrain : sameTerrain g0 grid;
  inv_items_nodup : NoDup items;
  inv_items : forall c, c ∈ items ->
    state (nodes grid c) = WillVisit /\ cellInside g0 c;
  inv_will : forall c, state (nodes grid c) = WillVisit ->
    (c = start /\ parent (nodes grid c) = None) \/
    (exists q, parent (nodes grid c) = Some q /\ adjacent q c /\
               cellWalkable g0 c /\ state (nodes grid q) = Visited);
  inv_popped_nodup : NoDup popped;
  inv_popped : forall c, c ∈ popped -> cellInside g0 c;
  inv_visited : forall c, state (nodes grid c) = Visited <-> c ∈ popped;
  inv_chain : forall c, c ∈ popped ->
    exists path, Chain grid c path /\ (length path <= length popped)%nat;
}.

Lemma Inv_perm popped grid items items' :
  Permutation items items' -> Inv popped grid items -> Inv popped grid items'.
Proof.
  intros Hp [? ? ? ? ? ? ? ?]. split; try done.
  - by rewrite <- Hp.
  - intros c Hc. rewrite <- Hp in Hc. auto.
Qed.

(** A chain only reads visited nodes. *)
Lemma Chain_stable grid grid' c path :
  (forall c, state (nodes grid c) = Visited -> nodes grid' c = nodes grid c) ->
  Chain grid c path -> Chain grid' c path.
Proof.
  intros Hst. induction 1 as [Hs Hp|c q path Hs Hp Hadj Hw _ IH].
  - apply Chain_start; by rewrite Hst.
  - apply Chain_step with q; try done; by rewrite Hst.
Qed.

Lemma Chain_nonempty grid c path : Chain grid c path -> path <> [].
Proof. destruct 1; [done|]. by destruct path. Qed.

Lemma Chain_last grid c path : Chain grid c path -> last path = Some c.
Proof. destruct 1; [done|]. by rewrite last_snoc. Qed.

Lemma Chain_head grid c path : Chain grid c path -> head path = Some start.
Proof.
  induction 1 as [|c q path _ _ _ _ Hc IH]; [done|].
  destruct path; [by apply Chain_nonempty in Hc|done].
Qed.

Lemma fourConnected_snoc path a b :
  last path = Some a -> adjacent a b -> fourConnected path -> fourConnected (path ++ [b]).
Proof.
  induction path as [|x [|y path] IH]; simpl; intros Hl Hadj Hf; [done| |].
  - by inversion Hl; subst.
  - destruct Hf as [Hxy Hf]. split; [done|]. by apply IH.
Qed.

Lemma Chain_fourConnected grid c path : Chain grid c path -> fourConnected path.
Proof.
  induction 1 as [|c q path _ _ Hadj _ Hc IH]; [done|].
  apply fourConnected_snoc with q; [by eapply Chain_last|done|done].
Qed.

Lemma Chain_walkable grid c path :
  Chain grid c path -> Forall (cellWalkable g0) (tail path).
Proof.
  induction 1 as [|c q path _ _ _ Hw Hc IH]; [by constructor|].
  destruct path as [|x path]; [by apply Chain_nonempty in Hc|].
  simpl in *. apply Forall_app; split; [done|by repeat constructor].
Qed.

(** [backtrace] rebuilds the chain. *)
Lemma backtrace_Chain grid c path :
  Chain grid c path ->
  forall fuel acc, (length path <= S fuel)%nat ->
  backtrace fuel grid c (acc ++ [c]) = Ret (acc ++ rev path).
Proof.
  induction 1 as [Hs Hp|c q path Hs Hp Hadj Hw Hc IH]; intros fuel acc Hlen.
  - destruct fuel; simpl; by rewrite Hp.
  - rewrite length_app in Hlen. simpl in Hlen.
    assert (length path <> 0%nat) by (apply Chain_nonempty in Hc; by destruct path).
    destruct fuel as [|fuel]; [lia|]. simpl. rewrite Hp.
    rewrite IH by lia. by rewrite rev_unit, <- app_assoc.
Qed.

(** Writing a node that is not visited, so that it waits in the open list
    with the visited node [node] as its parent. *)
Lemma Inv_relaxed popped grid items items' node nb n' :
  Inv popped grid items ->
  node ∈ popped -> adjacent node nb -> cellWalkable g0 nb ->
  state (nodes grid nb) <> Visited ->
  weight n' = weight (nodes grid nb) ->
  parent n' = Some node ->
  state n' = WillVisit ->
  Permutation items'
    (if decide (state (nodes grid nb) = WillVisit) then items else nb :: items) ->
  Inv popped (setNode grid nb n') items'.
Proof.
  intros [Ht Hnd Hit Hwill Hpnd Hpop Hvis Hch] Hnode Hadj Hw Hnv Hwn Hpn Hsn Hperm.
  assert (Hnode_nb : node <> nb).
  { intros ->. by apply Hnv, Hvis. }
  split.
  - by apply sameTerrain_setNode.
  - rewrite Hperm. case_decide as Hs; [done|].
    apply NoDup_cons. split; [|done]. intros Hin. by apply Hs, Hit.
  - intros c Hc. rewrite Hperm in Hc.
    destruct (decide (c = nb)) as [->|Hne].
    + rewrite nodes_setNode_eq. split; [done|]. by apply cellWalkable_inside.
    + rewrite nodes_setNode_ne by done. apply Hit.
      case_decide; [done|]. by apply elem_of_cons in Hc as [?|?].
  - intros c. destruct (decide (c = nb)) as [->|Hne].
    + rewrite nodes_setNode_eq. intros _. right. exists node.
      rewrite nodes_setNode_ne by done. repeat split; try done. by apply Hvis.
    + rewrite nodes_setNode_ne by done. intros Hc.
      destruct (Hwill c Hc) as [?|(q & Hq & ? & ? & Hqs)]; [by left|right].
      exists q. repeat split; try done.
      rewrite nodes_setNode_ne; [done|]. by intros ->.
  - done.
  - done.
  - intros c. destruct (decide (c = nb)) as [->|Hne].
    + rewrite nodes_setNode_eq, Hsn. split; [done|]. intros Hin. exfalso. by apply Hnv, Hvis.
    + by rewrite nodes_setNode_ne.
  - intros c Hc. destruct (Hch c Hc) as (path & Hpath & Hlen).
    exists path. split; [|done]. eapply Chain_stable; [|done].
    intros c' Hc'. rewrite nodes_setNode_ne; [done|]. by intros ->.
Qed.

Lemma tentativeG_returns grid node nb :
  sameTerrain g0 grid -> adjacent node nb -> cellWalkable g0 nb ->
  returns (tentativeG pf grid node nb).
Proof.
  intros (_ & _ & Hwt) Hadj Hw. unfold tentativeG, stepLength.
  assert ((nb.1 - node.1 =? 0) || (nb.2 - node.2 =? 0) = true) as ->.
  { destruct Hadj as [[_ ?]|[? _]]; apply orb_true_iff; [right|left]; lia. }
  simpl. rewrite Hwt. destruct (cellWalkable_finite _ _ Hw) as [w ->]. by eexists.
Qed.

Lemma relax_Inv popped grid openList node nb :
  Inv popped grid (heap_items H openList) ->
  node ∈ popped -> adjacent node nb -> cellWalkable g0 nb ->
  exists grid' openList',
    relax H pf endX endY node nb (grid, openList) = Ret (grid', openList') /\
    Inv popped grid' (heap_items H openList').
Proof.
  intros HI Hnode Hadj Hw. unfold relax.
  case_decide as Hv; [by eauto|].
  destruct (tentativeG_returns grid node nb (inv_terrain _ _ _ HI) Hadj Hw) as [nextG ->].
  simpl.
  destruct (negb (bool_decide (state (nodes grid nb) = WillVisit)) || (nextG <? g (nodes grid nb)))
    eqn:Hcond; [|by eauto].
  destruct (bool_decide (state (nodes grid nb) = WillVisit)) eqn:Hs; simpl.
  - apply bool_decide_eq_true in Hs. do 2 eexists. split; [done|].
    eapply Inv_relaxed; try done.
    rewrite decide_True by done. apply heap_items_updateItem.
  - apply bool_decide_eq_false in Hs. do 2 eexists. split; [done|].
    eapply Inv_relaxed; try done.
    rewrite decide_False by done. apply heap_items_push.
Qed.

Lemma forOf_relax_Inv popped node nbs : forall grid openList,
  Inv popped grid (heap_items H openList) ->
  node ∈ popped ->
  Forall (fun nb => adjacent node nb /\ cellWalkable g0 nb) nbs ->
  exists grid' openList',
    forOf (relax H pf endX endY node) nbs (grid, openList) = Ret (grid', openList') /\
    Inv popped grid' (heap_items H openList').
Proof.
  induction nbs as [|nb nbs IH]; intros grid openList HI Hnode Hnbs.
  - simpl. by eauto.
  - apply Forall_cons in Hnbs as [[Hadj Hw] Hnbs].
    destruct (relax_Inv popped grid openList node nb HI Hnode Hadj Hw)
      as (grid1 & open1 & Hrelax & HI1).
    rewrite forOf_cons, Hrelax. by apply IH.
Qed.

(** Taking a node from the open list and marking it visited. *)
Lemma Inv_pop popped grid items node items' :
  Inv popped grid items ->
  Permutation items (node :: items') ->
  Inv (node :: popped) (setNode grid node (withState (nodes grid node) Visited)) items'.
Proof.
  intros HI Hperm. apply (Inv_perm _ _ _ _ Hperm) in HI.
  destruct HI as [Ht Hnd Hit Hwill Hpnd Hpop Hvis Hch].
  apply NoDup_cons in Hnd as [Hnotin Hnd].
  destruct (Hit node) as [Hsn Hin]; [by left|].
  assert (Hnp : node ∉ popped).
  { intros Hp. apply Hvis in Hp. congruence. }
  assert (Hstable : forall c, state (nodes grid c) = Visited ->
            nodes (setNode grid node (withState (nodes grid node) Visited)) c = nodes grid c).
  { intros c Hc. rewrite nodes_setNode_ne; [done|]. intros ->. congruence. }
  split.
  - by apply sameTerrain_setNode.
  - done.
  - intros c Hc. rewrite nodes_setNode_ne by (by intros ->).
    apply Hit. by right.
  - intros c. destruct (decide (c = node)) as [->|Hne].
    + by rewrite nodes_setNode_eq.
    + rewrite nodes_setNode_ne by done. intros Hc.
      destruct (Hwill c Hc) as [?|(q & Hq & ? & ? & Hqs)]; [by left|right].
      exists q. repeat split; try done.
      destruct (decide (q = node)) as [->|?];
        [by rewrite nodes_setNode_eq|by rewrite nodes_setNode_ne].
  - by apply NoDup_cons.
  - intros c [->|?]%elem_of_cons; auto.
  - intros c. rewrite elem_of_cons. destruct (decide (c = node)) as [->|Hne].
    + rewrite nodes_setNode_eq. simpl. by intuition.
    + rewrite nodes_setNode_ne by done. rewrite Hvis. by intuition.
  - intros c [->|Hc]%elem_of_cons.
    + destruct (Hwill node Hsn) as [[-> Hpar]|(q & Hq & Hadj & Hw & Hqs)].
      * exists [start]. split; [|simpl; lia].
        apply Chain_start; by rewrite nodes_setNode_eq.
      * apply Hvis in Hqs as Hqp. destruct (Hch q Hqp) as (path & Hpath & Hlen).
        exists (path ++ [node]). split; [|rewrite length_app; simpl; lia].
        apply Chain_step with q; try done; try by rewrite nodes_setNode_eq.
        by eapply Chain_stable.
    + destruct (Hch c Hc) as (path & Hpath & Hlen).
      exists path. split; [by eapply Chain_stable|simpl; lia].
Qed.

(** The main loop returns: either the empty path, or the chain from the
    start node to the end node. *)
Lemma search_Inv total endNode fuel : forall popped grid openList,
  Inv popped grid (heap_items H openList) ->
  (fuel + length popped = searchBound g0)%nat ->
  (searchBound g0 <= total)%nat ->
  exists path grid',
    search H pf endX endY total fuel endNode grid openList = Ret (path, grid') /\
    sameTerrain g0 grid' /\
    (path = [] \/ exists e, endNode = Some e /\ Chain grid' e path).
Proof.
  induction fuel as [|fuel IH]; intros popped grid openList HI Hfuel Htotal.
  - exfalso. pose proof (popped_bound g0 popped (inv_popped_nodup _ _ _ HI) (inv_popped _ _ _ HI)).
    unfold searchBound in Hfuel. simpl in Hfuel. lia.
  - simpl. destruct (heap_empty H openList) eqn:Hemp.
    { exists [], grid. split; [done|]. split; [apply HI|by left]. }
    destruct (heap_pop_some H (fOf grid) openList) as [[node open1] Hpop].
    { intros Hnil. apply heap_items_empty in Hnil. congruence. }
    rewrite Hpop. apply heap_items_pop in Hpop.
    pose proof (Inv_pop _ _ _ _ _ HI Hpop) as HI1.
    set (grid1 := setNode grid node (withState (nodes grid node) Visited)) in *.
    case_decide as Hend.
    + destruct (inv_chain _ _ _ HI1 node) as (path & Hpath & Hlen); [by left|].
      pose proof (popped_bound g0 _ (inv_popped_nodup _ _ _ HI1) (inv_popped _ _ _ HI1)) as Hb.
      assert (Hbt : backtrace total grid1 node [node] = Ret (rev path)).
      { apply (backtrace_Chain grid1 node path Hpath total []).
        unfold searchBound in Htotal. simpl in Hlen, Hb. lia. }
      rewrite Hbt. simpl. rewrite rev_involutive. exists path, grid1.
      split; [done|]. split; [apply HI1|]. right. by exists node.
    + destruct (forOf_relax_Inv (node :: popped) node (getNeighbors grid1 node)
                  grid1 open1 HI1) as (grid2 & open2 & -> & HI2).
      { by left. }
      { rewrite (sameTerrain_neighbors g0 grid1 node (inv_terrain _ _ _ HI1)).
        apply Forall_forall. intros nb Hnb. by apply getNeighbors_spec. }
      simpl. apply (IH (node :: popped)); [done| |done]. simpl. lia.
Qed.

End Invariant.

(** ** What [findPath] returns on a grid whose search state is reset *)

(** [goal] can be reached from [start] by cardinal steps onto walkable cells
    (the weight of the start cell itself is never read). *)
Inductive Reachable (grid : Grid) (start : Cell) : Cell -> Prop :=
| Reachable_start : Reachable grid start start
| Reachable_step c d :
    Reachable grid start c -> adjacent c d -> cellWalkable grid d ->
    Reachable grid start d.

Lemma cellWalkable_terrain g0 grid c :
  sameTerrain g0 grid -> cellWalkable g0 c -> cellWalkable grid c.
Proof. unfold cellWalkable. intros Ht. by rewrite (sameTerrain_walkable g0 grid). Qed.

Lemma sameTerrain_sym g0 grid : sameTerrain g0 grid -> sameTerrain grid g0.
Proof. intros (? & ? & ?). by repeat split. Qed.

Lemma sameTerrain_trans g0 g1 g2 :
  sameTerrain g0 g1 -> sameTerrain g1 g2 -> sameTerrain g0 g2.
Proof.
  intros (Hw & Hh & Hn) (Hw' & Hh' & Hn'). repeat split; congruence.
Qed.

Lemma Chain_Reachable g0 start grid c path :
  Chain g0 start grid c path -> Reachable g0 start c.
Proof.
  induction 1 as [|c q path _ _ Hadj Hw _ IH]; [apply Reachable_start|].
  by apply Reachable_step with q.
Qed.

Lemma manhattan_adjacent a b c : adjacent a b -> manhattan a c <= 1 + manhattan b c.
Proof. unfold adjacent, manhattan. lia. Qed.

Lemma fourConnected_length path : forall a b,
  head path = Some a -> last path = Some b -> fourConnected path ->
  manhattan a b + 1 <= Z.of_nat (length path).
Proof.
  induction path as [|x [|y path] IH]; intros a b Hh Hl Hf; [done| |].
  - simpl in *. inversion Hh; inversion Hl; subst. unfold manhattan. lia.
  - inversion Hh; subst. destruct Hf as [Hadj Hf].
    specialize (IH y b eq_refl Hl Hf).
    pose proof (manhattan_adjacent a y b Hadj).
    change (length (a :: y :: path)) with (S (length (y :: path))). lia.
Qed.

Lemma getNodeAt_inside grid x y :
  isInside grid x y = true -> getNodeAt grid x y = Ret (Some (x, y)).
Proof.
  unfold isInside, getNodeAt. intros Hin.
  assert ((0 <=? x) && (x <? width grid) = true) as -> by lia.
  assert ((0 <=? y) && (y <? height grid) = true) as -> by lia. done.
Qed.

Lemma getNodeAt_Some grid x y c :
  getNodeAt grid x y = Ret (Some c) -> c = (x, y) /\ isInside grid x y = true.
Proof.
  unfold isInside, getNodeAt.
  destruct ((0 <=? x) && (x <? width grid)) eqn:Hx; [|done].
  destruct ((0 <=? y) && (y <? height grid)) eqn:Hy; [|done].
  intros [= <-]. split; [done|]. lia.
Qed.

Lemma getNodeAt_returns grid x y c :
  getNodeAt grid x y = Ret c -> (0 <=? x) && (x <? width grid) = true.
Proof. unfold getNodeAt. by destruct ((0 <=? x) && (x <? width grid)). Qed.

Section FindPath.

Variable H : Heap.
Variable pf : PathFinder.

(** As soon as the start node exists, the search returns, and a non-empty
    result is the chain of parents of the end node. *)
Lemma findPathOn_reset startX startY endX endY grid :
  isInside grid startX startY = true ->
  returns (getNodeAt grid endX endY) ->
  exists path grid',
    findPathOn H pf startX startY endX endY (reset grid) = Ret (path, grid') /\
    sameTerrain grid grid' /\
    (path = [] \/
     isInside grid endX endY = true /\
     head path = Some (startX, startY) /\
     last path = Some (endX, endY) /\
     fourConnected path /\
     Reachable grid (startX, startY) (endX, endY)).
Proof.
  intros Hstart [endNode Hend]. unfold findPathOn.
  rewrite (getNodeAt_inside (reset grid) startX startY Hstart).
  change (getNodeAt (reset grid) endX endY) with (getNodeAt grid endX endY).
  rewrite Hend. simpl.
  set (start := (startX, startY)).
  set (grid0 := setNode (reset grid) start _).
  assert (Ht0 : sameTerrain grid grid0).
  { apply sameTerrain_setNode; [apply sameTerrain_reset|done]. }
  assert (HI : Inv grid0 start [] grid0
            (heap_items H (heap_push H (fOf grid0) (heap_new H) start))).
  { apply Inv_perm with [start].
    { symmetry. rewrite heap_items_push. by rewrite heap_items_new. }
    split.
    - apply sameTerrain_refl.
    - apply NoDup_singleton.
    - intros c ->%list_elem_of_singleton. unfold grid0.
      rewrite nodes_setNode_eq. split; [done|].
      unfold cellInside. by rewrite (sameTerrain_inside grid grid0).
    - intros c Hc. left. destruct (decide (c = start)) as [->|Hne].
      + unfold grid0. by rewrite nodes_setNode_eq.
      + unfold grid0 in Hc. by rewrite nodes_setNode_ne in Hc.
    - constructor.
    - by intros c ?%elem_of_nil.
    - intros c. split; [|by intros ?%elem_of_nil].
      destruct (decide (c = start)) as [->|Hne]; unfold grid0.
      + by rewrite nodes_setNode_eq.
      + by rewrite nodes_setNode_ne.
    - by intros c ?%elem_of_nil. }
  destruct (search_Inv H pf endX endY grid0 start (searchBound grid0) endNode
              (searchBound grid0) [] grid0 _ HI) as (path & grid' & Hs & Ht & Hres).
  { apply Nat.add_0_r. }
  { done. }
  exists path, grid'. split; [exact Hs|].
  split; [by eapply sameTerrain_trans|].
  destruct Hres as [?|(e & -> & Hch)]; [by left|right].
  apply getNodeAt_Some in Hend as [-> Hin].
  repeat split.
  - done.
  - by eapply Chain_head.
  - by eapply Chain_last.
  - by eapply Chain_fourConnected.
  - apply Chain_Reachable in Hch. clear -Hch Ht0.
    induction Hch as [|c d _ IH Hadj Hw]; [apply Reachable_start|].
    apply Reachable_step with c; [done|done|].
    by apply (cellWalkable_terrain grid0 grid); [apply sameTerrain_sym|].
Qed.

End FindPath.

Lemma findPath_Ret H pf startX startY endX endY grid path :
  findPath H pf startX startY endX endY grid = Ret path ->
  isInside grid startX startY = true /\ returns (getNodeAt grid endX endY).
Proof.
  unfold findPath, findPathOn. intros Hr.
  destruct (getNodeAt grid startX startY) as [[start|]|e] eqn:Hs; simpl in Hr.
  - apply getNodeAt_Some in Hs as [_ Hs]. split; [done|].
    destruct (getNodeAt grid endX endY); [by eexists|done].
  - by destruct (getNodeAt grid endX endY).
  - done.
Qed.

(** The tentative g-score of a cardinal step onto a cell of finite weight:
    the step is added to the g-score of the current node, and the sum is
    multiplied by the weight. *)
Lemma tentativeG_cardinal pf grid node neighbor w :
  adjacent node neighbor ->
  weight (nodes grid neighbor) = Finite w ->
  tentativeG pf grid node neighbor =
    Ret ((g (nodes grid node) + 1) * w +
         (if hasTurned grid node neighbor then turnPenalty pf else 0)).
Proof.
  intros Hadj Hw. unfold tentativeG, stepLength.
  assert ((neighbor.1 - node.1 =? 0) || (neighbor.2 - node.2 =? 0) = true) as ->.
  { destruct Hadj as [[_ ?]|[? _]]; apply orb_true_iff; [right|left]; lia. }
  simpl. rewrite Hw. destruct (hasTurned grid node neighbor); f_equal; lia.
Qed.

(** The g-score as the specification words it: the weighted step added to
    the g-score of the current node. *)
Definition weightedStepG (pf : PathFinder) (grid : Grid) (node neighbor : Cell) (w : Z) : Z :=
  g (nodes grid node) + 1 * w +
  (if hasTurned grid node neighbor then turnPenalty pf else 0).

(** A row of three cells, the last of weight 2 (a cell an earlier link runs
    through). *)
Definition rowOfThree : Grid :=
  setNode (newGrid 3 1 1) (2, 0) (mkNode (Finite 2) None 0 0 0 NotVisited).

(** C1: on the row of three cells the search from (0,0) to (2,0) relaxes
    (2,0), of weight 2, from (1,0), whose g-score is 1, without a turn: the
    tentative g-score it stores is (1 + 1) * 2 = 4, where adding the weighted
    step to the g-score gives 1 + 1 * 2 = 3. *)
Theorem tentativeG_scales_accumulated_cost :
  exists grid',
    findPathOn ListHeap defaultFinder 0 0 2 0 rowOfThree
      = Ret ([(0, 0); (1, 0); (2, 0)], grid') /\
    g (nodes grid' (1, 0)) = 1 /\
    weight (nodes grid' (2, 0)) = Finite 2 /\
    parent (nodes grid' (2, 0)) = Some (1, 0) /\
    hasTurned grid' (1, 0) (2, 0) = false /\
    tentativeG defaultFinder grid' (1, 0) (2, 0) = Ret 4 /\
    g (nodes grid' (2, 0)) = 4 /\
    weightedStepG defaultFinder grid' (1, 0) (2, 0) 2 = 3.
Proof. eexists. repeat split; vm_compute; reflexivity. Qed.

(** C3: a path returned on a grid whose search state is reset is made of
    cardinal steps only, each changing one coordinate by one; between two
    cells of the grid a non-empty path runs from the start to the goal and
    counts at least their Manhattan distance plus one cells. *)
Theorem findPath_four_connected (H : Heap) (pf : PathFinder) (grid : Grid)
    (startX startY endX endY : Z) :
  (forall path,
     findPath H pf startX startY endX endY (reset grid) = Ret path ->
     fourConnected path) /\
  (isInside grid startX startY = true ->
   isInside grid endX endY = true ->
   exists path,
     findPath H pf startX startY endX endY (reset grid) = Ret path /\
     fourConnected path /\
     (path <> [] ->
      head path = Some (startX, startY) /\
      last path = Some (endX, endY) /\
      manhattan (startX, startY) (endX, endY) + 1 <= Z.of_nat (length path))).
Proof.
  assert (Hmain : isInside grid startX startY = true ->
                  returns (getNodeAt grid endX endY) ->
    exists path,
     findPath H pf startX startY endX endY (reset grid) = Ret path /\
     fourConnected path /\
     (path <> [] ->
      head path = Some (startX, startY) /\
      last path = Some (endX, endY) /\
      manhattan (startX, startY) (endX, endY) + 1 <= Z.of_nat (length path))).
  { intros Hs He.
    destruct (findPathOn_reset H pf startX startY endX endY grid Hs He)
      as (path & grid' & Hrun & _ & Hres).
    exists path. unfold findPath. rewrite Hrun. split; [done|].
    destruct Hres as [->|(_ & Hh & Hl & Hf & _)]; [done|].
    split; [done|]. intros _. repeat split; try done.
    by apply fourConnected_length. }
  split.
  - intros path Hr. destruct (findPath_Ret _ _ _ _ _ _ _ _ Hr) as [Hs He].
    destruct (Hmain Hs He) as (path' & Hr' & Hf & _). congruence.
  - intros Hs He. apply Hmain; [done|].
    exists (Some (endX, endY)). by apply getNodeAt_inside.
Qed.

Lemma findPath_four_connected_witness :
  exists path,
    findPath ListHeap defaultFinder 0 0 2 1 (reset (newGrid 3 2 1)) = Ret path /\
    fourConnected path /\
    (path <> [] ->
     head path = Some (0, 0) /\
     last path = Some (2, 1) /\
     manhattan (0, 0) (2, 1) + 1 <= Z.of_nat (length path)).
Proof.
  apply (proj2 (findPath_four_connected ListHeap defaultFinder (newGrid 3 2 1) 0 0 2 1));
    reflexivity.
Defined.

(** C4: between two cells of the grid the search returns: it neither throws
    nor runs on; and when no sequence of cardinal steps onto walkable cells
    leads from the start to the goal, what it returns is the empty path. *)
Theorem findPath_total (H : Heap) (pf : PathFinder) (grid : Grid)
    (startX startY endX endY : Z) :
  isInside grid startX startY = true ->
  isInside grid endX endY = true ->
  exists path,
    findPath H pf startX startY endX endY (reset grid) = Ret path /\
    (~ Reachable grid (startX, startY) (endX, endY) -> path = []).
Proof.
  intros Hs He.
  destruct (findPathOn_reset H pf startX startY endX endY grid Hs)
    as (path & grid' & Hrun & _ & Hres).
  { exists (Some (endX, endY)). by apply getNodeAt_inside. }
  exists path. unfold findPath. rewrite Hrun. split; [done|].
  intros Hnr. destruct Hres as [->|(_ & _ & _ & _ & Hreach)]; [done|].
  by destruct Hnr.
Qed.

(** A wall of weight [Infinity] across a 3 x 3 grid. *)
Definition walled : Grid :=
  {| width := 3; height := 3;
     nodes := fun c =>
       mkNode (if c.1 =? 1 then Infinity else Finite 1) None 0 0 0 NotVisited |}.

Lemma findPath_total_witness :
  exists path,
    findPath ListHeap defaultFinder 0 0 2 2 (reset walled) = Ret path /\
    (~ Reachable walled (0, 0) (2, 2) -> path = []).
Proof. apply (findPath_total ListHeap defaultFinder walled 0 0 2 2); reflexivity. Defined.

Example findPath_walled :
  findPath ListHeap defaultFinder 0 0 2 2 (reset walled) = Ret [].
Proof. vm_compute. reflexivity. Qed.

Example findPath_open :
  findPath ListHeap defaultFinder 0 0 2 1 (newGrid 3 2 1)
  = Ret [(0, 0); (1, 0); (2, 0); (2, 1)].
Proof. vm_compute. reflexivity. Qed.

(** A goal whose row is outside the grid is [undefined]: nothing is thrown
    and no node is ever the goal.  A goal whose column is outside throws. *)
Example findPath_goal_below :
  findPath ListHeap defaultFinder 0 0 2 5 (newGrid 3 2 1) = Ret [].
Proof. vm_compute. reflexivity. Qed.

Example findPath_goal_right :
  findPath ListHeap defaultFinder 0 0 3 0 (newGrid 3 2 1) = Throw TypeError.
Proof. vm_compute. reflexivity. Qed.

End PathFinding.

Module Loader.

(** ** Keyframe normalisation ([enhanceFlows]) *)

Record FlowStep : Type := mkFlowStep {
  keyframe : Z;
  from : string;
  to : string;
}.

Record Flow : Type := mkFlow {
  steps : list FlowStep;
}.

(** [Number.prototype.toString] on an integer (below 10^21 in magnitude,
    where JavaScript still prints every digit). *)
Definition toString (n : Z) : string := NilZero.string_of_int (Z.to_int n).

(** [new Set<number>()] keeps its elements in the order of first insertion. *)
Definition setAdd (s : list Z) (k : Z) : list Z :=
  if bool_decide (k ∈ s) then s else s ++ [k].

(** [Array.prototype.sort()] called without a comparator orders the elements
    by their string forms, code unit by code unit. *)
Definition defaultLess (a b : Z) : bool := String.ltb (toString a) (toString b).

Definition sort (l : list Z) : list Z := sortWith defaultLess l.

(** [Array.prototype.indexOf] *)
Fixpoint indexOfFrom (i : Z) (l : list Z) (v : Z) : Z :=
  match l with
  | [] => -1
  | w :: rest => if w =? v then i else indexOfFrom (i + 1) rest v
  end.

Definition indexOf (l : list Z) (v : Z) : Z := indexOfFrom 0 l v.

Definition uniqueKeyframes (flow : Flow) : list Z :=
  fold_left setAdd (map keyframe (steps flow)) [].

(** *** The step objects

    [load] works on [structuredClone(system)], which keeps the sharing of its
    argument: a step object that two entries of [flow.steps] refer to, or
    the steps of two flows, is one object in the clone too, and
    [step.keyframe = ...] writes that object in place.  The steps are
    therefore objects of a store, and a flow holds references. *)

(** A reference to a step object. *)
Abbreviation StepRef := nat.

(** The step objects: every reference points to one. *)
Definition Steps : Type := StepRef -> FlowStep.

(** The steps of a flow as a loop over [flow.steps] reads them. *)
Definition readFlow (objects : Steps) (refs : list StepRef) : Flow :=
  {| steps := map objects refs |}.

(** [step.keyframe = keyframes.indexOf(step.keyframe)], written in place. *)
Definition normalizeStep (keyframes : list Z) (objects : Steps) (ref : StepRef) : Steps :=
  fun r =>
    if decide (r = ref)
    then {| keyframe := indexOf keyframes (keyframe (objects ref));
            from := from (objects ref);
            to := to (objects ref) |}
    else objects r.

(** The body of [system.flows.forEach]: the first loop collects the
    keyframes, the second rewrites [step.keyframe]; the resolution of [from]
    and [to], done in the second loop, reads and writes no keyframe. *)
Definition normalizeFlow (objects : Steps) (refs : list StepRef) : Steps :=
  let keyframes := sort (uniqueKeyframes (readFlow objects refs)) in
  fold_left (normalizeStep keyframes) refs objects.

(** [enhanceFlows(system)]: the flows one after the other, on the same
    objects. *)
Definition enhanceFlows (objects : Steps) (flows : list (list StepRef)) : Steps :=
  fold_left normalizeFlow flows objects.

(** The objects of a flow written as a value: one object for each step, the
    step [i] behind the reference [i]. *)
Definition allocate (flow : Flow) : Steps :=
  fun ref => default (mkFlowStep 0 "" "") (steps flow !! ref).

(** [enhanceFlows] on one flow whose steps are distinct objects, read back
    as a value. *)
Definition normalizeKeyframes (flow : Flow) : Flow :=
  let refs := seq 0 (length (steps flow)) in
  readFlow (normalizeFlow (allocate flow) refs) refs.

Definition keyframesOf (flow : Flow) : list Z := map keyframe (steps flow).

(** ** Sizes and ports ([computeSizes]) *)

Record XY : Type := mkXY { x : Z; y : Z }.

Record RuntimeSystemSize : Type := mkSize { width : Z; height : Z }.

(** A link as the specification has it. *)
Record Link : Type := mkLink { a : string; b : string }.

#[local] Unset Elimination Schemes.
Inductive RuntimeSubsystem : Type := mkSubsystem {
  id : string;
  canonicalId : string;
  position : XY;
  size : option RuntimeSystemSize;
  ports : list XY;
  systems : list RuntimeSubsystem;
}.
#[local] Set Elimination Schemes.

(** [RuntimeLink extends Link] *)
Record RuntimeLink : Type := mkRuntimeLink {
  link : Link;
  index : Z;
  systemA : option RuntimeSubsystem;
  systemB : option RuntimeSubsystem;
}.

(** ** Link endpoints ([enhanceLinks]) *)

(** [String.prototype.split(".")] *)
Fixpoint split (separator : ascii) (s : string) : list string :=
  match s with
  | EmptyString => [EmptyString]
  | String c rest =>
      if Ascii.eqb c separator then EmptyString :: split separator rest
      else
        match split separator rest with
        | [] => [String c EmptyString]
        | segment :: segments => String c segment :: segments
        end
  end.

(** The system a path is followed from: the root, or a subsystem. *)
Inductive SystemRef : Type :=
| Root
| Subsystem (subsystem : RuntimeSubsystem).

Definition systemsOf (root : list RuntimeSubsystem) (ref : SystemRef) : list RuntimeSubsystem :=
  match ref with
  | Root => root
  | Subsystem subsystem => systems subsystem
  end.

(** [systems.find(ss => ss.id === subsystemId)] *)
Definition findById (systems : list RuntimeSubsystem) (subsystemId : string)
  : option RuntimeSubsystem :=
  List.find (fun ss => String.eqb (id ss) subsystemId) systems.

(** The loop over [path.split(".")], started at the root. *)
Definition resolve (root : list RuntimeSubsystem) (path : string) : option RuntimeSubsystem :=
  let reached :=
    fold_left
      (fun current subsystemId =>
         match current with
         | Some ref => Subsystem <$> findById (systemsOf root ref) subsystemId
         | None => None
         end)
      (split "." path) (Some Root) in
  match reached with
  | Some (Subsystem subsystem) => Some subsystem
  | _ => None
  end.

Fixpoint enhanceLinksFrom (root : list RuntimeSubsystem) (index : Z) (links : list Link)
  : list RuntimeLink :=
  match links with
  | [] => []
  | l :: rest =>
      {| link := l;
         index := index;
         systemA := resolve root (a l);
         systemB := resolve root (b l) |}
      :: enhanceLinksFrom root (index + 1) rest
  end.

(** [enhanceLinks(system)], on the children and the links of the root. *)
Definition enhanceLinks (root : list RuntimeSubsystem) (links : list Link) : list RuntimeLink :=
  enhanceLinksFrom root 0 links.

(** [links.filter(link => link.a.startsWith(id) || link.b.startsWith(id)).length] *)
Definition linksCount (links : list RuntimeLink) (subsystem : RuntimeSubsystem) : Z :=
  Z.of_nat (length (filter
    (fun l => String.prefix (canonicalId subsystem) (a (link l))
              || String.prefix (canonicalId subsystem) (b (link l)) = true)
    links)).

(** [for (let x = from; x < limit; x += 2)], two ports pushed per turn. *)
Fixpoint edgePorts (fuel : nat) (x limit top bottom : Z) : list XY :=
  match fuel with
  | O => []
  | S fuel' =>
      if x <? limit
      then mkXY x top :: mkXY x bottom :: edgePorts fuel' (x + 2) limit top bottom
      else []
  end.

Definition sizeOf (linksCount : Z) : RuntimeSystemSize :=
  if linksCount <=? 4
  then {| width := 3; height := 3 |}
  else {| width := 3 + Z.rem (linksCount - 4) 2; height := 3 |}.

Definition portsOf (linksCount : Z) (position : XY) : list XY :=
  let size := sizeOf linksCount in
  if linksCount <=? 4 then
    [ mkXY (x position + 1) (y position - 1);
      mkXY (x position + width size) (y position + 1);
      mkXY (x position + 1) (y position + height size);
      mkXY (x position - 1) (y position + 1) ]
  else
    [ mkXY (x position - 1) (y position + 1);
      mkXY (x position + width size) (y position + 1) ] ++
    edgePorts (Z.to_nat (x position + width size - (x position + 1)))
      (x position + 1) (x position + width size)
      (y position - 1) (y position + height size).

Fixpoint computeSubsystem (links : list RuntimeLink) (subsystem : RuntimeSubsystem)
  : RuntimeSubsystem :=
  let n := linksCount links subsystem in
  {| id := id subsystem;
     canonicalId := canonicalId subsystem;
     position := position subsystem;
     size := Some (sizeOf n);
     ports := portsOf n (position subsystem);
     systems := map (computeSubsystem links) (systems subsystem) |}.

(** [computeSizes(system, links)], on the children of [system]. *)
Definition computeSizes (systems : list RuntimeSubsystem) (links : list RuntimeLink)
  : list RuntimeSubsystem :=
  map (computeSubsystem links) systems.

(** A subsystem and everything below it. *)
Fixpoint descendants (subsystem : RuntimeSubsystem) : list RuntimeSubsystem :=
  subsystem :: flat_map descendants (systems subsystem).

(** ** Facts about the normalisation *)

Lemma setAdd_fold_spec ks : forall s,
  NoDup s ->
  NoDup (fold_left setAdd ks s) /\
  forall v, v ∈ fold_left setAdd ks s <-> v ∈ s \/ v ∈ ks.
Proof.
  induction ks as [|k ks IH]; intros s Hs; simpl.
  - split; [done|]. intros v. rewrite elem_of_nil. tauto.
  - assert (Hadd : NoDup (setAdd s k) /\ forall v, v ∈ setAdd s k <-> v ∈ s \/ v = k).
    { unfold setAdd. case_bool_decide as Hk.
      - split; [done|]. intros v. split; [tauto|]. by intros [?| ->].
      - split.
        + apply NoDup_app. repeat split; [done| |apply NoDup_singleton].
          intros v Hv ->%list_elem_of_singleton. done.
        + intros v. rewrite elem_of_app, list_elem_of_singleton. tauto. }
    destruct Hadd as [Hnd Hel]. destruct (IH _ Hnd) as [Hnd' Hel'].
    split; [done|]. intros v. rewrite Hel', Hel, elem_of_cons. tauto.
Qed.

Lemma uniqueKeyframes_NoDup flow : NoDup (uniqueKeyframes flow).
Proof. apply setAdd_fold_spec. constructor. Qed.

Lemma elem_of_uniqueKeyframes flow v :
  v ∈ uniqueKeyframes flow <-> v ∈ keyframesOf flow.
Proof.
  unfold uniqueKeyframes, keyframesOf.
  destruct (setAdd_fold_spec (map keyframe (steps flow)) [] (NoDup_nil_2)) as [_ ->].
  rewrite elem_of_nil. tauto.
Qed.

(** The number of distinct keyframes of a flow. *)
Definition distinctKeyframes (flow : Flow) : Z :=
  Z.of_nat (length (remove_dups (keyframesOf flow))).

Lemma length_sorted_keyframes flow :
  Z.of_nat (length (sort (uniqueKeyframes flow))) = distinctKeyframes flow.
Proof.
  unfold distinctKeyframes, sort. f_equal. rewrite sortWith_perm.
  apply Permutation_length, NoDup_Permutation.
  - apply uniqueKeyframes_NoDup.
  - apply NoDup_remove_dups.
  - intros v. by rewrite elem_of_uniqueKeyframes, elem_of_remove_dups.
Qed.

Lemma indexOfFrom_elem i l v :
  v ∈ l ->
  exists n : nat, indexOfFrom i l v = i + Z.of_nat n /\ l !! n = Some v.
Proof.
  revert i. induction l as [|w rest IH]; intros i Hv; [by apply elem_of_nil in Hv|].
  simpl. destruct (w =? v) eqn:E.
  - exists 0%nat. apply Z.eqb_eq in E as ->. split; [lia|done].
  - apply elem_of_cons in Hv as [->|Hv]; [lia|].
    destruct (IH (i + 1) Hv) as (n & -> & Hn). exists (S n). split; [lia|done].
Qed.

Lemma indexOfFrom_NoDup i l (n : nat) v :
  NoDup l -> l !! n = Some v -> indexOfFrom i l v = i + Z.of_nat n.
Proof.
  revert i n. induction l as [|w rest IH]; intros i n Hnd Hn; [done|].
  apply NoDup_cons in Hnd as [Hw Hnd]. simpl. destruct n as [|n]; simpl in Hn.
  - inversion Hn; subst. rewrite Z.eqb_refl. lia.
  - destruct (w =? v) eqn:E.
    + apply Z.eqb_eq in E as ->. destruct Hw. by eapply list_elem_of_lookup_2.
    + rewrite (IH (i + 1) n) by done. lia.
Qed.

(** The second loop, on steps that are distinct objects: every step of the
    flow is rewritten once, and no other object is written. *)
Lemma fold_normalizeStep keyframes refs : forall objects r,
  NoDup refs ->
  fold_left (normalizeStep keyframes) refs objects r =
    if decide (r ∈ refs)
    then {| keyframe := indexOf keyframes (keyframe (objects r));
            from := from (objects r);
            to := to (objects r) |}
    else objects r.
Proof.
  induction refs as [|ref refs IH]; intros objects r Hnd.
  - destruct (decide (r ∈ [])) as [Hin|_]; [by apply elem_of_nil in Hin|done].
  - apply NoDup_cons in Hnd as [Href Hnd].
    cbn [fold_left]. rewrite (IH _ r Hnd). unfold normalizeStep.
    destruct (decide (r ∈ ref :: refs)) as [Hin|Hout].
    + apply elem_of_cons in Hin as [Heq|Hin].
      * subst r. destruct (decide (ref ∈ refs)) as [?|_]; [done|].
        by destruct (decide (ref = ref)).
      * destruct (decide (r ∈ refs)) as [_|?]; [|done].
        destruct (decide (r = ref)) as [Heq|_]; [by subst r|done].
    + apply not_elem_of_cons in Hout as [Hne Hout].
      destruct (decide (r ∈ refs)) as [?|_]; [done|].
      by destruct (decide (r = ref)).
Qed.

(** An object that is no step of the flow is not written. *)
Lemma fold_normalizeStep_frame keyframes refs : forall objects r,
  r ∉ refs -> fold_left (normalizeStep keyframes) refs objects r = objects r.
Proof.
  induction refs as [|ref refs IH]; intros objects r Hr; simpl; [done|].
  apply not_elem_of_cons in Hr as [Hne Hr]. rewrite (IH _ r Hr).
  unfold normalizeStep. by rewrite decide_False.
Qed.

Lemma normalizeFlow_frame objects refs r :
  r ∉ refs -> normalizeFlow objects refs r = objects r.
Proof. apply fold_normalizeStep_frame. Qed.

Lemma enhanceFlows_frame flows : forall objects r,
  r ∉ concat flows -> enhanceFlows objects flows r = objects r.
Proof.
  unfold enhanceFlows.
  induction flows as [|refs flows IH]; intros objects r Hr; simpl; [done|].
  simpl in Hr. apply not_elem_of_app in Hr as [Hrefs Hr].
  rewrite (IH _ r Hr). by apply normalizeFlow_frame.
Qed.

Lemma readFlow_ext objects objects' refs :
  (forall r, r ∈ refs -> objects' r = objects r) ->
  readFlow objects' refs = readFlow objects refs.
Proof.
  intros Hext. unfold readFlow. f_equal. apply map_ext_in.
  intros r Hr. apply Hext. by apply list_elem_of_In.
Qed.

(** What the normalisation leaves in a flow whose steps are distinct
    objects: each keyframe is replaced by its index among the sorted
    keyframes. *)
Lemma normalizeFlow_distinct objects refs :
  NoDup refs ->
  keyframesOf (readFlow (normalizeFlow objects refs) refs) =
    map (indexOf (sort (uniqueKeyframes (readFlow objects refs))))
      (keyframesOf (readFlow objects refs)).
Proof.
  intros Hnd. unfold keyframesOf, readFlow at 1 3. simpl. rewrite !map_map.
  apply map_ext_in. intros r Hr%list_elem_of_In.
  unfold normalizeFlow. rewrite fold_normalizeStep by done.
  by rewrite decide_True.
Qed.

Lemma readFlow_allocate flow :
  readFlow (allocate flow) (seq 0 (length (steps flow))) = flow.
Proof.
  destruct flow as [l]. unfold readFlow, allocate. simpl. f_equal.
  apply list_eq. intros i. rewrite list_lookup_fmap.
  destruct (decide (i < length l)%nat) as [Hi|Hi].
  - rewrite lookup_seq_lt by done. simpl.
    destruct (lookup_lt_is_Some_2 l i Hi) as [step Hstep]. by rewrite Hstep.
  - rewrite lookup_seq_ge by lia. simpl. symmetry. apply lookup_ge_None. lia.
Qed.

(** On a flow given as a value, the normalisation is a map over the steps. *)
Lemma normalizeKeyframes_keyframes flow :
  keyframesOf (normalizeKeyframes flow) =
    map (indexOf (sort (uniqueKeyframes flow))) (keyframesOf flow).
Proof.
  unfold normalizeKeyframes. cbv zeta.
  rewrite normalizeFlow_distinct by apply NoDup_seq.
  by rewrite readFlow_allocate.
Qed.

(** The indexes of the keyframes among the sorted distinct keyframes are the
    numbers below their count. *)
Lemma indexes_dense (flow : Flow) :
  let k := distinctKeyframes flow in
  let normalized := map (indexOf (sort (uniqueKeyframes flow))) (keyframesOf flow) in
  (forall v, v ∈ normalized -> 0 <= v < k) /\
  (forall v, 0 <= v < k -> v ∈ normalized).
Proof.
  intros k normalized.
  assert (Hnd : NoDup (sort (uniqueKeyframes flow))).
  { unfold sort. rewrite sortWith_perm. apply uniqueKeyframes_NoDup. }
  assert (Hel : forall v, v ∈ sort (uniqueKeyframes flow) <-> v ∈ keyframesOf flow).
  { intros v. unfold sort. by rewrite sortWith_perm, elem_of_uniqueKeyframes. }
  pose proof (length_sorted_keyframes flow) as Hlen. fold k in Hlen.
  unfold normalized. split.
  - intros v (w & -> & Hw)%list_elem_of_fmap.
    apply Hel in Hw. destruct (indexOfFrom_elem 0 _ _ Hw) as (n & Hi & Hn).
    unfold indexOf. rewrite Hi. apply lookup_lt_Some in Hn. lia.
  - intros v Hv.
    destruct (lookup_lt_is_Some_2 (sort (uniqueKeyframes flow)) (Z.to_nat v)) as [w Hw];
      [lia|].
    apply list_elem_of_fmap. exists w. split.
    + unfold indexOf. rewrite (indexOfFrom_NoDup 0 _ (Z.to_nat v) w) by done. lia.
    + apply Hel. by eapply list_elem_of_lookup_2.
Qed.

(** C8, as amended: for a flow whose steps are distinct objects that no
    other flow of the system holds, the keyframes of the steps after
    [enhanceFlows] take their values in 0 .. k-1, where k is the number of
    distinct keyframes the flow had, and every value of that range is the
    keyframe of some step. *)
Theorem normalized_keyframes_dense (objects : Steps) (flows : list (list StepRef))
    (i : nat) (refs : list StepRef) :
  flows !! i = Some refs ->
  NoDup refs ->
  Forall (fun ref => ref ∉ concat (delete i flows)) refs ->
  let k := distinctKeyframes (readFlow objects refs) in
  let normalized := keyframesOf (readFlow (enhanceFlows objects flows) refs) in
  (forall v, v ∈ normalized -> 0 <= v < k) /\
  (forall v, 0 <= v < k -> v ∈ normalized).
Proof.
  intros Hi Hnd Hothers k normalized.
  rewrite Forall_forall in Hothers.
  pose proof (take_drop_middle flows i refs Hi) as Hflows.
  assert (Hdelete : delete i flows = take i flows ++ drop (S i) flows).
  { apply delete_take_drop. }
  set (objects1 := enhanceFlows objects (take i flows)).
  assert (Hbefore : readFlow objects1 refs = readFlow objects refs).
  { apply readFlow_ext. intros r Hr. apply enhanceFlows_frame.
    intros Hin. apply (Hothers r Hr). rewrite Hdelete, concat_app, elem_of_app. by left. }
  assert (Hrun : enhanceFlows objects flows =
            enhanceFlows (normalizeFlow objects1 refs) (drop (S i) flows)).
  { rewrite <- Hflows at 1. unfold enhanceFlows. by rewrite fold_left_app. }
  assert (Hafter : readFlow (enhanceFlows objects flows) refs =
            readFlow (normalizeFlow objects1 refs) refs).
  { rewrite Hrun. apply readFlow_ext. intros r Hr. apply enhanceFlows_frame.
    intros Hin. apply (Hothers r Hr). rewrite Hdelete, concat_app, elem_of_app. by right. }
  unfold normalized. rewrite Hafter, (normalizeFlow_distinct objects1 refs Hnd), Hbefore.
  apply indexes_dense.
Qed.

(** A flow whose two steps are one object, of keyframe 10. *)
Definition sharedStep : Steps := fun _ => mkFlowStep 10 "a" "b".

(** The object is normalised twice: 10 becomes 0, its index in [[10]], and 0
    becomes -1, as [[10]] does not hold it. *)
Lemma normalized_keyframes_shared_step :
  let refs := [0%nat; 0%nat] in
  keyframesOf (readFlow sharedStep refs) = [10; 10] /\
  distinctKeyframes (readFlow sharedStep refs) = 1 /\
  keyframesOf (readFlow (enhanceFlows sharedStep [refs]) refs) = [-1; -1] /\
  ~ (forall v, v ∈ keyframesOf (readFlow (enhanceFlows sharedStep [refs]) refs) ->
       0 <= v < distinctKeyframes (readFlow sharedStep refs)).
Proof.
  intros refs.
  assert (Hk : distinctKeyframes (readFlow sharedStep refs) = 1) by (vm_compute; reflexivity).
  assert (Hn : keyframesOf (readFlow (enhanceFlows sharedStep [refs]) refs) = [-1; -1])
    by (vm_compute; reflexivity).
  split; [reflexivity|]. split; [exact Hk|]. split; [exact Hn|].
  rewrite Hn, Hk. intros Hall. specialize (Hall (-1)).
  assert (0 <= -1 < 1) as [? _]; [apply Hall; by left|lia].
Qed.

(** The flow of the sixth scenario of the specification. *)
Definition scenarioFlow : Flow :=
  {| steps := [ mkFlowStep 10 "a" "b"; mkFlowStep 5 "b" "c";
                mkFlowStep 5 "c" "d"; mkFlowStep 20 "d" "e" ] |}.

Lemma normalized_keyframes_dense_witness :
  let objects := allocate scenarioFlow in
  let flows := [[0; 1; 2; 3]; [4; 5]]%nat in
  let refs := [0; 1; 2; 3]%nat in
  let k := distinctKeyframes (readFlow objects refs) in
  let normalized := keyframesOf (readFlow (enhanceFlows objects flows) refs) in
  (forall v, v ∈ normalized -> 0 <= v < k) /\
  (forall v, 0 <= v < k -> v ∈ normalized).
Proof.
  apply (normalized_keyframes_dense (allocate scenarioFlow)
           [[0; 1; 2; 3]; [4; 5]]%nat 0 [0; 1; 2; 3]%nat).
  - reflexivity.
  - compute_done.
  - compute_done.
Defined.

(** C2: the steps of keyframes 10, 5, 5, 20 leave the normalisation with the
    keyframes 0, 2, 2, 1: the sort, called without a comparator, orders the
    distinct keyframes as the strings "10" < "20" < "5". *)
Theorem normalizeKeyframes_scenario :
  sort (uniqueKeyframes scenarioFlow) = [10; 20; 5] /\
  keyframesOf (normalizeKeyframes scenarioFlow) = [0; 2; 2; 1].
Proof. split; vm_compute; reflexivity. Qed.

(** Keyframes that have the same number of digits keep their numeric order. *)
Example normalizeKeyframes_two_digits :
  keyframesOf (normalizeKeyframes
    {| steps := [ mkFlowStep 30 "a" "b"; mkFlowStep 10 "b" "c";
                  mkFlowStep 10 "c" "d"; mkFlowStep 20 "d" "e" ] |})
  = [2; 0; 0; 1].
Proof. vm_compute. reflexivity. Qed.


(** ** Facts about the sizes *)

Fixpoint RuntimeSubsystem_ind (P : RuntimeSubsystem -> Prop)
    (step : forall id canonicalId position size ports systems,
       Forall P systems -> P (mkSubsystem id canonicalId position size ports systems))
    (subsystem : RuntimeSubsystem) : P subsystem :=
  match subsystem with
  | mkSubsystem id canonicalId position size ports systems =>
      step id canonicalId position size ports systems
        ((fix all (l : list RuntimeSubsystem) : Forall P l :=
            match l with
            | [] => List.Forall_nil P
            | s :: l' => @List.Forall_cons _ P s l' (RuntimeSubsystem_ind P step s) (all l')
            end) systems)
  end.

(** What [computeSizes] leaves on a subsystem. *)
Definition sized (links : list RuntimeLink) (subsystem : RuntimeSubsystem) : Prop :=
  size subsystem = Some (sizeOf (linksCount links subsystem)) /\
  ports subsystem = portsOf (linksCount links subsystem) (position subsystem).

Lemma linksCount_computeSubsystem links links' subsystem :
  linksCount links' (computeSubsystem links subsystem) = linksCount links' subsystem.
Proof. by destruct subsystem. Qed.

Lemma computeSubsystem_sized links subsystem :
  Forall (sized links) (descendants (computeSubsystem links subsystem)).
Proof.
  induction subsystem as [i c p s po sys IH] using RuntimeSubsystem_ind.
  simpl. apply Forall_cons. split; [by split|].
  induction IH as [|s' sys' Hs' _ IHsys]; simpl; [constructor|].
  apply Forall_app. by split.
Qed.

Lemma computeSizes_sized systems links :
  Forall (sized links) (flat_map descendants (computeSizes systems links)).
Proof.
  unfold computeSizes. induction systems as [|s systems IH]; simpl; [constructor|].
  apply Forall_app. split; [apply computeSubsystem_sized|done].
Qed.

(** The odd columns of a box [w] cells wide. *)
Definition oddColumns (w : Z) : list Z := filter (fun c => Z.odd c = true) (seqZ 0 w).

Lemma edgePorts_width px w top bottom :
  w = 3 \/ w = 4 ->
  edgePorts (Z.to_nat (px + w - (px + 1))) (px + 1) (px + w) top bottom =
  flat_map (fun c => [mkXY (px + c) top; mkXY (px + c) bottom]) (oddColumns w).
Proof.
  intros [-> | ->].
  - replace (px + 3 - (px + 1)) with 2 by lia. simpl.
    replace (px + 1 <? px + 3) with true by lia.
    replace (px + 1 + 2 <? px + 3) with false by lia. done.
  - replace (px + 4 - (px + 1)) with 3 by lia. simpl.
    replace (px + 1 <? px + 4) with true by lia.
    replace (px + 1 + 2 <? px + 4) with true by lia.
    replace (px + 1 + 2 + 2 <? px + 4) with false by lia.
    by replace (px + 1 + 2) with (px + 3) by lia.
Qed.

(** C6: a subsystem that more than four links refer to is [3 + ((n - 4) mod 2)]
    wide and 3 high; it has a port left and a port right of its second row,
    and above and below each of its odd columns a port; with five links it is
    4 wide and has four ports above and below. *)
Theorem computeSizes_more_than_four_links
    (systems : list RuntimeSubsystem) (links : list RuntimeLink)
    (subsystem : RuntimeSubsystem) :
  subsystem ∈ flat_map descendants (computeSizes systems links) ->
  4 < linksCount links subsystem ->
  let n := linksCount links subsystem in
  let w := 3 + (n - 4) mod 2 in
  let px := x (position subsystem) in
  let py := y (position subsystem) in
  size subsystem = Some {| width := w; height := 3 |} /\
  ports subsystem =
    mkXY (px - 1) (py + 1) :: mkXY (px + w) (py + 1) ::
    flat_map (fun c => [mkXY (px + c) (py - 1); mkXY (px + c) (py + 3)]) (oddColumns w) /\
  (n = 5 ->
   size subsystem = Some {| width := 4; height := 3 |} /\
   ports subsystem =
     [ mkXY (px - 1) (py + 1); mkXY (px + 4) (py + 1);
       mkXY (px + 1) (py - 1); mkXY (px + 1) (py + 3);
       mkXY (px + 3) (py - 1); mkXY (px + 3) (py + 3) ]).
Proof.
  intros Hin Hn n w px py.
  pose proof (computeSizes_sized systems links) as Hall.
  rewrite Forall_forall in Hall. destruct (Hall _ Hin) as [Hsize Hports].
  fold n in Hsize, Hports.
  assert (Hrem : Z.rem (n - 4) 2 = (n - 4) mod 2).
  { apply Z.rem_mod_nonneg; lia. }
  assert (Hw : w = 3 \/ w = 4).
  { unfold w. pose proof (Z.mod_pos_bound (n - 4) 2). lia. }
  assert (Hsz : sizeOf n = {| width := w; height := 3 |}).
  { unfold sizeOf. replace (n <=? 4) with false by lia. by rewrite Hrem. }
  assert (Hpo : portsOf n (position subsystem) =
    mkXY (px - 1) (py + 1) :: mkXY (px + w) (py + 1) ::
    flat_map (fun c => [mkXY (px + c) (py - 1); mkXY (px + c) (py + 3)]) (oddColumns w)).
  { unfold portsOf. rewrite Hsz. replace (n <=? 4) with false by lia. simpl.
    fold px py. by rewrite edgePorts_width. }
  rewrite Hsize, Hports, Hsz, Hpo. repeat split; try done.
  - assert (w = 4) as -> by (unfold w; replace (n - 4) with 1 by lia; done). done.
  - assert (w = 4) as -> by (unfold w; replace (n - 4) with 1 by lia; done). done.
Qed.

(** The fourth scenario of the specification: [foo] at (1,1), five links. *)
Definition scenarioFoo : RuntimeSubsystem :=
  mkSubsystem "foo" "foo" (mkXY 1 1) None [] [].

Definition scenarioLinks : list RuntimeLink :=
  enhanceLinks [scenarioFoo]
    [ mkLink "foo" "a"; mkLink "foo" "b"; mkLink "c" "foo";
      mkLink "foo" "d"; mkLink "e" "foo" ].

Lemma computeSizes_more_than_four_links_witness :
  let subsystem := computeSubsystem scenarioLinks scenarioFoo in
  size subsystem = Some {| width := 3 + (5 - 4) mod 2; height := 3 |} /\
  ports subsystem =
    mkXY (1 - 1) (1 + 1) :: mkXY (1 + (3 + (5 - 4) mod 2)) (1 + 1) ::
    flat_map (fun c => [mkXY (1 + c) (1 - 1); mkXY (1 + c) (1 + 3)])
      (oddColumns (3 + (5 - 4) mod 2)) /\
  (5 = 5 ->
   size subsystem = Some {| width := 4; height := 3 |} /\
   ports subsystem =
     [ mkXY (1 - 1) (1 + 1); mkXY (1 + 4) (1 + 1);
       mkXY (1 + 1) (1 - 1); mkXY (1 + 1) (1 + 3);
       mkXY (1 + 3) (1 - 1); mkXY (1 + 3) (1 + 3) ]).
Proof.
  refine (computeSizes_more_than_four_links [scenarioFoo] scenarioLinks
            (computeSubsystem scenarioLinks scenarioFoo) _ _).
  - simpl. left.
  - reflexivity.
Defined.

End Loader.

Module Validator.

Import Loader.

(** ** The validator of links

    [load] ends with [validate(system, runtime)], of the module
    [validations]; the sources embedded here hold the loader that calls it
    and the tests that state what it returns, not the module itself. *)

(** Modelled from the spec: [validations] is missing.  An error is a
    message ("missing", "inaccurate", "self-reference", "duplicate") and a
    JSON pointer. *)
Record ValidationError : Type := mkError {
  message : string;
  path : string;
}.

(** Modelled from the spec: [validations] is missing.  The pointer
    [/links/<i>] of the link of index [i]. *)
Definition linkPath (l : RuntimeLink) : string := "/links/" +:+ toString (index l).

Fixpoint leadsTo (p q : list string) : bool :=
  match p, q with
  | [], _ => true
  | s :: p', t :: q' => String.eqb s t && leadsTo p' q'
  | _ :: _, [] => false
  end.

(** Modelled from the spec: [validations] is missing.  "self-reference when
    a == b after normalisation": the two paths name the same system, or one
    names a system that contains the other, which is the case the tests of
    the loader report for the link from [foo.bar] to [foo]. *)
Definition selfReference (l : Link) : bool :=
  leadsTo (split "." (a l)) (split "." (b l)) ||
  leadsTo (split "." (b l)) (split "." (a l)).

(** Modelled from the spec: [validations] is missing.  "missing on a / b for
    unresolved paths, inaccurate for endpoints that resolved to an interior
    node that still has children", reported at [/links/<i>/a] or
    [/links/<i>/b]. *)
Definition endpointErrors (l : RuntimeLink) (endpoint : string)
    (resolved : option RuntimeSubsystem) : list ValidationError :=
  match resolved with
  | None => [mkError "missing" (linkPath l +:+ "/" +:+ endpoint)]
  | Some subsystem =>
      match systems subsystem with
      | [] => []
      | _ :: _ => [mkError "inaccurate" (linkPath l +:+ "/" +:+ endpoint)]
      end
  end.

(** Modelled from the spec: [validations] is missing.  "duplicate across the
    link list treating (a,b) and (b,a) as the same unordered edge". *)
Definition sameEdge (l1 l2 : Link) : bool :=
  (String.eqb (a l1) (a l2) && String.eqb (b l1) (b l2)) ||
  (String.eqb (a l1) (b l2) && String.eqb (b l1) (a l2)).

(** Modelled from the spec: [validations] is missing.  A link is a
    duplicate when another link of the list has the same unordered edge. *)
Definition duplicated (links : list RuntimeLink) (l : RuntimeLink) : bool :=
  existsb (fun other => negb (index other =? index l) && sameEdge (link other) (link l)) links.

(** Modelled from the spec: [validations] is missing.  The checks of section
    4.4, link after link, each error with the JSON pointer of what it is
    about. *)
Definition validateLink (links : list RuntimeLink) (l : RuntimeLink) : list ValidationError :=
  (if selfReference (link l) then [mkError "self-reference" (linkPath l)] else []) ++
  endpointErrors l "a" (systemA l) ++
  endpointErrors l "b" (systemB l) ++
  (if duplicated links l then [mkError "duplicate" (linkPath l)] else []).

(** Modelled from the spec: [validations] is missing.  The errors of all
    the links, in the order of the links. *)
Definition validate (links : list RuntimeLink) : list ValidationError :=
  flat_map (validateLink links) links.

(** The errors [load] returns for a root with these children and links:
    [enhanceLinks], then [validate]. *)
Definition loadErrors (root : list RuntimeSubsystem) (links : list Link) : list ValidationError :=
  validate (enhanceLinks root links).

(** ** The tests of the loader *)

Definition leaf (id : string) : RuntimeSubsystem := mkSubsystem id id (mkXY 1 1) None [] [].

Definition box (id : string) (systems : list RuntimeSubsystem) : RuntimeSubsystem :=
  mkSubsystem id id (mkXY 1 1) None [] systems.

Example test_missing_a :
  loadErrors [leaf "foo"] [mkLink "bar" "foo"] = [mkError "missing" "/links/0/a"].
Proof. reflexivity. Qed.

Example test_missing_b_nested :
  loadErrors [leaf "foo"; leaf "bar"] [mkLink "bar" "foo.bar"]
  = [mkError "missing" "/links/0/b"].
Proof. reflexivity. Qed.

Example test_inaccurate_a :
  loadErrors [box "foo" [leaf "bar"]; leaf "bar"] [mkLink "foo" "bar"]
  = [mkError "inaccurate" "/links/0/a"].
Proof. reflexivity. Qed.

Example test_self_reference :
  loadErrors [leaf "foo"] [mkLink "foo" "foo"] = [mkError "self-reference" "/links/0"].
Proof. reflexivity. Qed.

Example test_self_reference_subsystem :
  loadErrors [box "foo" [leaf "bar"]] [mkLink "foo.bar" "foo"]
  = [mkError "self-reference" "/links/0"; mkError "inaccurate" "/links/0/b"].
Proof. reflexivity. Qed.

Example test_siblings_in_a_box :
  loadErrors [box "foo" [leaf "bar"; leaf "spam"]] [mkLink "foo.bar" "foo.spam"] = [].
Proof. reflexivity. Qed.

Example test_duplicate_nested :
  loadErrors [box "foo" [leaf "bar"]; box "bar" [leaf "spam"]]
    [mkLink "foo.bar" "bar.spam"; mkLink "bar.spam" "foo.bar"]
  = [mkError "duplicate" "/links/0"; mkError "duplicate" "/links/1"].
Proof. reflexivity. Qed.

(** ** Duplicates *)






End Validator.

Module Simulator.

Import PathFinding.

(** ** The objects of the raster grid *)

Inductive SimulatorLinkDirectionType : Type :=
| Horizontal
| Vertical
| BottomToRight
| BottomToLeft
| TopToRight
| TopToLeft.

Inductive SimulatorSystemDirectionType : Type :=
| TopLeft
| TopCenter
| TopRight
| CenterLeft
| CenterCenter
| CenterRight
| BottomLeft
| BottomCenter
| BottomRight.

(** A runtime system as the routing reads it: its [id] (the root has none)
    and its [parent]. *)
#[local] Unset Elimination Schemes.
Inductive RuntimeNode : Type := mkRuntimeNode {
  id : option string;
  parent : option RuntimeNode;
}.
#[local] Set Elimination Schemes.

Record RuntimeLink : Type := mkRuntimeLink {
  a : string;
  b : string;
  systemA : option RuntimeNode;
  systemB : option RuntimeNode;
}.

(** One constructor per [SimulatorObjectType]; a system is referred to by
    its id. *)
Inductive SimulatorObject : Type :=
| SimulatorSubsystem (system : string) (direction : SimulatorSystemDirectionType)
    (blackbox : bool)
| SimulatorPort (system : string)
| SimulatorLink (direction : SimulatorLinkDirectionType) (link : RuntimeLink)
| SimulatorSystemMargin (system : string)
| SimulatorSystemTitle (system : string) (blackbox : bool) (chars : string)
| SimulatorSystemTitlePadding (system : string) (blackbox : bool).

Module Boundaries.
Record t : Type := mk {
  left : Z;
  top : Z;
  right : Z;
  bottom : Z;
  width : Z;
  height : Z;
  translateX : Z;
  translateY : Z;
}.
End Boundaries.

Module Title.
Record t : Type := mk {
  x : Z;
  y : Z;
  width : Z;
  height : Z;
}.
End Title.

Module GridSystem.
Record t : Type := mk {
  id : string;
  x1 : Z;
  x2 : Z;
  y1 : Z;
  y2 : Z;
  worldX : Z;
  worldY : Z;
  width : Z;
  height : Z;
  ports : list Cell;
  title : Title.t;
  hidden : bool;
}.
End GridSystem.

(** [SimulatorObject[][][]]: a column that was never assigned is a hole. *)
Abbreviation Raster := (list (option (list (list SimulatorObject)))).

Record SystemSimulator : Type := mkSimulator {
  routes : gmap string (gmap string (list Cell));
  gridSystems : gmap string GridSystem.t;
  grid : Raster;
  boundaries : Boundaries.t;
}.

(** [Object.values(record)] *)
Definition values {A : Type} (record : gmap string A) : list A := (map_to_list record).*2.

(** [array[i]] for an integer [i] *)
Definition at_ {A : Type} (array : list A) (i : Z) : option A :=
  if i <? 0 then None else array !! Z.to_nat i.

(** [grid[x]?.[y]] *)
Definition cellAt (grid : Raster) (x y : Z) : option (list SimulatorObject) :=
  column ← mjoin (at_ grid x); at_ column y.

(** [grid[x]![y]!.push(object)] *)
Definition push (grid : Raster) (x y : Z) (object : SimulatorObject) : Exec Raster :=
  match mjoin (at_ grid x) with
  | None => Throw TypeError
  | Some column =>
      match at_ column y with
      | None => Throw TypeError
      | Some stack =>
          Ret (<[Z.to_nat x := Some (<[Z.to_nat y := stack ++ [object]]> column)]> grid)
      end
  end.

(** ** Boundaries and grid positions *)

Section Margins.

(** [SystemMargin], a constant of the module [consts], taken as a
    parameter. *)
Variable SystemMargin : Z.

Definition MAX_SAFE_INTEGER : Z := 2 ^ 53 - 1.

(** The four running extremes of [computeBoundaries]. *)
Record Extent : Type := mkExtent {
  left : Z;
  right : Z;
  top : Z;
  bottom : Z;
}.

Definition extend (e : Extent) (obj : GridSystem.t) : Extent :=
  {| left := if GridSystem.worldX obj <? left e then GridSystem.worldX obj else left e;
     right := if GridSystem.worldX obj + GridSystem.width obj >? right e
              then GridSystem.worldX obj + GridSystem.width obj else right e;
     top := if GridSystem.worldY obj <? top e then GridSystem.worldY obj else top e;
     bottom := if GridSystem.worldY obj + GridSystem.height obj >? bottom e
               then GridSystem.worldY obj + GridSystem.height obj else bottom e |}.

Definition computeBoundaries (gridSystems : gmap string GridSystem.t) : Boundaries.t :=
  let e := fold_left extend (values gridSystems)
             (mkExtent MAX_SAFE_INTEGER 0 MAX_SAFE_INTEGER 0) in
  (* Happens when there are no subsystems. *)
  let left := if left e >? right e then right e else left e in
  let top := if top e >? bottom e then bottom e else top e in
  (* Apply system margins. *)
  let left := left - SystemMargin * 5 in
  let right := right e + SystemMargin * 5 in
  let top := top - SystemMargin * 5 in
  let bottom := bottom e + SystemMargin * 5 in
  {| Boundaries.left := left;
     Boundaries.right := right;
     Boundaries.top := top;
     Boundaries.bottom := bottom;
     Boundaries.width := right - left;
     Boundaries.height := bottom - top;
     Boundaries.translateX := if left <? 0 then Z.abs left else - left;
     Boundaries.translateY := if top <? 0 then Z.abs top else - top |}.

Definition positioned (boundaries : Boundaries.t) (obj : GridSystem.t) : GridSystem.t :=
  let x1 := GridSystem.worldX obj + Boundaries.translateX boundaries in
  let y1 := GridSystem.worldY obj + Boundaries.translateY boundaries in
  {| GridSystem.id := GridSystem.id obj;
     GridSystem.x1 := x1;
     GridSystem.x2 := x1 + GridSystem.width obj - 1;
     GridSystem.y1 := y1;
     GridSystem.y2 := y1 + GridSystem.height obj - 1;
     GridSystem.worldX := GridSystem.worldX obj;
     GridSystem.worldY := GridSystem.worldY obj;
     GridSystem.width := GridSystem.width obj;
     GridSystem.height := GridSystem.height obj;
     GridSystem.ports := GridSystem.ports obj;
     GridSystem.title := GridSystem.title obj;
     GridSystem.hidden := GridSystem.hidden obj |}.

Definition computeSystemPositions (sim : SystemSimulator) : SystemSimulator :=
  {| routes := routes sim;
     gridSystems := positioned (boundaries sim) <$> gridSystems sim;
     grid := grid sim;
     boundaries := boundaries sim |}.

(** The two steps [compute] takes between the sizes and the ports:
    [this.boundaries = this.computeBoundaries(); this.computeSystemPositions()].
    Nothing that follows them in [compute] writes a boundary, a world
    position or a grid position. *)
Definition computePositions (sim : SystemSimulator) : SystemSimulator :=
  computeSystemPositions
    {| routes := routes sim;
       gridSystems := gridSystems sim;
       grid := grid sim;
       boundaries := computeBoundaries (gridSystems sim) |}.

End Margins.

(** ** The raster grid *)

(** [this.grid = new Array(height)], then one array of [height] empty stacks
    for each of the [width] columns. *)
Definition createGrid (boundaries : Boundaries.t) : Exec Raster :=
  if (Boundaries.height boundaries <? 0) || (2 ^ 32 - 1 <? Boundaries.height boundaries)
  then Throw RangeError
  else
    Ret (replicate (Z.to_nat (Boundaries.width boundaries))
           (Some (replicate (Z.to_nat (Boundaries.height boundaries)) [])) ++
         replicate (Z.to_nat (Boundaries.height boundaries)
                    - Z.to_nat (Boundaries.width boundaries)) None).

Definition getObjectsAt (sim : SystemSimulator) (worldX worldY : Z) : Exec (list SimulatorObject) :=
  let gridX := worldX + Boundaries.translateX (boundaries sim) in
  let gridY := worldY + Boundaries.translateY (boundaries sim) in
  Ret (default [] (cellAt (grid sim) gridX gridY)).

(** [getRoute(fromSystemId, toSystemId)] *)
Definition getRoute (sim : SystemSimulator) (fromSystemId toSystemId : string)
  : option (list Cell) :=
  r ← routes sim !! fromSystemId; r !! toSystemId.

(** ** Facts about the boundaries *)

Lemma extend_spec e obj :
  left (extend e obj) <= left e /\
  left (extend e obj) <= GridSystem.worldX obj /\
  right e <= right (extend e obj) /\
  GridSystem.worldX obj + GridSystem.width obj <= right (extend e obj) /\
  top (extend e obj) <= top e /\
  top (extend e obj) <= GridSystem.worldY obj /\
  bottom e <= bottom (extend e obj) /\
  GridSystem.worldY obj + GridSystem.height obj <= bottom (extend e obj).
Proof.
  unfold extend. simpl.
  repeat match goal with |- context [if ?c then _ else _] => destruct c eqn:? end; lia.
Qed.

Lemma fold_extend_mono l : forall e,
  left (fold_left extend l e) <= left e /\
  right e <= right (fold_left extend l e) /\
  top (fold_left extend l e) <= top e /\
  bottom e <= bottom (fold_left extend l e).
Proof.
  induction l as [|obj l IH]; intros e; simpl; [lia|].
  specialize (IH (extend e obj)). pose proof (extend_spec e obj). lia.
Qed.

Lemma fold_extend_covers l obj : forall e,
  obj ∈ l ->
  left (fold_left extend l e) <= GridSystem.worldX obj /\
  GridSystem.worldX obj + GridSystem.width obj <= right (fold_left extend l e) /\
  top (fold_left extend l e) <= GridSystem.worldY obj /\
  GridSystem.worldY obj + GridSystem.height obj <= bottom (fold_left extend l e).
Proof.
  induction l as [|o l IH]; intros e Hin; [by apply elem_of_nil in Hin|].
  simpl. apply elem_of_cons in Hin as [->|Hin]; [|by apply IH].
  pose proof (fold_extend_mono l (extend e o)) as Hm.
  pose proof (extend_spec e o). lia.
Qed.

Lemma elem_of_values {A : Type} (record : gmap string A) key v :
  record !! key = Some v -> v ∈ values record.
Proof.
  intros Hk. unfold values. apply list_elem_of_fmap.
  exists (key, v). split; [done|]. by apply elem_of_map_to_list.
Qed.

Lemma values_lookup {A : Type} (record : gmap string A) v :
  v ∈ values record -> exists key, record !! key = Some v.
Proof.
  unfold values. intros ([key v'] & -> & Hin)%list_elem_of_fmap.
  exists key. by apply elem_of_map_to_list.
Qed.

(** Each running extreme is the one the loop started from, or that of a
    system. *)
Lemma fold_extend_attained l : forall e,
  (left (fold_left extend l e) = left e \/
   exists obj, obj ∈ l /\ left (fold_left extend l e) = GridSystem.worldX obj) /\
  (right (fold_left extend l e) = right e \/
   exists obj, obj ∈ l /\
     right (fold_left extend l e) = GridSystem.worldX obj + GridSystem.width obj) /\
  (top (fold_left extend l e) = top e \/
   exists obj, obj ∈ l /\ top (fold_left extend l e) = GridSystem.worldY obj) /\
  (bottom (fold_left extend l e) = bottom e \/
   exists obj, obj ∈ l /\
     bottom (fold_left extend l e) = GridSystem.worldY obj + GridSystem.height obj).
Proof.
  induction l as [|o l IH]; intros e; [simpl; tauto|].
  cbn [fold_left]. destruct (IH (extend e o)) as (Hl & Hr & Ht & Hb).
  assert (Hlater : forall (P : GridSystem.t -> Prop),
            (exists obj, obj ∈ l /\ P obj) -> exists obj, obj ∈ o :: l /\ P obj).
  { intros P (obj & Hin & HP). exists obj. split; [by right|done]. }
  assert (Hfirst : forall (P : GridSystem.t -> Prop), P o -> exists obj, obj ∈ o :: l /\ P obj).
  { intros P HP. exists o. split; [by left|done]. }
  repeat split.
  - destruct Hl as [Hl|Hl]; [|right; by apply Hlater]. rewrite Hl. unfold extend. simpl.
    destruct (GridSystem.worldX o <? left e); [right; by apply Hfirst|by left].
  - destruct Hr as [Hr|Hr]; [|right; by apply Hlater]. rewrite Hr. unfold extend. simpl.
    destruct (GridSystem.worldX o + GridSystem.width o >? right e);
      [right; by apply Hfirst|by left].
  - destruct Ht as [Ht|Ht]; [|right; by apply Hlater]. rewrite Ht. unfold extend. simpl.
    destruct (GridSystem.worldY o <? top e); [right; by apply Hfirst|by left].
  - destruct Hb as [Hb|Hb]; [|right; by apply Hlater]. rewrite Hb. unfold extend. simpl.
    destruct (GridSystem.worldY o + GridSystem.height o >? bottom e);
      [right; by apply Hfirst|by left].
Qed.

(** The right and bottom edges start from 0: they are those of a system, or
    the margin alone when every system ends left of, or above, the origin.
    The left and top edges are those of a system. *)
Lemma computeBoundaries_edges (SystemMargin : Z) (systems : gmap string GridSystem.t) :
  let b := computeBoundaries SystemMargin systems in
  SystemMargin * 5 <= Boundaries.right b /\
  SystemMargin * 5 <= Boundaries.bottom b /\
  (Boundaries.right b = SystemMargin * 5 \/
   exists key obj, systems !! key = Some obj /\
     Boundaries.right b = GridSystem.worldX obj + GridSystem.width obj + SystemMargin * 5) /\
  (Boundaries.bottom b = SystemMargin * 5 \/
   exists key obj, systems !! key = Some obj /\
     Boundaries.bottom b = GridSystem.worldY obj + GridSystem.height obj + SystemMargin * 5) /\
  (forall key obj, systems !! key = Some obj ->
     GridSystem.worldX obj <= MAX_SAFE_INTEGER -> 0 <= GridSystem.width obj ->
     exists key' obj', systems !! key' = Some obj' /\
       Boundaries.left b + SystemMargin * 5 = GridSystem.worldX obj') /\
  (forall key obj, systems !! key = Some obj ->
     GridSystem.worldY obj <= MAX_SAFE_INTEGER -> 0 <= GridSystem.height obj ->
     exists key' obj', systems !! key' = Some obj' /\
       Boundaries.top b + SystemMargin * 5 = GridSystem.worldY obj').
Proof.
  intros b.
  pose proof (fold_extend_mono (values systems)
                (mkExtent MAX_SAFE_INTEGER 0 MAX_SAFE_INTEGER 0)) as Hm.
  pose proof (fold_extend_attained (values systems)
                (mkExtent MAX_SAFE_INTEGER 0 MAX_SAFE_INTEGER 0)) as (Hl & Hr & Ht & Hb).
  assert (Hcover : forall key obj, systems !! key = Some obj ->
            left (fold_left extend (values systems)
                    (mkExtent MAX_SAFE_INTEGER 0 MAX_SAFE_INTEGER 0)) <= GridSystem.worldX obj /\
            GridSystem.worldX obj + GridSystem.width obj <=
              right (fold_left extend (values systems)
                       (mkExtent MAX_SAFE_INTEGER 0 MAX_SAFE_INTEGER 0)) /\
            top (fold_left extend (values systems)
                   (mkExtent MAX_SAFE_INTEGER 0 MAX_SAFE_INTEGER 0)) <= GridSystem.worldY obj /\
            GridSystem.worldY obj + GridSystem.height obj <=
              bottom (fold_left extend (values systems)
                        (mkExtent MAX_SAFE_INTEGER 0 MAX_SAFE_INTEGER 0))).
  { intros key obj Hobj. apply fold_extend_covers. by eapply elem_of_values. }
  assert (Hkey : forall (P : GridSystem.t -> Prop),
            (exists obj, obj ∈ values systems /\ P obj) ->
            exists key obj, systems !! key = Some obj /\ P obj).
  { intros P (obj & Hin & HP). apply values_lookup in Hin as [key Hin]. by exists key, obj. }
  unfold b, computeBoundaries. simpl in *.
  set (e := fold_left extend (values systems) _) in *.
  split; [lia|]. split; [lia|]. split; [|split; [|split]].
  - destruct Hr as [Hr|Hr]; [left; lia|right].
    apply Hkey in Hr as (key & obj & Hobj & Hr). exists key, obj. split; [done|lia].
  - destruct Hb as [Hb|Hb]; [left; lia|right].
    apply Hkey in Hb as (key & obj & Hobj & Hb). exists key, obj. split; [done|lia].
  - intros key obj Hobj Hmax Hwidth. destruct (Hcover key obj Hobj) as (Hcl & Hcr & _).
    replace (left e >? right e) with false by lia.
    destruct Hl as [Hl|Hl].
    + exists key, obj. split; [done|lia].
    + apply Hkey in Hl as (key' & obj' & Hobj' & Hl). exists key', obj'. split; [done|lia].
  - intros key obj Hobj Hmax Hheight. destruct (Hcover key obj Hobj) as (_ & _ & Hct & Hcb).
    replace (top e >? bottom e) with false by lia.
    destruct Ht as [Ht|Ht].
    + exists key, obj. split; [done|lia].
    + apply Hkey in Ht as (key' & obj' & Hobj' & Ht). exists key', obj'. split; [done|lia].
Qed.

(** C9, as amended: once the boundaries and the grid positions are computed,
    every grid system has x1 = worldX + translateX >= 0 and
    y1 = worldY + translateY >= 0; the translation is the opposite of the
    left and top edges of the boundaries, and the boundaries hold every
    system with a margin of 5 * SystemMargin on each side.  The right and
    bottom edges are, the margin apart, the greatest worldX + width and
    worldY + height, or 0 when these are all negative; the left and top
    edges are, the margin apart, the least worldX and worldY. *)
Theorem grid_positions_non_negative
    (SystemMargin : Z) (sim : SystemSimulator) (key : string) (obj : GridSystem.t) :
  0 <= SystemMargin ->
  gridSystems (computePositions SystemMargin sim) !! key = Some obj ->
  let systems := gridSystems (computePositions SystemMargin sim) in
  let b := boundaries (computePositions SystemMargin sim) in
  GridSystem.x1 obj = GridSystem.worldX obj + Boundaries.translateX b /\
  GridSystem.y1 obj = GridSystem.worldY obj + Boundaries.translateY b /\
  0 <= GridSystem.x1 obj /\
  0 <= GridSystem.y1 obj /\
  Boundaries.translateX b = - Boundaries.left b /\
  Boundaries.translateY b = - Boundaries.top b /\
  Boundaries.left b + SystemMargin * 5 <= GridSystem.worldX obj /\
  GridSystem.worldX obj + GridSystem.width obj + SystemMargin * 5 <= Boundaries.right b /\
  Boundaries.top b + SystemMargin * 5 <= GridSystem.worldY obj /\
  GridSystem.worldY obj + GridSystem.height obj + SystemMargin * 5 <= Boundaries.bottom b /\
  SystemMargin * 5 <= Boundaries.right b /\
  SystemMargin * 5 <= Boundaries.bottom b /\
  (Boundaries.right b = SystemMargin * 5 \/
   exists key' obj', systems !! key' = Some obj' /\
     Boundaries.right b =
       GridSystem.worldX obj' + GridSystem.width obj' + SystemMargin * 5) /\
  (Boundaries.bottom b = SystemMargin * 5 \/
   exists key' obj', systems !! key' = Some obj' /\
     Boundaries.bottom b =
       GridSystem.worldY obj' + GridSystem.height obj' + SystemMargin * 5) /\
  (GridSystem.worldX obj <= MAX_SAFE_INTEGER -> 0 <= GridSystem.width obj ->
   exists key' obj', systems !! key' = Some obj' /\
     Boundaries.left b + SystemMargin * 5 = GridSystem.worldX obj') /\
  (GridSystem.worldY obj <= MAX_SAFE_INTEGER -> 0 <= GridSystem.height obj ->
   exists key' obj', systems !! key' = Some obj' /\
     Boundaries.top b + SystemMargin * 5 = GridSystem.worldY obj').
Proof.
  intros Hmargin Hobj systems b.
  pose proof (computeBoundaries_edges SystemMargin (gridSystems sim))
    as (Hright & Hbottom & Hr & Hb & Hl & Ht).
  assert (Hpositioned : forall (P : GridSystem.t -> Prop),
            (forall o, P o -> P (positioned b o)) ->
            (exists key' obj', gridSystems sim !! key' = Some obj' /\ P obj') ->
            exists key' obj', systems !! key' = Some obj' /\ P obj').
  { intros P HP (key' & obj' & Hobj' & HP').
    exists key', (positioned b obj'). split; [|by apply HP].
    unfold systems, computePositions, computeSystemPositions. simpl.
    by rewrite lookup_fmap, Hobj'. }
  unfold computePositions, computeSystemPositions in Hobj. simpl in Hobj.
  rewrite lookup_fmap in Hobj.
  destruct (gridSystems sim !! key) as [obj0|] eqn:Hkey; [|done].
  simpl in Hobj. inversion Hobj; subst obj; clear Hobj.
  specialize (Hl key obj0 Hkey). specialize (Ht key obj0 Hkey).
  assert (Hfirst : GridSystem.x1 (positioned
                     (computeBoundaries SystemMargin (gridSystems sim)) obj0) =
                   GridSystem.worldX obj0 + Boundaries.translateX b /\
                   GridSystem.y1 (positioned
                     (computeBoundaries SystemMargin (gridSystems sim)) obj0) =
                   GridSystem.worldY obj0 + Boundaries.translateY b /\
                   0 <= GridSystem.worldX obj0 + Boundaries.translateX b /\
                   0 <= GridSystem.worldY obj0 + Boundaries.translateY b /\
                   Boundaries.translateX b = - Boundaries.left b /\
                   Boundaries.translateY b = - Boundaries.top b /\
                   Boundaries.left b + SystemMargin * 5 <= GridSystem.worldX obj0 /\
                   GridSystem.worldX obj0 + GridSystem.width obj0 + SystemMargin * 5
                     <= Boundaries.right b /\
                   Boundaries.top b + SystemMargin * 5 <= GridSystem.worldY obj0 /\
                   GridSystem.worldY obj0 + GridSystem.height obj0 + SystemMargin * 5
                     <= Boundaries.bottom b).
  { apply elem_of_values in Hkey.
    pose proof (fold_extend_covers (values (gridSystems sim)) obj0
                  (mkExtent MAX_SAFE_INTEGER 0 MAX_SAFE_INTEGER 0) Hkey) as Hc.
    unfold b, computePositions, computeSystemPositions, computeBoundaries. simpl.
    set (e := fold_left extend (values (gridSystems sim)) _) in *.
    repeat match goal with |- context [if ?c then _ else _] => destruct c eqn:? end; lia. }
  destruct Hfirst as (H1 & H2 & H3 & H4 & H5 & H6 & H7 & H8 & H9 & H10).
  split; [exact H1|]. split; [exact H2|].
  split; [rewrite H1; exact H3|]. split; [rewrite H2; exact H4|].
  split; [exact H5|]. split; [exact H6|]. split; [exact H7|]. split; [exact H8|].
  split; [exact H9|]. split; [exact H10|].
  split; [exact Hright|]. split; [exact Hbottom|].
  split; [|split; [|split]].
  - destruct Hr as [Hr|Hr]; [by left|right].
    by apply (Hpositioned (fun o => Boundaries.right b =
                GridSystem.worldX o + GridSystem.width o + SystemMargin * 5)).
  - destruct Hb as [Hb|Hb]; [by left|right].
    by apply (Hpositioned (fun o => Boundaries.bottom b =
                GridSystem.worldY o + GridSystem.height o + SystemMargin * 5)).
  - intros Hmax Hwidth.
    by apply (Hpositioned (fun o => Boundaries.left b + SystemMargin * 5 =
                GridSystem.worldX o)); [|apply Hl].
  - intros Hmax Hheight.
    by apply (Hpositioned (fun o => Boundaries.top b + SystemMargin * 5 =
                GridSystem.worldY o)); [|apply Ht].
Qed.

(** A single system left of and above the origin. *)
Definition lonely : SystemSimulator :=
  {| routes := ∅;
     gridSystems :=
       {[ "foo" := GridSystem.mk "foo" (-1) (-1) (-1) (-1) (-7) (-2) 3 3 []
                     (Title.mk (-1) (-1) (-1) (-1)) false ]};
     grid := [];
     boundaries := Boundaries.mk 0 0 0 0 0 0 0 0 |}.

Lemma grid_positions_non_negative_witness :
  let obj := GridSystem.mk "foo" 5 7 5 7 (-7) (-2) 3 3 [] (Title.mk (-1) (-1) (-1) (-1)) false in
  let systems := gridSystems (computePositions 1 lonely) in
  let b := boundaries (computePositions 1 lonely) in
  GridSystem.x1 obj = GridSystem.worldX obj + Boundaries.translateX b /\
  GridSystem.y1 obj = GridSystem.worldY obj + Boundaries.translateY b /\
  0 <= GridSystem.x1 obj /\
  0 <= GridSystem.y1 obj /\
  Boundaries.translateX b = - Boundaries.left b /\
  Boundaries.translateY b = - Boundaries.top b /\
  Boundaries.left b + 1 * 5 <= GridSystem.worldX obj /\
  GridSystem.worldX obj + GridSystem.width obj + 1 * 5 <= Boundaries.right b /\
  Boundaries.top b + 1 * 5 <= GridSystem.worldY obj /\
  GridSystem.worldY obj + GridSystem.height obj + 1 * 5 <= Boundaries.bottom b /\
  1 * 5 <= Boundaries.right b /\
  1 * 5 <= Boundaries.bottom b /\
  (Boundaries.right b = 1 * 5 \/
   exists key' obj', systems !! key' = Some obj' /\
     Boundaries.right b = GridSystem.worldX obj' + GridSystem.width obj' + 1 * 5) /\
  (Boundaries.bottom b = 1 * 5 \/
   exists key' obj', systems !! key' = Some obj' /\
     Boundaries.bottom b = GridSystem.worldY obj' + GridSystem.height obj' + 1 * 5) /\
  (GridSystem.worldX obj <= MAX_SAFE_INTEGER -> 0 <= GridSystem.width obj ->
   exists key' obj', systems !! key' = Some obj' /\
     Boundaries.left b + 1 * 5 = GridSystem.worldX obj') /\
  (GridSystem.worldY obj <= MAX_SAFE_INTEGER -> 0 <= GridSystem.height obj ->
   exists key' obj', systems !! key' = Some obj' /\
     Boundaries.top b + 1 * 5 = GridSystem.worldY obj').
Proof.
  refine (grid_positions_non_negative 1 lonely "foo" _ _ _).
  - discriminate.
  - vm_compute. reflexivity.
Defined.

(** The system of [lonely] ends at worldX + width = -4: the bounding
    rectangle of the systems, inflated by 5, would end at 1, and the
    boundaries end at 5. *)
Lemma boundaries_beyond_bounding_rectangle :
  let systems := gridSystems (computePositions 1 lonely) in
  let b := boundaries (computePositions 1 lonely) in
  Boundaries.right b = 5 /\
  (forall key obj, systems !! key = Some obj ->
     GridSystem.worldX obj + GridSystem.width obj + 1 * 5 = 1) /\
  ~ (exists key obj, systems !! key = Some obj /\
       Boundaries.right b = GridSystem.worldX obj + GridSystem.width obj + 1 * 5).
Proof.
  intros systems b.
  assert (Hright : Boundaries.right b = 5) by (vm_compute; reflexivity).
  assert (Hall : forall key obj, systems !! key = Some obj ->
            GridSystem.worldX obj + GridSystem.width obj + 1 * 5 = 1).
  { intros key obj. unfold systems, computePositions, computeSystemPositions, lonely.
    simpl. rewrite map_fmap_singleton. by intros [_ <-]%lookup_singleton_Some. }
  split; [exact Hright|]. split; [exact Hall|].
  intros (key & obj & Hobj & Heq). apply Hall in Hobj. lia.
Qed.

(** ** Facts about the raster grid *)

(** The cells of [grid] are those of a rectangle [width] by [height]. *)
Definition hasShape (boundaries : Boundaries.t) (grid : Raster) : Prop :=
  forall x y,
    is_Some (cellAt grid x y) <->
    0 <= x < Boundaries.width boundaries /\ 0 <= y < Boundaries.height boundaries.

Lemma at_Some {A : Type} (array : list A) i v :
  at_ array i = Some v <-> 0 <= i /\ array !! Z.to_nat i = Some v.
Proof.
  unfold at_. destruct (i <? 0) eqn:E; split.
  - done.
  - intros [? _]. lia.
  - intros Hv. split; [lia|done].
  - by intros [_ ?].
Qed.

Lemma createGrid_shape boundaries grid :
  createGrid boundaries = Ret grid -> hasShape boundaries grid.
Proof.
  unfold createGrid.
  destruct ((Boundaries.height boundaries <? 0) || _) eqn:Hh; [done|].
  apply orb_false_iff in Hh as [Hh _].
  intros [= <-] x y. unfold cellAt. split.
  - intros [stack Hs].
    destruct (mjoin (at_ _ x)) as [column|] eqn:Hc; [|done]. simpl in Hs.
    destruct (at_ _ x) as [[column'|]|] eqn:Hx; try done. simpl in Hc.
    inversion Hc; subst column'; clear Hc.
    apply at_Some in Hx as [Hx0 Hx], Hs as [Hy0 Hy].
    apply lookup_app_Some in Hx as [Hx|[_ Hx]].
    + apply lookup_replicate in Hx as [[= ->] Hx].
      apply lookup_replicate in Hy as [_ Hy]. lia.
    + by apply lookup_replicate in Hx as [? _].
  - intros [Hx Hy].
    assert (at_ (replicate (Z.to_nat (Boundaries.width boundaries))
                   (Some (replicate (Z.to_nat (Boundaries.height boundaries))
                            ([] : list SimulatorObject))) ++
                 replicate (Z.to_nat (Boundaries.height boundaries)
                            - Z.to_nat (Boundaries.width boundaries)) None) x
            = Some (Some (replicate (Z.to_nat (Boundaries.height boundaries)) []))) as ->.
    { apply at_Some. split; [lia|]. rewrite lookup_app_l by (rewrite length_replicate; lia).
      apply lookup_replicate. split; [done|lia]. }
    simpl. exists []. apply at_Some. split; [lia|].
    apply lookup_replicate. split; [done|lia].
Qed.

(** C10: [getObjectsAt] returns a list for every world coordinate, whatever
    the state of the simulator; on a grid that has the shape of the
    boundaries, it returns the empty list for every coordinate whose grid
    coordinates lie outside of it. *)
Theorem getObjectsAt_total (sim : SystemSimulator) (worldX worldY : Z) :
  (exists objects, getObjectsAt sim worldX worldY = Ret objects) /\
  (hasShape (boundaries sim) (grid sim) ->
   let gridX := worldX + Boundaries.translateX (boundaries sim) in
   let gridY := worldY + Boundaries.translateY (boundaries sim) in
   ~ (0 <= gridX < Boundaries.width (boundaries sim) /\
      0 <= gridY < Boundaries.height (boundaries sim)) ->
   getObjectsAt sim worldX worldY = Ret []).
Proof.
  split; [by eexists|].
  intros Hshape gridX gridY Hout. unfold getObjectsAt. fold gridX gridY.
  destruct (cellAt (grid sim) gridX gridY) as [stack|] eqn:Hc; [|done].
  destruct Hout. apply Hshape. by exists stack.
Qed.

(** A simulator whose grid was just created, 3 columns by 2 rows, the world
    origin at the cell (1,1). *)
Definition blank : SystemSimulator :=
  {| routes := ∅;
     gridSystems := ∅;
     grid := [Some [[]; []]; Some [[]; []]; Some [[]; []]];
     boundaries := Boundaries.mk (-1) (-1) 2 1 3 2 1 1 |}.

Lemma getObjectsAt_total_witness :
  (exists objects, getObjectsAt blank 5 (-4) = Ret objects) /\
  getObjectsAt blank 5 (-4) = Ret [].
Proof.
  destruct (getObjectsAt_total blank 5 (-4)) as [Hret Hout].
  split; [exact Hret|]. apply Hout.
  - apply createGrid_shape. reflexivity.
  - simpl. lia.
Defined.


(** ** Routing the links ([drawLinks]) *)

(** ["blackbox" in obj && obj.blackbox] *)
Definition isBlackbox (object : SimulatorObject) : bool :=
  match object with
  | SimulatorSubsystem _ _ blackbox => blackbox
  | SimulatorSystemTitle _ blackbox _ => blackbox
  | SimulatorSystemTitlePadding _ blackbox => blackbox
  | _ => false
  end.

(** [grid[port.x]?.[port.y]?.at(-1)?.type === SimulatorObjectType.Port] *)
Definition portOnTop (grid : Raster) (port : Cell) : bool :=
  match cellAt grid port.1 port.2 with
  | Some stack =>
      match last stack with
      | Some (SimulatorPort _) => true
      | _ => false
      end
  | None => false
  end.

(** [while (parent?.id) { allowedSystems.push(parent.id); parent = parent.parent; }] *)
Fixpoint ancestorIds (parent : RuntimeNode) : list string :=
  match parent with
  | mkRuntimeNode (Some i) above =>
      if String.eqb i "" then []
      else i :: match above with
                | Some p => ancestorIds p
                | None => []
                end
  | mkRuntimeNode None _ => []
  end.

Definition idsAbove (system : RuntimeNode) : list string :=
  match parent system with
  | Some p => ancestorIds p
  | None => []
  end.

(** The ports of the systems that are not allowed, set to [weight]. *)
Definition setDeniedPorts (allowedSystems : list string) (weight : Weight)
    (gridSystems : gmap string GridSystem.t) (finderGrid : Grid) : Exec Grid :=
  forOf
    (fun gridSS finderGrid =>
       if bool_decide (GridSystem.id gridSS ∈ allowedSystems) then Ret finderGrid
       else
         forOf (fun port finderGrid => setWeightAt finderGrid port.1 port.2 weight)
           (GridSystem.ports gridSS) finderGrid)
    (values gridSystems) finderGrid.

(** The square of [distance]: [Math.sqrt] keeps the order of the integers it
    is given here, so that sorting by distance is sorting by this. *)
Definition distance2 (candidate : Cell * Cell) : Z :=
  (candidate.2.1 - candidate.1.1) ^ 2 + (candidate.2.2 - candidate.1.2) ^ 2.

Definition candidatesOf (portsA portsB : list Cell) : list (Cell * Cell) :=
  sortWith (fun c d => distance2 c <? distance2 d)
    (flat_map (fun portA => map (fun portB => (portA, portB)) portsB) portsA).

(** [routes[a] ??= {}; routes[a][b] = route; routes[b] ??= {};
     routes[b][a] = route.slice().reverse()] *)
Definition recordRoute (routes : gmap string (gmap string (list Cell)))
    (a b : string) (route : list Cell) : gmap string (gmap string (list Cell)) :=
  let routes := <[a := <[b := route]> (default ∅ (routes !! a))]> routes in
  <[b := <[a := rev route]> (default ∅ (routes !! b))]> routes.

(** The cell next to a port on the side of the box it belongs to. *)
Definition inward (port : Cell) (subsystem : GridSystem.t) : Cell :=
  if port.1 <? GridSystem.x1 subsystem then (port.1 + 1, port.2)
  else if port.1 >? GridSystem.x2 subsystem then (port.1 - 1, port.2)
  else if port.2 <? GridSystem.y1 subsystem then (port.1, port.2 + 1)
  else (port.1, port.2 - 1).

(** The tile of a cell of a path, from the cells before and after it. *)
Definition tileOf (x y xBefore yBefore xAfter yAfter : Z)
  : option SimulatorLinkDirectionType :=
  if (yBefore =? y) && (yAfter =? y) then Some Horizontal
  else if (xBefore =? x) && (xAfter =? x) then Some Vertical
  else if ((xBefore =? x) && (yBefore >? y) && (xAfter >? x) && (yAfter =? y))
          || ((yBefore =? y) && (xBefore >? x) && (yAfter >? y) && (xAfter =? x))
  then Some BottomToRight
  else if ((xBefore <? x) && (yBefore =? y) && (xAfter =? x) && (yAfter >? y))
          || ((yBefore >? y) && (xBefore =? x) && (yAfter =? y) && (xAfter <? x))
  then Some BottomToLeft
  else if ((xBefore =? x) && (yBefore <? y) && (xAfter <? x) && (yAfter =? y))
          || ((yBefore =? y) && (xBefore <? x) && (yAfter <? y) && (xAfter =? x))
  then Some TopToLeft
  else if ((xBefore >? x) && (yBefore =? y) && (xAfter =? x) && (yAfter <? y))
          || ((yBefore <? y) && (xBefore =? x) && (yAfter =? y) && (xAfter >? x))
  then Some TopToRight
  else None.

(** [route[i]!], read for its coordinates. *)
Definition routeAt (route : list Cell) (i : Z) : Exec Cell :=
  match at_ route i with
  | Some cell => Ret cell
  | None => Throw TypeError
  end.

Section Routing.

Variable H : Heap.

(** [for (const { portA, portB } of candidates)] up to its [break]: the first
    candidate between whose ports a path is found, and the path.  [findPath]
    is the search of the path-finding module, with its default options. *)
Fixpoint findRoute (candidates : list (Cell * Cell)) (finderGrid : Grid)
  : Exec (option ((Cell * Cell) * list Cell) * Grid) :=
  match candidates with
  | [] => Ret (None, finderGrid)
  | (portA, portB) :: rest =>
      r ← findPathOn H defaultFinder portA.1 portA.2 portB.1 portB.2 (reset finderGrid);
      match r.1 with
      | [] => findRoute rest r.2
      | _ :: _ => Ret (Some ((portA, portB), r.1), r.2)
      end
  end.

(** The body of [for (let i = 0; i < route.length; i++)]. *)
Definition drawTile (link : RuntimeLink) (portA portB : Cell)
    (subsystemA subsystemB : GridSystem.t) (route : list Cell)
    (step : Z * Cell) (st : Raster * Grid) : Exec (Raster * Grid) :=
  let '(i, (x, y)) := step in
  let '(grid, finderGrid) := st in
  finderGrid ← setWeightAt finderGrid x y (Finite 2);
  match cellAt grid x y with
  | None => Throw TypeError
  | Some stack =>
      if existsb isBlackbox stack then Ret (grid, finderGrid)
      else
        around ←
          (if Z.of_nat (length route) =? 1 then Ret (portA, portB)
           else if i =? 0 then
             after ← routeAt route (i + 1); Ret (inward portA subsystemA, after)
           else if i =? Z.of_nat (length route) - 1 then
             before ← routeAt route (i - 1); Ret (before, inward portB subsystemB)
           else
             before ← routeAt route (i - 1);
             after ← routeAt route (i + 1);
             Ret (before, after));
        match tileOf x y around.1.1 around.1.2 around.2.1 around.2.2 with
        | Some direction =>
            grid ← push grid x y (SimulatorLink direction link); Ret (grid, finderGrid)
        | None => Ret (grid, finderGrid)
        end
  end.

(** The search of one link: the ports of the systems that are not allowed
    are closed, and the candidates are tried in the order of their
    distance. *)
Definition searchLink (link : RuntimeLink) (st : SystemSimulator * Grid)
  : Exec (list string * GridSystem.t * GridSystem.t *
          option ((Cell * Cell) * list Cell) * Grid) :=
  let '(sim, finderGrid) := st in
  let subsystemA := gridSystems sim !! a link in
  let subsystemB := gridSystems sim !! b link in
  match systemA link, systemB link with
  | Some nodeA, Some nodeB =>
      let allowedSystems := [a link; b link] ++ idsAbove nodeA ++ idsAbove nodeB in
      finderGrid ← setDeniedPorts allowedSystems Infinity (gridSystems sim) finderGrid;
      match subsystemA, subsystemB with
      | Some subsystemA, Some subsystemB =>
          let subsystemAPorts := List.filter (portOnTop (grid sim)) (GridSystem.ports subsystemA) in
          let subsystemBPorts := List.filter (portOnTop (grid sim)) (GridSystem.ports subsystemB) in
          found ← findRoute (candidatesOf subsystemAPorts subsystemBPorts) finderGrid;
          Ret (allowedSystems, subsystemA, subsystemB, found.1, found.2)
      | _, _ => Throw TypeError
      end
  | _, _ => Throw TypeError
  end.

(** The body of [for (const link of system.links)]. *)
Definition drawLink (link : RuntimeLink) (st : SystemSimulator * Grid)
  : Exec (SystemSimulator * Grid) :=
  searched ← searchLink link st;
  let '(allowedSystems, subsystemA, subsystemB, found, finderGrid) := searched in
  let sim := st.1 in
  drawn ←
    match found with
    | Some ((portA, portB), route) =>
        let routes := recordRoute (routes sim) (a link) (b link) route in
        tiles ← forOf (drawTile link portA portB subsystemA subsystemB route)
                  (imap (fun i cell => (Z.of_nat i, cell)) route) (grid sim, finderGrid);
        Ret (routes, tiles.1, tiles.2)
    | None => Ret (routes sim, grid sim, finderGrid)
    end;
  let '(routes, grid, finderGrid) := drawn in
  finderGrid ← setDeniedPorts allowedSystems (Finite 1) (gridSystems sim) finderGrid;
  Ret ({| routes := routes;
          gridSystems := gridSystems sim;
          grid := grid;
          boundaries := boundaries sim |}, finderGrid).

Definition drawLinks (links : list RuntimeLink) (st : SystemSimulator * Grid)
  : Exec (SystemSimulator * Grid) :=
  forOf drawLink links st.

(** A route was found for [link] in the state [st]. *)
Definition routeFound (link : RuntimeLink) (st : SystemSimulator * Grid) : Prop :=
  exists allowed subsystemA subsystemB candidate route finderGrid,
    searchLink link st =
      Ret (allowed, subsystemA, subsystemB, Some (candidate, route), finderGrid).

End Routing.

(** ** Facts about the routes *)

Lemma forOf_app {A St : Type} (body : A -> St -> Exec St) xs ys s :
  forOf body (xs ++ ys) s = forOf body xs s ≫= forOf body ys.
Proof.
  revert s. induction xs as [|x xs IH]; intros s; [done|].
  simpl. destruct (body x s) as [s'|e]; simpl; [apply IH|done].
Qed.

(** [routes[x]?.[y]] *)
Definition routeOf (routes : gmap string (gmap string (list Cell))) (x y : string)
  : option (list Cell) :=
  r ← routes !! x; r !! y.

Lemma default_row (routes : gmap string (gmap string (list Cell))) x y :
  default ∅ (routes !! x) !! y = routeOf routes x y.
Proof. unfold routeOf. by destruct (routes !! x). Qed.

Lemma routeOf_recordRoute routes a b route x y :
  routeOf (recordRoute routes a b route) x y =
    if decide (x = b /\ y = a) then Some (rev route)
    else if decide (x = a /\ y = b) then Some route
    else routeOf routes x y.
Proof.
  unfold recordRoute. unfold routeOf at 1.
  destruct (decide (x = b)) as [->|Hxb].
  - rewrite lookup_insert_eq. simpl.
    destruct (decide (y = a)) as [->|Hya].
    + rewrite lookup_insert_eq. by rewrite decide_True.
    + rewrite lookup_insert_ne by done. rewrite decide_False by (intuition congruence).
      rewrite default_row. unfold routeOf at 1.
      destruct (decide (b = a)) as [->|Hba].
      * rewrite lookup_insert_eq. simpl. rewrite lookup_insert_ne by done.
        rewrite decide_False by (intuition congruence). apply default_row.
      * rewrite lookup_insert_ne by done. by rewrite decide_False by (intuition congruence).
  - rewrite lookup_insert_ne by done. rewrite decide_False by (intuition congruence).
    destruct (decide (x = a)) as [->|Hxa].
    + rewrite lookup_insert_eq. simpl. destruct (decide (y = b)) as [->|Hyb].
      * rewrite lookup_insert_eq. by rewrite decide_True.
      * rewrite lookup_insert_ne by done. rewrite decide_False by (intuition congruence).
        apply default_row.
    + rewrite lookup_insert_ne by done. by rewrite decide_False by (intuition congruence).
Qed.

(** The route stored from [y] to [x] is the one stored from [x] to [y],
    reversed. *)
Definition symmetricAt (routes : gmap string (gmap string (list Cell))) (x y : string) : Prop :=
  exists route, routeOf routes x y = Some route /\ routeOf routes y x = Some (rev route).

Lemma symmetricAt_recorded routes a b route :
  (a = b -> rev route = route) ->
  symmetricAt (recordRoute routes a b route) a b.
Proof.
  intros Hself. unfold symmetricAt. rewrite !routeOf_recordRoute.
  destruct (decide (a = b)) as [->|Hab].
  - rewrite decide_True by done. exists (rev route). by rewrite rev_involutive, Hself.
  - rewrite decide_False by (intuition congruence). rewrite !decide_True by done. by exists route.
Qed.

Lemma symmetricAt_preserved routes a b route x y :
  (a = b -> rev route = route) ->
  symmetricAt routes x y ->
  symmetricAt (recordRoute routes a b route) x y.
Proof.
  intros Hself (r & Hxy & Hyx). unfold symmetricAt. rewrite !routeOf_recordRoute.
  destruct (decide (x = b /\ y = a)) as [[-> ->]|H1].
  - destruct (decide (a = b)) as [->|Hab].
    + rewrite decide_True by done. exists (rev route). by rewrite rev_involutive, Hself.
    + rewrite decide_False by (intuition congruence). rewrite decide_True by done.
      exists (rev route). by rewrite rev_involutive.
  - destruct (decide (x = a /\ y = b)) as [[-> ->]|H2].
    + rewrite decide_True by done. by exists route.
    + rewrite decide_False by (intuition congruence). rewrite decide_False by (intuition congruence).
      by exists r.
Qed.

(** ** A link from a system to itself *)

Lemma distance2_zero candidate :
  distance2 candidate = 0 -> candidate.1 = candidate.2.
Proof.
  destruct candidate as [[ax ay] [bx by_]]. unfold distance2. simpl. intros Hd.
  f_equal; nia.
Qed.

Lemma distance2_nonneg candidate : 0 <= distance2 candidate.
Proof. unfold distance2. nia. Qed.

(** The head of a sorted array is least. *)
Lemma insertSorted_head {A : Type} (key : A -> Z) v sorted x rest :
  (forall y rest', sorted = y :: rest' -> forall z, z ∈ sorted -> key y <= key z) ->
  insertSorted (fun c d => key c <? key d) v sorted = x :: rest ->
  forall z, z ∈ v :: sorted -> key x <= key z.
Proof.
  intros Hhead Hins z Hz. destruct sorted as [|w sorted']; simpl in Hins.
  - inversion Hins; subst. apply list_elem_of_singleton in Hz as ->. lia.
  - specialize (Hhead w sorted' eq_refl).
    destruct (key v <? key w) eqn:E; inversion Hins; subst; clear Hins.
    + apply elem_of_cons in Hz as [->|Hz]; [lia|]. specialize (Hhead z Hz). lia.
    + apply elem_of_cons in Hz as [->|Hz]; [lia|]. by apply Hhead.
Qed.

Lemma sortWith_head {A : Type} (key : A -> Z) l x rest :
  sortWith (fun c d => key c <? key d) l = x :: rest ->
  forall z, z ∈ l -> key x <= key z.
Proof.
  unfold sortWith.
  assert (Hgen : forall acc,
    (forall y rest', acc = y :: rest' -> forall z, z ∈ acc -> key y <= key z) ->
    forall x rest,
      fold_left (fun sorted v => insertSorted (fun c d => key c <? key d) v sorted) l acc
        = x :: rest ->
      forall z, z ∈ acc ++ l -> key x <= key z).
  { induction l as [|v l IH]; intros acc Hacc x' rest' Hf z Hz; simpl in Hf.
    - rewrite app_nil_r in Hz. by eapply Hacc.
    - eapply (IH (insertSorted (fun c d => key c <? key d) v acc)); [|exact Hf|].
      + intros y r Hy z' Hz'. eapply insertSorted_head; [exact Hacc|exact Hy|].
        by rewrite <- insertSorted_perm.
      + rewrite insertSorted_perm. simpl.
        rewrite <- Permutation_middle in Hz. exact Hz. }
  intros Hs z Hz. eapply (Hgen []); [done|exact Hs|done].
Qed.

Lemma candidatesOf_self ports candidate rest :
  candidatesOf ports ports = candidate :: rest -> candidate.1 = candidate.2.
Proof.
  intros Hc. apply distance2_zero.
  assert (Hin : candidate ∈
    flat_map (fun portA => map (fun portB => (portA, portB)) ports) ports).
  { unfold candidatesOf in Hc. rewrite <- (sortWith_perm (fun c d => distance2 c <? distance2 d)).
    rewrite Hc. by left. }
  apply list_elem_of_In, in_flat_map in Hin as (p & Hp & _).
  pose proof (sortWith_head distance2 _ _ _ Hc (p, p)) as Hmin.
  assert (distance2 (p, p) = 0) as Hz by (unfold distance2; simpl; lia).
  pose proof (distance2_nonneg candidate). rewrite Hz in Hmin.
  assert (0 <= 0 -> distance2 candidate <= 0) as Hle.
  { intros _. apply Hmin. apply list_elem_of_In, in_flat_map. exists p.
    split; [done|]. by apply in_map. }
  lia.
Qed.

Section RoutingFacts.

Variable H : Heap.

(** From a cell to itself the search returns the cell. *)
Lemma findPathOn_same_cell pf x y finderGrid path finderGrid' :
  findPathOn H pf x y x y (reset finderGrid) = Ret (path, finderGrid') ->
  path = [(x, y)].
Proof.
  unfold findPathOn. change (getNodeAt (reset finderGrid) x y) with (getNodeAt finderGrid x y).
  destruct (getNodeAt finderGrid x y) as [[start|]|e] eqn:Hs; simpl; try done.
  apply getNodeAt_Some in Hs as [-> _].
  set (grid0 := setNode (reset finderGrid) (x, y) _).
  unfold searchBound. simpl.
  set (openList := heap_push H (fOf grid0) (heap_new H) (x, y)).
  assert (Hitems : Permutation (heap_items H openList) [(x, y)]).
  { unfold openList. by rewrite heap_items_push, heap_items_new. }
  destruct (heap_empty H openList) eqn:Hemp.
  { apply heap_items_empty in Hemp. rewrite Hemp in Hitems.
    by apply Permutation_nil_cons in Hitems. }
  destruct (heap_pop H (fOf grid0) openList) as [[node open1]|] eqn:Hpop; [|done].
  apply heap_items_pop in Hpop. rewrite Hitems in Hpop.
  assert (node = (x, y)) as ->.
  { apply Permutation_length_1_inv in Hpop. by inversion Hpop. }
  rewrite decide_True by done.
  destruct (cellCount grid0); simpl; destruct (decide ((x, y) = (x, y))); try done;
    simpl; by intros [= <- _].
Qed.

Lemma findRoute_head candidates finderGrid candidate route finderGrid' :
  findRoute H candidates finderGrid = Ret (Some (candidate, route), finderGrid') ->
  (forall c rest, candidates = c :: rest -> c.1 = c.2) ->
  rev route = route.
Proof.
  destruct candidates as [|[portA portB] rest]; simpl; [done|].
  intros Hf Hhead. specialize (Hhead _ _ eq_refl). simpl in Hhead. subst portB.
  destruct (findPathOn H defaultFinder portA.1 portA.2 portA.1 portA.2 (reset finderGrid))
    as [[path fg]|e] eqn:Hp; simpl in Hf; [|done].
  apply findPathOn_same_cell in Hp as ->. simpl in Hf. by inversion Hf.
Qed.

(** The route found for a link from a system to itself is a single cell. *)
Lemma searchLink_self link st allowed subsystemA subsystemB candidate route finderGrid :
  searchLink H link st =
    Ret (allowed, subsystemA, subsystemB, Some (candidate, route), finderGrid) ->
  a link = b link -> rev route = route.
Proof.
  destruct st as [sim fg]. unfold searchLink. intros Hs Hab. rewrite Hab in Hs.
  destruct (systemA link), (systemB link); try done.
  destruct (setDeniedPorts _ _ _ _) as [fg1|e]; simpl in Hs; [|done].
  destruct (gridSystems sim !! b link) as [subsystem|]; [|done].
  destruct (findRoute H _ fg1) as [[found fg2]|e] eqn:Hf; simpl in Hs; [|done].
  inversion Hs; subst; clear Hs.
  eapply findRoute_head; [exact Hf|]. intros c rest. apply candidatesOf_self.
Qed.

(** What a link does to the routes. *)
Lemma drawLink_routes link st st' :
  drawLink H link st = Ret st' ->
  (routes st'.1 = routes st.1 /\ ~ routeFound H link st) \/
  (exists route,
     routes st'.1 = recordRoute (routes st.1) (a link) (b link) route /\
     (a link = b link -> rev route = route)).
Proof.
  unfold drawLink. intros Hd.
  destruct (searchLink H link st) as [[[[[allowed subsystemA] subsystemB] found] fg]|e]
    eqn:Hs; simpl in Hd; [|done].
  destruct found as [[[portA portB] route]|].
  - right. exists route. split; [|by eapply searchLink_self].
    destruct (forOf _ _ _) as [tiles|e]; simpl in Hd; [|done].
    destruct (setDeniedPorts _ _ _ _) as [fg'|e]; simpl in Hd; [|done].
    by inversion Hd.
  - left. simpl in Hd.
    destruct (setDeniedPorts _ _ _ _) as [fg'|e]; simpl in Hd; [|done].
    inversion Hd; subst; clear Hd. split; [done|].
    intros (? & ? & ? & ? & ? & ? & Hfound). congruence.
Qed.

Lemma drawLinks_preserve links x y : forall st st',
  drawLinks H links st = Ret st' ->
  symmetricAt (routes st.1) x y -> symmetricAt (routes st'.1) x y.
Proof.
  unfold drawLinks. induction links as [|link links IH]; intros st st' Hd Hsym.
  - by inversion Hd; subst.
  - rewrite forOf_cons in Hd.
    destruct (drawLink H link st) as [st1|e] eqn:Hl; simpl in Hd; [|done].
    apply (IH st1 st' Hd).
    destruct (drawLink_routes _ _ _ Hl) as [[-> _]|(route & -> & Hself)]; [done|].
    by apply symmetricAt_preserved.
Qed.

(** C5: when the links are drawn and a route is found for the link from [a]
    to [b], the route stored from [b] to [a] at the end is the reverse of
    the route stored from [a] to [b]. *)
Theorem drawLinks_routes_symmetric
    (before : list RuntimeLink) (link : RuntimeLink) (after : list RuntimeLink)
    (st st1 st' : SystemSimulator * Grid) :
  drawLinks H before st = Ret st1 ->
  routeFound H link st1 ->
  drawLinks H (before ++ link :: after) st = Ret st' ->
  exists route,
    getRoute st'.1 (a link) (b link) = Some route /\
    getRoute st'.1 (b link) (a link) = Some (rev route).
Proof.
  intros Hbefore Hfound Hall. unfold drawLinks in *.
  rewrite forOf_app, Hbefore in Hall. simpl in Hall.
  destruct (drawLink H link st1) as [st2|e] eqn:Hl; simpl in Hall; [|done].
  change (symmetricAt (routes st'.1) (a link) (b link)).
  apply (drawLinks_preserve after _ _ st2 st' Hall).
  destruct (drawLink_routes _ _ _ Hl) as [[_ Hnot]|(route & -> & Hself)]; [done|].
  by apply symmetricAt_recorded.
Qed.

End RoutingFacts.


(** Two systems on a row of five cells: [foo] has its port on the first
    cell, [bar] on the last. *)
Definition rootNode : RuntimeNode := mkRuntimeNode None None.

Definition fooBar : RuntimeLink :=
  {| a := "foo"; b := "bar";
     systemA := Some (mkRuntimeNode (Some "foo") (Some rootNode));
     systemB := Some (mkRuntimeNode (Some "bar") (Some rootNode)) |}.

Definition row : SystemSimulator :=
  {| routes := ∅;
     gridSystems :=
       {[ "foo" := GridSystem.mk "foo" (-3) (-1) 0 0 (-3) 0 3 1 [(0, 0)]
                     (Title.mk 0 0 0 0) false;
          "bar" := GridSystem.mk "bar" 5 7 0 0 5 0 3 1 [(4, 0)]
                     (Title.mk 0 0 0 0) false ]};
     grid := [Some [[SimulatorPort "foo"]]; Some [[]]; Some [[]]; Some [[]];
              Some [[SimulatorPort "bar"]]];
     boundaries := Boundaries.mk 0 0 5 1 5 1 0 0 |}.

Example drawLinks_row :
  (sim ← drawLinks ListHeap [fooBar] (row, newGrid 5 1 1);
   Ret (getRoute sim.1 "foo" "bar", getRoute sim.1 "bar" "foo", grid sim.1))
  = Ret (Some [(0, 0); (1, 0); (2, 0); (3, 0); (4, 0)],
         Some [(4, 0); (3, 0); (2, 0); (1, 0); (0, 0)],
         [Some [[SimulatorPort "foo"; SimulatorLink Horizontal fooBar]];
          Some [[SimulatorLink Horizontal fooBar]];
          Some [[SimulatorLink Horizontal fooBar]];
          Some [[SimulatorLink Horizontal fooBar]];
          Some [[SimulatorPort "bar"; SimulatorLink Horizontal fooBar]]]).
Proof. vm_compute. reflexivity. Qed.

Lemma drawLinks_routes_symmetric_witness :
  exists st',
    drawLinks ListHeap ([] ++ fooBar :: []) (row, newGrid 5 1 1) = Ret st' /\
    exists route,
      getRoute st'.1 (a fooBar) (b fooBar) = Some route /\
      getRoute st'.1 (b fooBar) (a fooBar) = Some (rev route).
Proof.
  destruct (drawLinks ListHeap ([] ++ fooBar :: []) (row, newGrid 5 1 1))
    as [st'|e] eqn:Hrun; [|vm_compute in Hrun; discriminate].
  exists st'. split; [reflexivity|].
  apply (drawLinks_routes_symmetric ListHeap [] fooBar [] (row, newGrid 5 1 1)
           (row, newGrid 5 1 1) st').
  - reflexivity.
  - unfold routeFound. do 6 eexists. vm_compute. reflexivity.
  - exact Hrun.
Defined.

End Simulator.

(** * Further properties

    The rest of the development covers the functions that surround the ones
    above in the same files, and what they guarantee to their callers. *)

Module GridFacts.

Import PathFinding.

(** ** Reading and writing weights *)

Lemma isInside_columns grid x y :
  isInside grid x y = true ->
  (0 <=? x) && (x <? width grid) = true /\ (0 <=? y) && (y <? height grid) = true.
Proof. unfold isInside. lia. Qed.

(** X1: [setWeightAt] and [getWeightAt] return for the cells of the grid and
    throw a [TypeError] for every other coordinate. *)
Theorem weight_access_bounds (grid : Grid) (x y : Z) (w : Weight) :
  (isInside grid x y = true ->
   returns (setWeightAt grid x y w) /\ returns (getWeightAt grid x y)) /\
  (isInside grid x y = false ->
   setWeightAt grid x y w = Throw TypeError /\ getWeightAt grid x y = Throw TypeError).
Proof.
  unfold setWeightAt, getWeightAt, returns. split; intros Hin.
  - rewrite (getNodeAt_inside grid x y Hin). simpl. by eauto.
  - unfold getNodeAt, isInside in *.
    destruct ((0 <=? x) && (x <? width grid)) eqn:Hx; [|done].
    destruct ((0 <=? y) && (y <? height grid)) eqn:Hy; [|done].
    lia.
Qed.

Lemma weight_access_bounds_witness :
  (returns (setWeightAt (newGrid 2 2 1) 1 1 Infinity) /\
   returns (getWeightAt (newGrid 2 2 1) 1 1)) /\
  (setWeightAt (newGrid 2 2 1) 1 2 Infinity = Throw TypeError /\
   getWeightAt (newGrid 2 2 1) 1 2 = Throw TypeError).
Proof.
  split.
  - apply (proj1 (weight_access_bounds (newGrid 2 2 1) 1 1 Infinity)). reflexivity.
  - apply (proj2 (weight_access_bounds (newGrid 2 2 1) 1 2 Infinity)). reflexivity.
Defined.

(** X2: a weight that was set is the weight that is read; the weights of the
    other cells, the dimensions and the search state of every node are as they
    were. *)
Theorem setWeightAt_getWeightAt (grid grid' : Grid) (x y : Z) (w : Weight) :
  setWeightAt grid x y w = Ret grid' ->
  getWeightAt grid' x y = Ret w /\
  (forall x' y', (x', y') <> (x, y) -> getWeightAt grid' x' y' = getWeightAt grid x' y') /\
  width grid' = width grid /\ height grid' = height grid /\
  (forall c, parent (nodes grid' c) = parent (nodes grid c) /\
             f (nodes grid' c) = f (nodes grid c) /\
             g (nodes grid' c) = g (nodes grid c) /\
             h (nodes grid' c) = h (nodes grid c) /\
             state (nodes grid' c) = state (nodes grid c)).
Proof.
  unfold setWeightAt. intros Hset.
  destruct (getNodeAt grid x y) as [[c|]|e] eqn:Hn; simpl in Hset; try done.
  apply getNodeAt_Some in Hn as [-> Hin]. inversion Hset; subst grid'; clear Hset.
  repeat split; try done.
  - unfold getWeightAt.
    rewrite (getNodeAt_inside (setNode grid (x, y) _) x y) by exact Hin.
    simpl. by rewrite decide_True.
  - intros x' y' Hne. unfold getWeightAt.
    change (getNodeAt (setNode grid (x, y) (withWeight (nodes grid (x, y)) w)) x' y')
      with (getNodeAt grid x' y').
    destruct (getNodeAt grid x' y') as [[c|]|e] eqn:Hn; simpl; try done.
    apply getNodeAt_Some in Hn as [-> _]. by rewrite decide_False.
  - simpl. by destruct (decide (c = (x, y))) as [->|].
  - simpl. by destruct (decide (c = (x, y))) as [->|].
  - simpl. by destruct (decide (c = (x, y))) as [->|].
  - simpl. by destruct (decide (c = (x, y))) as [->|].
  - simpl. by destruct (decide (c = (x, y))) as [->|].
Qed.

Lemma setWeightAt_getWeightAt_witness :
  exists grid',
    setWeightAt (newGrid 2 2 1) 1 1 (Finite 2) = Ret grid' /\
    getWeightAt grid' 1 1 = Ret (Finite 2) /\
    getWeightAt grid' 0 1 = getWeightAt (newGrid 2 2 1) 0 1.
Proof.
  eexists. split; [reflexivity|].
  destruct (setWeightAt_getWeightAt (newGrid 2 2 1) _ 1 1 (Finite 2) eq_refl)
    as (Hget & Hother & _).
  split; [exact Hget|]. apply Hother. discriminate.
Defined.

(** ** Neighbours *)

Lemma getNeighbors_iff grid node c :
  c ∈ getNeighbors grid node <->
  adjacent node c /\ isInside grid c.1 c.2 = true /\ weight (nodes grid c) <> Infinity.
Proof.
  destruct node as [x y].
  rewrite list_elem_of_In. unfold getNeighbors, adjacent, isWalkableAt.
  rewrite !in_app_iff. destruct c as [cx cy]. simpl. split.
  - intros [Hc|[Hc|[Hc|Hc]]];
      match type of Hc with In _ (if ?b then _ else _) => destruct b eqn:E end;
      simpl in Hc; try done; destruct Hc as [[= <- <-]|[]];
      apply andb_prop in E as [E1 E2]; apply bool_decide_eq_true in E2;
      (split; [lia|done]).
  - intros (Hadj & Hin & Hw).
    assert (Hcases : (cx = x /\ cy = y - 1) \/ (cx = x + 1 /\ cy = y) \/
                     (cx = x /\ cy = y + 1) \/ (cx = x - 1 /\ cy = y)) by lia.
    destruct Hcases as [[-> ->]|[[-> ->]|[[-> ->]|[-> ->]]]];
      [left|right; left|right; right; left|right; right; right];
      rewrite Hin; simpl; rewrite bool_decide_eq_true_2 by done; by left.
Qed.

(** X3: the neighbours of a node are exactly the cells one cardinal step
    away from it that are inside the grid and whose weight is not
    [Infinity]; there are at most four, none listed twice. *)
Theorem getNeighbors_exact (grid : Grid) (node c : Cell) :
  (c ∈ getNeighbors grid node <->
   adjacent node c /\ isInside grid c.1 c.2 = true /\ weight (nodes grid c) <> Infinity) /\
  NoDup (getNeighbors grid node) /\
  (length (getNeighbors grid node) <= 4)%nat.
Proof.
  split; [apply getNeighbors_iff|]. destruct node as [x y]. split.
  - unfold getNeighbors.
    repeat match goal with |- context [if ?b then _ else _] => destruct b end;
      simpl; repeat (apply NoDup_cons; split; [rewrite ?elem_of_cons, ?elem_of_nil;
        intros Hc; repeat destruct Hc as [Hc|Hc]; try done; inversion Hc; lia|]);
      apply NoDup_nil_2.
  - unfold getNeighbors.
    repeat match goal with |- context [if ?b then _ else _] => destruct b end;
      simpl; lia.
Qed.

End GridFacts.

Module SearchFacts.

Import PathFinding.

Section Completeness.

Variable H : Heap.
Variable pf : PathFinder.
Variables endX endY : Z.
Variable g0 : Grid.
Variable start : Cell.

(** Every node that waits to be visited is in the open list. *)
Definition Tracked (grid : Grid) (openList : heap H) : Prop :=
  forall c, state (nodes grid c) = WillVisit -> c ∈ heap_items H openList.

(** The walkable neighbours of the nodes in [popped] have been reached. *)
Definition Closed (popped : list Cell) (grid : Grid) : Prop :=
  forall n c, n ∈ popped -> adjacent n c -> cellWalkable g0 c ->
    state (nodes grid c) <> NotVisited.

Lemma relax_Tracked node nb grid openList grid' openList' :
  relax H pf endX endY node nb (grid, openList) = Ret (grid', openList') ->
  Tracked grid openList ->
  Tracked grid' openList' /\
  (forall c, state (nodes grid c) <> NotVisited -> state (nodes grid' c) <> NotVisited) /\
  state (nodes grid' nb) <> NotVisited /\
  (forall c, state (nodes grid' c) = Visited -> nodes grid' c = nodes grid c).
Proof.
  unfold relax. intros Hr Ht.
  case_decide as Hv.
  { inversion Hr; subst. repeat split; try done. by rewrite Hv. }
  destruct (tentativeG pf grid node nb) as [nextG|e]; simpl in Hr; [|done].
  destruct (negb (bool_decide (state (nodes grid nb) = WillVisit)) || (nextG <? g (nodes grid nb)))
    eqn:Hcond.
  - destruct (bool_decide (state (nodes grid nb) = WillVisit)) eqn:Hs; simpl in Hr;
      inversion Hr; subst; clear Hr.
    + apply bool_decide_eq_true in Hs. repeat split.
      * intros c. destruct (decide (c = nb)) as [->|Hne].
        -- intros _. rewrite heap_items_updateItem. by apply Ht.
        -- rewrite nodes_setNode_ne by done. intros Hc.
           rewrite heap_items_updateItem. by apply Ht.
      * intros c Hc. destruct (decide (c = nb)) as [->|Hne].
        -- rewrite nodes_setNode_eq. simpl. by rewrite Hs.
        -- by rewrite nodes_setNode_ne.
      * rewrite nodes_setNode_eq. simpl. by rewrite Hs.
      * intros c. destruct (decide (c = nb)) as [->|Hne].
        -- rewrite nodes_setNode_eq. simpl. by rewrite Hs.
        -- by rewrite nodes_setNode_ne.
    + repeat split.
      * intros c. rewrite heap_items_push. destruct (decide (c = nb)) as [->|Hne].
        -- intros _. by left.
        -- rewrite nodes_setNode_ne by done. intros Hc. right. by apply Ht.
      * intros c Hc. destruct (decide (c = nb)) as [->|Hne].
        -- by rewrite nodes_setNode_eq.
        -- by rewrite nodes_setNode_ne.
      * by rewrite nodes_setNode_eq.
      * intros c. destruct (decide (c = nb)) as [->|Hne].
        -- by rewrite nodes_setNode_eq.
        -- by rewrite nodes_setNode_ne.
  - inversion Hr; subst; clear Hr. repeat split; try done.
    apply orb_false_iff in Hcond as [Hs _]. apply negb_false_iff, bool_decide_eq_true in Hs.
    by rewrite Hs.
Qed.

Lemma forOf_relax_Tracked node nbs : forall grid openList grid' openList',
  forOf (relax H pf endX endY node) nbs (grid, openList) = Ret (grid', openList') ->
  Tracked grid openList ->
  Tracked grid' openList' /\
  (forall c, state (nodes grid c) <> NotVisited -> state (nodes grid' c) <> NotVisited) /\
  (forall nb, nb ∈ nbs -> state (nodes grid' nb) <> NotVisited) /\
  (forall c, state (nodes grid' c) = Visited -> nodes grid' c = nodes grid c).
Proof.
  induction nbs as [|nb nbs IH]; intros grid openList grid' openList' Hf Ht.
  - inversion Hf; subst. repeat split; try done. by intros nb ?%elem_of_nil.
  - rewrite forOf_cons in Hf.
    destruct (relax H pf endX endY node nb (grid, openList)) as [[grid1 open1]|e] eqn:Hr;
      simpl in Hf; [|done].
    destruct (relax_Tracked _ _ _ _ _ _ Hr Ht) as (Ht1 & Hmono1 & Hnb & Hsame1).
    destruct (IH _ _ _ _ Hf Ht1) as (Ht2 & Hmono2 & Hnbs & Hsame2).
    repeat split; [done|by auto| |].
    + intros c [->|Hc]%elem_of_cons; auto.
    + intros c Hc. rewrite (Hsame2 c Hc). apply Hsame1. by rewrite <- (Hsame2 c Hc).
Qed.

(** Following the parents of a node gives one list only. *)
Lemma Chain_functional grid c path1 path2 :
  Chain g0 start grid c path1 -> Chain g0 start grid c path2 -> path1 = path2.
Proof.
  intros H1. revert path2.
  induction H1 as [Hs Hp|c q path Hs Hp Hadj Hw Hq IH]; intros path2 H2.
  - inversion H2 as [|c' q' path' Hs' Hp' Hadj' Hw' Hq']; [done|congruence].
  - inversion H2 as [Hs' Hp' Hc|c' q' path' Hs' Hp' Hadj' Hw' Hq']; subst.
    + congruence.
    + assert (q' = q) as -> by congruence. by rewrite (IH _ Hq').
Qed.

(** The chains of the visited nodes stay among the visited nodes and meet
    no node twice. *)
Definition Simple (popped : list Cell) (grid : Grid) : Prop :=
  forall c path, c ∈ popped -> Chain g0 start grid c path ->
    NoDup path /\ forall d, d ∈ path -> d ∈ popped.

Lemma Simple_pop popped grid items node items' :
  Inv g0 start popped grid items ->
  Permutation items (node :: items') ->
  Simple popped grid ->
  Simple (node :: popped) (setNode grid node (withState (nodes grid node) Visited)).
Proof.
  intros HI Hperm Hsimple.
  set (grid1 := setNode grid node (withState (nodes grid node) Visited)).
  assert (Hnode : state (nodes grid node) = WillVisit).
  { apply (inv_items _ _ _ _ _ HI). rewrite Hperm. by left. }
  assert (Hnp : node ∉ popped).
  { intros Hp. apply (inv_visited _ _ _ _ _ HI) in Hp. congruence. }
  assert (Hstable : forall c, state (nodes grid c) = Visited -> nodes grid1 c = nodes grid c).
  { intros c Hc. unfold grid1. rewrite nodes_setNode_ne; [done|]. intros ->. congruence. }
  assert (Hold : forall c path, c ∈ popped -> Chain g0 start grid1 c path ->
            NoDup path /\ forall d, d ∈ path -> d ∈ popped).
  { intros c path Hc Hch.
    destruct (inv_chain _ _ _ _ _ HI c Hc) as (path0 & Hch0 & _).
    pose proof (Chain_stable g0 start grid grid1 c path0 Hstable Hch0) as Hch1.
    rewrite (Chain_functional _ _ _ _ Hch Hch1). by apply (Hsimple c path0). }
  intros c path [->|Hc]%elem_of_cons Hch.
  - destruct (inv_will _ _ _ _ _ HI node Hnode) as [[-> Hpar]|(q & Hq & Hadj & Hw & Hqs)].
    + assert (Hst : Chain g0 start grid1 start [start]).
      { apply Chain_start; unfold grid1; by rewrite nodes_setNode_eq. }
      rewrite (Chain_functional _ _ _ _ Hch Hst). split; [apply NoDup_singleton|].
      intros d ->%list_elem_of_singleton. by left.
    + apply (inv_visited _ _ _ _ _ HI) in Hqs as Hqp.
      destruct (inv_chain _ _ _ _ _ HI q Hqp) as (pq & Hchq & _).
      pose proof (Chain_stable g0 start grid grid1 q pq Hstable Hchq) as Hchq1.
      assert (Hst : Chain g0 start grid1 node (pq ++ [node])).
      { apply Chain_step with q; try done; unfold grid1; by rewrite nodes_setNode_eq. }
      rewrite (Chain_functional _ _ _ _ Hch Hst).
      destruct (Hsimple q pq Hqp Hchq) as [Hnd Hsub]. split.
      * apply NoDup_app. repeat split; [done| |apply NoDup_singleton].
        intros d Hd ->%list_elem_of_singleton. by apply Hnp, Hsub.
      * intros d [Hd| ->%list_elem_of_singleton]%elem_of_app; [right; by apply Hsub|by left].
  - destruct (Hold c path Hc Hch) as [Hnd Hsub]. split; [done|].
    intros d Hd. right. by apply Hsub.
Qed.

Lemma getNeighbors_complete grid node c :
  adjacent node c -> cellWalkable grid c -> c ∈ getNeighbors grid node.
Proof.
  intros Hadj Hw. apply GridFacts.getNeighbors_iff.
  unfold cellWalkable, isWalkableAt in Hw.
  apply andb_prop in Hw as [Hin Hw%bool_decide_eq_true].
  destruct c; by repeat split.
Qed.

(** With an empty open list, the nodes that can be reached are the nodes
    that were visited. *)
Lemma exhausted_reachable popped grid openList c :
  Inv g0 start popped grid (heap_items H openList) ->
  Tracked grid openList -> Closed popped grid ->
  state (nodes grid start) <> NotVisited ->
  heap_items H openList = [] ->
  Reachable g0 start c -> c ∈ popped.
Proof.
  intros HI Ht Hc Hstart Hnil.
  assert (Hvis : forall d, state (nodes grid d) <> NotVisited -> d ∈ popped).
  { intros d Hd. apply (inv_visited _ _ _ _ _ HI).
    destruct (state (nodes grid d)) eqn:Hs; try done.
    apply Ht in Hs. rewrite Hnil in Hs. by apply elem_of_nil in Hs. }
  induction 1 as [|c d _ IH Hadj Hw]; [by apply Hvis|].
  apply Hvis. by eapply Hc.
Qed.

(** The main loop, with what it says of an empty result. *)
Lemma search_complete total endNode fuel : forall popped grid openList,
  Inv g0 start popped grid (heap_items H openList) ->
  Tracked grid openList -> Closed popped grid -> Simple popped grid ->
  state (nodes grid start) <> NotVisited ->
  (forall e, endNode = Some e -> e ∉ popped) ->
  (fuel + length popped = searchBound g0)%nat ->
  (searchBound g0 <= total)%nat ->
  exists path grid',
    search H pf endX endY total fuel endNode grid openList = Ret (path, grid') /\
    sameTerrain g0 grid' /\
    ((path = [] /\ forall e, endNode = Some e -> ~ Reachable g0 start e) \/
     exists e, endNode = Some e /\ Chain g0 start grid' e path /\ NoDup path).
Proof.
  induction fuel as [|fuel IH];
    intros popped grid openList HI Ht Hc Hsimple Hstart Hend Hfuel Htotal.
  - exfalso.
    pose proof (popped_bound g0 popped (inv_popped_nodup _ _ _ _ _ HI)
                  (inv_popped _ _ _ _ _ HI)).
    unfold searchBound in Hfuel. simpl in Hfuel. lia.
  - simpl. destruct (heap_empty H openList) eqn:Hemp.
    { exists [], grid. split; [done|]. split; [apply HI|]. left. split; [done|].
      intros e He Hreach. apply (Hend e He).
      apply heap_items_empty in Hemp. by eapply exhausted_reachable. }
    destruct (heap_pop_some H (fOf grid) openList) as [[node open1] Hpop].
    { intros Hnil. apply heap_items_empty in Hnil. congruence. }
    rewrite Hpop. apply heap_items_pop in Hpop.
    pose proof (Inv_pop _ _ _ _ _ _ _ HI Hpop) as HI1.
    pose proof (Simple_pop _ _ _ _ _ HI Hpop Hsimple) as Hsimple1.
    assert (Hnode : state (nodes grid node) = WillVisit).
    { apply (inv_items _ _ _ _ _ HI). rewrite Hpop. by left. }
    assert (Hnd : NoDup (node :: heap_items H open1)).
    { rewrite <- Hpop. apply (inv_items_nodup _ _ _ _ _ HI). }
    apply NoDup_cons in Hnd as [Hnotin _].
    set (grid1 := setNode grid node (withState (nodes grid node) Visited)) in *.
    assert (Hmono1 : forall c, state (nodes grid c) <> NotVisited ->
                               state (nodes grid1 c) <> NotVisited).
    { intros c Hcs. unfold grid1. destruct (decide (c = node)) as [->|Hne].
      - by rewrite nodes_setNode_eq.
      - by rewrite nodes_setNode_ne. }
    assert (Ht1 : Tracked grid1 open1).
    { intros c Hcs. destruct (decide (c = node)) as [->|Hne].
      - unfold grid1 in Hcs. by rewrite nodes_setNode_eq in Hcs.
      - unfold grid1 in Hcs. rewrite nodes_setNode_ne in Hcs by done.
        apply Ht in Hcs. rewrite Hpop in Hcs. by apply elem_of_cons in Hcs as [?|?]. }
    case_decide as Hgoal.
    + destruct (inv_chain _ _ _ _ _ HI1 node) as (path & Hpath & Hlen); [by left|].
      pose proof (popped_bound g0 _ (inv_popped_nodup _ _ _ _ _ HI1)
                    (inv_popped _ _ _ _ _ HI1)) as Hb.
      assert (Hbt : backtrace total grid1 node [node] = Ret (rev path)).
      { apply (backtrace_Chain g0 start grid1 node path Hpath total []).
        unfold searchBound in Htotal. simpl in Hlen, Hb. lia. }
      rewrite Hbt. simpl. rewrite rev_involutive. exists path, grid1.
      split; [done|]. split; [apply HI1|]. right. exists node.
      repeat split; try done. by apply (Hsimple1 node path); [left|].
    + destruct (forOf_relax_Inv H pf endX endY g0 start (node :: popped) node
                  (getNeighbors grid1 node) grid1 open1 HI1)
        as (grid2 & open2 & Hrun & HI2).
      { by left. }
      { rewrite (sameTerrain_neighbors g0 grid1 node (inv_terrain _ _ _ _ _ HI1)).
        apply Forall_forall. intros nb Hnb. by apply getNeighbors_spec. }
      rewrite Hrun. simpl.
      destruct (forOf_relax_Tracked _ _ _ _ _ _ Hrun Ht1) as (Ht2 & Hmono2 & Hnbs & Hsame).
      apply (IH (node :: popped)); try done.
      * intros n c [->|Hn]%elem_of_cons Hadj Hw.
        -- apply Hnbs.
           rewrite (sameTerrain_neighbors g0 grid1 node (inv_terrain _ _ _ _ _ HI1)).
           by apply getNeighbors_complete.
        -- apply Hmono2, Hmono1. by eapply Hc.
      * intros c path Hcp Hch. apply (Hsimple1 c path Hcp).
        apply (Chain_stable g0 start grid2 grid1 c path); [|done].
        intros d Hd. symmetry. by apply Hsame.
      * by apply Hmono2, Hmono1.
      * intros e He [->|Hin]%elem_of_cons; [congruence|]. by eapply Hend.
      * simpl. lia.
Qed.

End Completeness.

Section Outcome.

Variable H : Heap.
Variable pf : PathFinder.

(** What a search between two nodes returns on a grid whose search state is
    reset. *)
Lemma findPathOn_outcome startX startY endX endY grid endNode :
  isInside grid startX startY = true ->
  getNodeAt grid endX endY = Ret endNode ->
  exists path grid' g0,
    findPathOn H pf startX startY endX endY (reset grid) = Ret (path, grid') /\
    sameTerrain grid g0 /\ sameTerrain grid grid' /\
    ((path = [] /\ forall e, endNode = Some e -> ~ Reachable grid (startX, startY) e) \/
     exists e, endNode = Some e /\ Chain g0 (startX, startY) grid' e path /\ NoDup path).
Proof.
  intros Hstart Hend. unfold findPathOn.
  rewrite (getNodeAt_inside (reset grid) startX startY Hstart).
  change (getNodeAt (reset grid) endX endY) with (getNodeAt grid endX endY).
  rewrite Hend. simpl.
  set (start := (startX, startY)).
  set (grid0 := setNode (reset grid) start _).
  assert (Ht0 : sameTerrain grid grid0).
  { apply sameTerrain_setNode; [apply sameTerrain_reset|done]. }
  set (openList := heap_push H (fOf grid0) (heap_new H) start).
  assert (Hitems : Permutation (heap_items H openList) [start]).
  { unfold openList. by rewrite heap_items_push, heap_items_new. }
  assert (Hstates : forall c, state (nodes grid0 c) =
                              if decide (c = start) then WillVisit else NotVisited).
  { intros c. unfold grid0. destruct (decide (c = start)) as [->|Hne].
    - by rewrite nodes_setNode_eq.
    - by rewrite nodes_setNode_ne. }
  assert (HI : Inv grid0 start [] grid0 (heap_items H openList)).
  { apply Inv_perm with [start]; [done|]. split.
    - apply sameTerrain_refl.
    - apply NoDup_singleton.
    - intros c ->%list_elem_of_singleton. rewrite Hstates, decide_True by done.
      split; [done|]. unfold cellInside. by rewrite (sameTerrain_inside grid grid0).
    - intros c Hc. left. rewrite Hstates in Hc. case_decide as Hcs; [|done].
      subst c. split; [done|]. unfold grid0. by rewrite nodes_setNode_eq.
    - constructor.
    - by intros c ?%elem_of_nil.
    - intros c. rewrite Hstates. split; [by case_decide|by intros ?%elem_of_nil].
    - by intros c ?%elem_of_nil. }
  destruct (search_complete H pf endX endY grid0 start (searchBound grid0) endNode
              (searchBound grid0) [] grid0 openList HI)
    as (path & grid' & Hs & Ht & Hres).
  { intros c Hc. rewrite Hstates in Hc. case_decide as Hcs; [|done].
    subst c. rewrite Hitems. by left. }
  { by intros n c ?%elem_of_nil. }
  { by intros c path' ?%elem_of_nil. }
  { by rewrite Hstates, decide_True. }
  { by intros e _ ?%elem_of_nil. }
  { apply Nat.add_0_r. }
  { done. }
  exists path, grid', grid0. split; [exact Hs|]. split; [done|].
  split; [by eapply sameTerrain_trans|].
  destruct Hres as [[-> Hnone]|Hch]; [left|by right].
  split; [done|]. intros e He Hreach. apply (Hnone e He).
  clear -Hreach Ht0. induction Hreach as [|c d _ IH Hadj Hw]; [apply Reachable_start|].
  apply Reachable_step with c; [done|done|]. by apply (cellWalkable_terrain grid grid0).
Qed.

Lemma Reachable_terrain g0 grid start c :
  sameTerrain g0 grid -> Reachable g0 start c -> Reachable grid start c.
Proof.
  intros Ht. induction 1 as [|c d _ IH Hadj Hw]; [apply Reachable_start|].
  apply Reachable_step with c; [done|done|]. by apply (cellWalkable_terrain g0 grid).
Qed.

(** X4: between two cells of the grid, the path returned is non-empty
    exactly when the goal can be reached from the start by cardinal steps
    onto cells whose weight is not [Infinity]. *)
Theorem findPath_finds_reachable (grid : Grid) (startX startY endX endY : Z) :
  isInside grid startX startY = true ->
  isInside grid endX endY = true ->
  exists path,
    findPath H pf startX startY endX endY (reset grid) = Ret path /\
    (path <> [] <-> Reachable grid (startX, startY) (endX, endY)).
Proof.
  intros Hs He.
  destruct (findPathOn_outcome startX startY endX endY grid _ Hs
              (getNodeAt_inside grid endX endY He))
    as (path & grid' & g0 & Hrun & Ht0 & _ & Hres).
  exists path. unfold findPath. rewrite Hrun. split; [done|].
  destruct Hres as [[-> Hnone]|(e & [= <-] & Hch & _)].
  - split; [done|]. intros Hr. by destruct (Hnone _ eq_refl).
  - split.
    + intros _. apply (Reachable_terrain g0 grid); [by apply sameTerrain_sym|].
      by eapply Chain_Reachable.
    + intros _. by eapply Chain_nonempty.
Qed.

(** X5: on a grid that was reset, the state [drawLinks] searches in, the
    cells of a returned path are cells of the grid, and, the first one apart,
    none has the weight [Infinity]: the path never crosses a cell that was
    closed with [setWeightAt(x, y, Infinity)]. *)
Theorem findPath_avoids_infinity (grid : Grid) (startX startY endX endY : Z)
    (path : list Cell) :
  findPath H pf startX startY endX endY (reset grid) = Ret path ->
  Forall (fun c => isInside grid c.1 c.2 = true) path /\
  Forall (fun c => weight (nodes grid c) <> Infinity) (tail path).
Proof.
  intros Hr. destruct (findPath_Ret _ _ _ _ _ _ _ _ Hr) as [Hs [endNode He]].
  change (isInside (reset grid) startX startY) with (isInside grid startX startY) in Hs.
  change (getNodeAt (reset grid) endX endY) with (getNodeAt grid endX endY) in He.
  destruct (findPathOn_outcome startX startY endX endY grid _ Hs He)
    as (path' & grid' & g0 & Hrun & Ht0 & _ & Hres).
  unfold findPath in Hr. rewrite Hrun in Hr. simpl in Hr. inversion Hr; subst path'.
  destruct Hres as [[-> _]|(e & -> & Hch & _)]; [by split; constructor|].
  pose proof (Chain_walkable _ _ _ _ _ Hch) as Hw.
  pose proof (Chain_head _ _ _ _ _ Hch) as Hh.
  assert (Hw' : Forall (cellWalkable grid) (tail path)).
  { eapply Forall_impl; [exact Hw|]. intros c Hc.
    by apply (cellWalkable_terrain g0 grid); [apply sameTerrain_sym|]. }
  destruct path as [|c0 rest]; [by split; constructor|].
  simpl in *. inversion Hh; subst c0. split.
  - constructor; [done|]. eapply Forall_impl; [exact Hw'|].
    intros c Hc. by apply cellWalkable_inside in Hc.
  - eapply Forall_impl; [exact Hw'|]. intros c Hc.
    unfold cellWalkable, isWalkableAt in Hc.
    apply andb_prop in Hc as [_ Hc%bool_decide_eq_true]. by destruct c.
Qed.

(** X8: a returned path meets no cell twice. *)
Theorem findPath_simple_path (grid : Grid) (startX startY endX endY : Z)
    (path : list Cell) :
  findPath H pf startX startY endX endY (reset grid) = Ret path ->
  NoDup path.
Proof.
  intros Hr. destruct (findPath_Ret _ _ _ _ _ _ _ _ Hr) as [Hs [endNode He]].
  change (isInside (reset grid) startX startY) with (isInside grid startX startY) in Hs.
  change (getNodeAt (reset grid) endX endY) with (getNodeAt grid endX endY) in He.
  destruct (findPathOn_outcome startX startY endX endY grid _ Hs He)
    as (path' & grid' & g0 & Hrun & _ & _ & Hres).
  unfold findPath in Hr. rewrite Hrun in Hr. simpl in Hr. inversion Hr; subst path'.
  by destruct Hres as [[-> _]|(e & _ & _ & Hnd)]; [constructor|].
Qed.

(** X6: a search writes no weight and no dimension, and [reset] after it
    gives, node for node, the grid that [reset] gave before it. *)
Theorem findPath_leaves_no_trace (grid : Grid) (startX startY endX endY : Z)
    (path : list Cell) (grid' : Grid) :
  findPathOn H pf startX startY endX endY (reset grid) = Ret (path, grid') ->
  width grid' = width grid /\ height grid' = height grid /\
  (forall c, weight (nodes grid' c) = weight (nodes grid c)) /\
  (forall c, nodes (reset grid') c = nodes (reset grid) c).
Proof.
  intros Hr.
  assert (Hf : findPath H pf startX startY endX endY (reset grid) = Ret path).
  { unfold findPath. by rewrite Hr. }
  destruct (findPath_Ret _ _ _ _ _ _ _ _ Hf) as [Hs [endNode He]].
  change (isInside (reset grid) startX startY) with (isInside grid startX startY) in Hs.
  change (getNodeAt (reset grid) endX endY) with (getNodeAt grid endX endY) in He.
  destruct (findPathOn_outcome startX startY endX endY grid _ Hs He)
    as (path' & grid'' & g0 & Hrun & _ & (Hw & Hh & Hn) & _).
  rewrite Hrun in Hr. inversion Hr; subst. repeat split; try done.
  intros c. simpl. unfold resetNode. by rewrite Hn.
Qed.

(** X7: what the coordinates decide on a grid that was reset: a start
    outside the grid and a goal outside the columns throw a [TypeError]; a
    goal in a column but outside its rows is [undefined], so that the search
    runs to the end and returns the empty path; a goal that is the start
    returns the path of that one cell, whatever its weight. *)
Theorem findPath_edge_coordinates (grid : Grid) (startX startY endX endY : Z) :
  (isInside grid startX startY = false ->
   findPath H pf startX startY endX endY (reset grid) = Throw TypeError) /\
  ((0 <=? endX) && (endX <? width grid) = false ->
   findPath H pf startX startY endX endY (reset grid) = Throw TypeError) /\
  (isInside grid startX startY = true ->
   (0 <=? endX) && (endX <? width grid) = true ->
   (0 <=? endY) && (endY <? height grid) = false ->
   findPath H pf startX startY endX endY (reset grid) = Ret []) /\
  (isInside grid startX startY = true ->
   findPath H pf startX startY startX startY (reset grid) = Ret [(startX, startY)]).
Proof.
  repeat split.
  - intros Hs. unfold findPath, findPathOn, getNodeAt, isInside in *. simpl.
    destruct ((0 <=? startX) && (startX <? width grid)) eqn:Hx; [|done].
    destruct ((0 <=? startY) && (startY <? height grid)) eqn:Hy; [lia|].
    simpl. by destruct ((0 <=? endX) && (endX <? width grid)).
  - intros He. unfold findPath, findPathOn, getNodeAt. simpl. rewrite He.
    by destruct ((0 <=? startX) && (startX <? width grid)).
  - intros Hs Hx Hy.
    destruct (findPathOn_outcome startX startY endX endY grid None Hs)
      as (path & grid' & g0 & Hrun & _ & _ & Hres).
    { unfold getNodeAt. by rewrite Hx, Hy. }
    unfold findPath. rewrite Hrun. simpl.
    by destruct Hres as [[-> _]|(e & ? & _)].
  - intros Hs.
    destruct (findPathOn_outcome startX startY startX startY grid _ Hs
                (getNodeAt_inside grid startX startY Hs))
      as (path & grid' & g0 & Hrun & _ & _ & _).
    unfold findPath. rewrite Hrun. simpl.
    by apply Simulator.findPathOn_same_cell in Hrun as ->.
Qed.

End Outcome.

(** Why the grid is reset before a search: [findPath] clears no parent, and
    the path is read off the parents.  After a search from (0,0) to (2,0),
    with (1,0) closed since, a search from (2,0) to (2,0) on the same grid
    returns the three cells of the first path, the closed one among them. *)
Example findPath_reads_earlier_parents :
  (searched ← findPathOn ListHeap defaultFinder 0 0 2 0 (reset rowOfThree);
   closed ← setWeightAt searched.2 1 0 Infinity;
   findPath ListHeap defaultFinder 2 0 2 0 closed)
  = Ret [(0, 0); (1, 0); (2, 0)].
Proof. vm_compute. reflexivity. Qed.

Lemma findPath_finds_reachable_witness :
  exists path,
    findPath ListHeap defaultFinder 0 0 2 2 (reset walled) = Ret path /\
    (path <> [] <-> Reachable walled (0, 0) (2, 2)).
Proof.
  apply (findPath_finds_reachable ListHeap defaultFinder walled 0 0 2 2); reflexivity.
Defined.

Lemma findPath_avoids_infinity_witness :
  Forall (fun c => isInside rowOfThree c.1 c.2 = true) [(0, 0); (1, 0); (2, 0)] /\
  Forall (fun c => weight (nodes rowOfThree c) <> Infinity) (tail [(0, 0); (1, 0); (2, 0)]).
Proof.
  apply (findPath_avoids_infinity ListHeap defaultFinder rowOfThree 0 0 2 0).
  vm_compute. reflexivity.
Defined.

Lemma findPath_simple_path_witness : NoDup [(0, 0); (1, 0); (2, 0)].
Proof.
  apply (findPath_simple_path ListHeap defaultFinder rowOfThree 0 0 2 0).
  vm_compute. reflexivity.
Defined.

Lemma findPath_leaves_no_trace_witness :
  exists path grid',
    findPathOn ListHeap defaultFinder 0 0 2 0 (reset rowOfThree) = Ret (path, grid') /\
    width grid' = width rowOfThree /\ height grid' = height rowOfThree /\
    (forall c, weight (nodes grid' c) = weight (nodes rowOfThree c)) /\
    (forall c, nodes (reset grid') c = nodes (reset rowOfThree) c).
Proof.
  destruct (findPathOn ListHeap defaultFinder 0 0 2 0 (reset rowOfThree))
    as [[path grid']|e] eqn:Hrun; [|vm_compute in Hrun; discriminate].
  exists path, grid'. split; [reflexivity|].
  exact (findPath_leaves_no_trace ListHeap defaultFinder rowOfThree 0 0 2 0 path grid' Hrun).
Defined.

Lemma findPath_edge_coordinates_witness :
  findPath ListHeap defaultFinder 0 2 1 1 (reset (newGrid 2 2 1)) = Throw TypeError /\
  findPath ListHeap defaultFinder 0 0 2 1 (reset (newGrid 2 2 1)) = Throw TypeError /\
  findPath ListHeap defaultFinder 0 0 1 2 (reset (newGrid 2 2 1)) = Ret [] /\
  findPath ListHeap defaultFinder 1 1 1 1 (reset (newGrid 2 2 1)) = Ret [(1, 1)].
Proof.
  split; [|split; [|split]].
  - apply (proj1 (findPath_edge_coordinates ListHeap defaultFinder (newGrid 2 2 1) 0 2 1 1)).
    reflexivity.
  - apply (proj1 (proj2 (findPath_edge_coordinates ListHeap defaultFinder (newGrid 2 2 1) 0 0 2 1))).
    reflexivity.
  - apply (proj1 (proj2 (proj2
      (findPath_edge_coordinates ListHeap defaultFinder (newGrid 2 2 1) 0 0 1 2))));
      reflexivity.
  - apply (proj2 (proj2 (proj2
      (findPath_edge_coordinates ListHeap defaultFinder (newGrid 2 2 1) 1 1 1 1)))).
    reflexivity.
Defined.

End SearchFacts.

Module Hydration.

Import Loader.

(** ** The first passes of [load]: [enhanceSubsystems], [computePositions] *)

(** A subsystem as the specification has it: [position] and [systems] may be
    missing.  The system is a tree of values, what [JSON.parse] gives: every
    subsystem object is listed once. *)
#[local] Unset Elimination Schemes.
Inductive Subsystem : Type := mkSpec {
  spec_id : string;
  spec_position : option XY;
  spec_systems : option (list Subsystem);
}.

(** A subsystem after [enhanceSubsystems].  The [parent] reference the pass
    also sets makes the object graph cyclic and is left out; what is read
    through it, the canonical id of the parent, is an argument. *)
Inductive Enhanced : Type := mkEnhanced {
  id : string;
  index : Z;
  canonicalId : string;
  position : option XY;
  systems : list Enhanced;
}.
#[local] Set Elimination Schemes.

(** [[system.canonicalId, subsystem.id].filter(x => x).join(".")] *)
Definition canonicalIdOf (parentCanonicalId : option string) (id : string) : string :=
  String.concat "."
    (List.filter (fun part => negb (String.eqb part ""))
       (match parentCanonicalId with
        | Some p => [p; id]
        | None => [id]
        end)).

(** [systems.forEach((subsystem, index) => ...)] *)
Fixpoint forEachIndexed {A B : Type} (body : Z -> A -> B) (index : Z) (l : list A) : list B :=
  match l with
  | [] => []
  | x :: rest => body index x :: forEachIndexed body (index + 1) rest
  end.

Fixpoint enhanceSubsystem (parentCanonicalId : option string) (index : Z)
    (subsystem : Subsystem) : Enhanced :=
  let canonicalId := canonicalIdOf parentCanonicalId (spec_id subsystem) in
  {| id := spec_id subsystem;
     index := index;
     canonicalId := canonicalId;
     position := spec_position subsystem;
     systems :=
       match subsystem with
       | mkSpec _ _ (Some children) =>
           forEachIndexed (enhanceSubsystem (Some canonicalId)) 0 children
       | mkSpec _ _ None => []
       end |}.

(** [enhanceSubsystems(system)] on the root, whose canonical id is
    [undefined]. *)
Definition enhanceSubsystems (systems : option (list Subsystem)) : list Enhanced :=
  forEachIndexed (enhanceSubsystem None) 0 (default [] systems).

(** [for (const subsystem of system.systems)] of [computePositions], with
    the running [farRight], on a system written as a tree of values: there
    no subsystem object is met twice, and each position is set once.  The
    loop on the objects themselves, where a subsystem may be listed twice,
    is [Placement.computePositions]. *)
Fixpoint placeAll (place : Z -> Enhanced -> RuntimeSubsystem) (farRight : Z)
    (systems : list Enhanced) : list RuntimeSubsystem :=
  match systems with
  | [] => []
  | subsystem :: rest =>
      place farRight subsystem ::
      placeAll place
        (match position subsystem with
         | Some p => Z.max farRight (x p)
         | None => farRight + 10
         end)
        rest
  end.

Fixpoint placeSubsystem (farRight : Z) (subsystem : Enhanced) : RuntimeSubsystem :=
  {| Loader.id := id subsystem;
     Loader.canonicalId := canonicalId subsystem;
     Loader.position :=
       match position subsystem with
       | Some p => p
       | None => {| x := farRight + 10; y := 0 |}
       end;
     Loader.size := None;
     Loader.ports := [];
     Loader.systems := placeAll placeSubsystem 0 (systems subsystem) |}.

(** [computePositions(system)] on the children of the root. *)
Definition computePositions (systems : list Enhanced) : list RuntimeSubsystem :=
  placeAll placeSubsystem 0 systems.

(** The tree [load] works on once the positions are set. *)
Definition hydrate (systems : option (list Subsystem)) : list RuntimeSubsystem :=
  computePositions (enhanceSubsystems systems).

(** ** Canonical ids *)

Fixpoint Subsystem_ind (P : Subsystem -> Prop)
    (step : forall i p children,
       match children with
       | Some l => Forall P l
       | None => True
       end -> P (mkSpec i p children))
    (subsystem : Subsystem) : P subsystem :=
  match subsystem with
  | mkSpec i p children =>
      step i p children
        (match children
           return match children with Some l => Forall P l | None => True end
         with
         | Some l =>
             (fix all (l : list Subsystem) : Forall P l :=
                match l with
                | [] => List.Forall_nil P
                | s :: l' => @List.Forall_cons _ P s l' (Subsystem_ind P step s) (all l')
                end) l
         | None => I
         end)
  end.

Fixpoint hasChar (c : ascii) (s : string) : bool :=
  match s with
  | EmptyString => false
  | String d rest => Ascii.eqb d c || hasChar c rest
  end.

Lemma split_nonempty separator s : split separator s <> [].
Proof.
  destruct s as [|c rest]; simpl; [done|].
  destruct (Ascii.eqb c separator); [done|]. by destruct (split separator rest).
Qed.

Lemma split_plain separator s : hasChar separator s = false -> split separator s = [s].
Proof.
  induction s as [|c rest IH]; simpl; [done|].
  intros [Hc Hrest]%orb_false_iff. rewrite Hc, (IH Hrest). done.
Qed.

Lemma split_join separator s t :
  split separator (s +:+ String separator t) = split separator s ++ split separator t.
Proof.
  induction s as [|c rest IH]; simpl.
  - by rewrite Ascii.eqb_refl.
  - rewrite IH. destruct (Ascii.eqb c separator); [done|].
    pose proof (split_nonempty separator rest).
    by destruct (split separator rest).
Qed.

(** The ids of a subsystem and of everything below it are not empty, hold
    no dot, and differ between siblings. *)
Fixpoint wellNamed (subsystem : RuntimeSubsystem) : bool :=
  negb (String.eqb (Loader.id subsystem) "") &&
  negb (hasChar "." (Loader.id subsystem)) &&
  bool_decide (NoDup (map Loader.id (Loader.systems subsystem))) &&
  forallb wellNamed (Loader.systems subsystem).

(** The canonical id of a subsystem is made of the canonical id of its
    parent and of its id, all the way down. *)
Fixpoint canonical (parentCanonicalId : option string) (subsystem : RuntimeSubsystem) : bool :=
  String.eqb (Loader.canonicalId subsystem)
    (canonicalIdOf parentCanonicalId (Loader.id subsystem)) &&
  forallb (canonical (Some (Loader.canonicalId subsystem))) (Loader.systems subsystem).

Lemma hydrated_canonical spec : forall parentCanonicalId farRight index,
  canonical parentCanonicalId
    (placeSubsystem farRight (enhanceSubsystem parentCanonicalId index spec)) = true.
Proof.
  induction spec as [i p children IH] using Subsystem_ind.
  intros parent farRight index. simpl. rewrite String.eqb_refl. simpl.
  destruct children as [children|]; [|done].
  generalize 0 at 1. generalize 0.
  induction IH as [|s rest Hs _ IHrest]; intros index' farRight'; simpl; [done|].
  rewrite Hs. simpl. apply IHrest.
Qed.

Lemma hydrate_canonical systems :
  forallb (canonical None) (hydrate systems) = true.
Proof.
  unfold hydrate, computePositions, enhanceSubsystems.
  generalize 0 at 1. generalize 0.
  induction (default [] systems) as [|s rest IH]; intros index farRight; simpl; [done|].
  rewrite hydrated_canonical. simpl. apply IH.
Qed.

(** One turn of the loop of [resolve]. *)
Definition stepInto (root : list RuntimeSubsystem) (current : option SystemRef)
    (subsystemId : string) : option SystemRef :=
  match current with
  | Some ref => Loader.Subsystem <$> findById (systemsOf root ref) subsystemId
  | None => None
  end.

Lemma resolve_fold root path :
  resolve root path =
    match fold_left (stepInto root) (split "." path) (Some Root) with
    | Some (Loader.Subsystem subsystem) => Some subsystem
    | _ => None
    end.
Proof. reflexivity. Qed.

Lemma findById_NoDup siblings subsystem :
  NoDup (map Loader.id siblings) -> subsystem ∈ siblings ->
  findById siblings (Loader.id subsystem) = Some subsystem.
Proof.
  unfold findById. induction siblings as [|s rest IH]; intros Hnd Hin;
    [by apply elem_of_nil in Hin|].
  simpl in *. apply NoDup_cons in Hnd as [Hs Hnd].
  apply elem_of_cons in Hin as [->|Hin].
  - by rewrite String.eqb_refl.
  - destruct (String.eqb (Loader.id s) (Loader.id subsystem)) eqn:E; [|by apply IH].
    apply String.eqb_eq in E. destruct Hs. rewrite E.
    apply list_elem_of_fmap. by exists subsystem.
Qed.

Lemma canonicalIdOf_split parent i prefix :
  i <> "" -> hasChar "." i = false ->
  match parent with
  | None => prefix = []
  | Some cp => cp <> "" /\ split "." cp = prefix
  end ->
  canonicalIdOf parent i <> "" /\ split "." (canonicalIdOf parent i) = prefix ++ [i].
Proof.
  intros Hi Hdot Hp. unfold canonicalIdOf.
  assert (String.eqb i "" = false) as Hie by by apply String.eqb_neq.
  destruct parent as [cp|].
  - destruct Hp as [Hcp <-].
    assert (String.eqb cp "" = false) as Hcpe by by apply String.eqb_neq.
    simpl. rewrite Hcpe, Hie. simpl. split.
    + by destruct cp.
    + change (cp +:+ "." +:+ i) with (cp +:+ String "." i).
      by rewrite split_join, (split_plain _ i Hdot).
  - subst prefix. simpl. rewrite Hie. simpl. split; [done|]. by apply split_plain.
Qed.

Lemma resolve_within root subsystem0 : forall parent prefix,
  wellNamed subsystem0 = true ->
  canonical parent subsystem0 = true ->
  match parent with
  | None => prefix = []
  | Some cp => cp <> "" /\ split "." cp = prefix
  end ->
  forall subsystem, subsystem ∈ descendants subsystem0 ->
  exists path,
    split "." (Loader.canonicalId subsystem) = prefix ++ Loader.id subsystem0 :: path /\
    fold_left (stepInto root) path (Some (Loader.Subsystem subsystem0))
      = Some (Loader.Subsystem subsystem).
Proof.
  induction subsystem0 as [i c pos sz po sys IH] using RuntimeSubsystem_ind.
  intros parent prefix Hwn Hcan Hprefix subsystem Hin.
  simpl in Hwn, Hcan.
  apply andb_prop in Hwn as [Hwn Hwsys]. apply andb_prop in Hwn as [Hwn Hnd].
  apply andb_prop in Hwn as [Hi Hdot].
  apply negb_true_iff, String.eqb_neq in Hi. apply negb_true_iff in Hdot.
  apply bool_decide_eq_true in Hnd.
  apply andb_prop in Hcan as [Hc Hcsys]. apply String.eqb_eq in Hc.
  destruct (canonicalIdOf_split parent i prefix Hi Hdot Hprefix) as [Hne Hsplit].
  rewrite <- Hc in Hne, Hsplit.
  simpl in Hin. apply elem_of_cons in Hin as [->|Hin].
  - exists []. by split.
  - apply list_elem_of_In, in_flat_map in Hin as (child & Hchild & Hin).
    apply list_elem_of_In in Hchild, Hin.
    rewrite Forall_forall in IH. rewrite forallb_forall in Hwsys, Hcsys.
    destruct (IH child Hchild (Some c) (prefix ++ [i])) with (subsystem := subsystem)
      as (path & Hpath & Hfold).
    + apply Hwsys. by apply list_elem_of_In.
    + apply Hcsys. by apply list_elem_of_In.
    + by split.
    + done.
    + exists (Loader.id child :: path). split.
      * by rewrite Hpath, <- app_assoc.
      * simpl. by rewrite (findById_NoDup sys child Hnd Hchild).
Qed.

(** X10: in the tree [load] builds, when ids are not empty, hold no dot
    and differ between siblings, the canonical id of every subsystem resolves
    to that subsystem, and no two subsystems have the same canonical id. *)
Theorem canonicalId_resolves (systems : option (list Subsystem))
    (subsystem : RuntimeSubsystem) :
  NoDup (map Loader.id (hydrate systems)) ->
  forallb wellNamed (hydrate systems) = true ->
  subsystem ∈ flat_map descendants (hydrate systems) ->
  resolve (hydrate systems) (Loader.canonicalId subsystem) = Some subsystem /\
  forall other,
    other ∈ flat_map descendants (hydrate systems) ->
    Loader.canonicalId other = Loader.canonicalId subsystem ->
    other = subsystem.
Proof.
  intros Hnd Hwn Hin.
  assert (Hres : forall s, s ∈ flat_map descendants (hydrate systems) ->
            resolve (hydrate systems) (Loader.canonicalId s) = Some s).
  { clear subsystem Hin. intros subsystem Hin.
    apply list_elem_of_In, in_flat_map in Hin as (top & Htop & Hin).
    apply list_elem_of_In in Htop, Hin.
    pose proof (hydrate_canonical systems) as Hcan.
    rewrite forallb_forall in Hwn, Hcan.
    destruct (resolve_within (hydrate systems) top None [])
      with (subsystem := subsystem) as (path & Hpath & Hfold).
    - apply Hwn. by apply list_elem_of_In.
    - apply Hcan. by apply list_elem_of_In.
    - done.
    - done.
    - rewrite resolve_fold, Hpath. simpl.
      rewrite (findById_NoDup _ top Hnd Htop). simpl. by rewrite Hfold. }
  split; [by apply Hres|].
  intros other Hother Heq. apply Hres in Hother. rewrite Heq, (Hres _ Hin) in Hother.
  by inversion Hother.
Qed.

(** A box [foo] that holds [bar] and [baz]. *)
Definition nested : option (list Subsystem) :=
  Some [ mkSpec "foo" None
           (Some [ mkSpec "bar" (Some (mkXY 3 4)) None; mkSpec "baz" None None ]) ].

Lemma canonicalId_resolves_witness :
  let baz := mkSubsystem "baz" "foo.baz" (mkXY 13 0) None [] [] in
  resolve (hydrate nested) (Loader.canonicalId baz) = Some baz /\
  forall other,
    other ∈ flat_map descendants (hydrate nested) ->
    Loader.canonicalId other = Loader.canonicalId baz ->
    other = baz.
Proof.
  apply (canonicalId_resolves nested (mkSubsystem "baz" "foo.baz" (mkXY 13 0) None [] [])).
  - vm_compute. apply NoDup_singleton.
  - reflexivity.
  - vm_compute. do 2 right. left.
Defined.


End Hydration.

(** * [computePositions] on the objects *)

Module Placement.

(** [load] works on [structuredClone(system)], which keeps the sharing of
    its argument: a subsystem object that is listed twice, under one parent
    or under two, is one object in the clone too, and
    [subsystem.position = ...] writes that object in place.  The subsystems
    are therefore objects of a store, and [systems] holds references. *)

(** A reference to a subsystem object. *)
Abbreviation BoxRef := nat.

(** A subsystem object, as [computePositions] reads and writes it;
    [systems] is an array since [enhanceSubsystems]. *)
Record Box : Type := mkBox {
  position : option Loader.XY;
  systems : list BoxRef;
}.

(** The subsystem objects: every reference points to one. *)
Definition Boxes : Type := BoxRef -> Box.

(** [subsystem.position = { x, y }], written in place. *)
Definition setPosition (objects : Boxes) (ref : BoxRef) (p : Loader.XY) : Boxes :=
  fun r =>
    if decide (r = ref)
    then {| position := Some p; systems := systems (objects ref) |}
    else objects r.

(** The turn of the loop for one subsystem, up to the recursive call, on
    the running [farRight] and the objects. *)
Definition place (ref : BoxRef) (st : Z * Boxes) : Z * Boxes :=
  match position (st.2 ref) with
  | Some p => (Z.max st.1 (Loader.x p), st.2)
  | None =>
      (st.1 + 10, setPosition st.2 ref {| Loader.x := st.1 + 10; Loader.y := 0 |})
  end.

(** The turn of the loop, with [computePositions(subsystem)] at its end. *)
Definition visit (recurse : list BoxRef -> Boxes -> Exec Boxes)
    (ref : BoxRef) (st : Z * Boxes) : Exec (Z * Boxes) :=
  let placed := place ref st in
  objects ← recurse (systems (placed.2 ref)) placed.2;
  Ret (placed.1, objects).

(** [computePositions(system)] on [system.systems]; [depth] bounds the
    nesting of the calls, which the call stack bounds in JavaScript. *)
Fixpoint computePositions (depth : nat) (subsystems : list BoxRef) (objects : Boxes)
  : Exec Boxes :=
  match depth with
  | O => Throw OutOfFuel
  | S depth' =>
      st ← forOf (visit (computePositions depth')) subsystems (0, objects);
      Ret st.2
  end.

(** The subsystems met from [subsystems] downwards, in the order of the
    calls, when their nesting stays within [depth]. *)
Fixpoint below (depth : nat) (objects : Boxes) (subsystems : list BoxRef)
  : option (list BoxRef) :=
  match depth with
  | O => None
  | S depth' =>
      (fix each (subsystems : list BoxRef) : option (list BoxRef) :=
         match subsystems with
         | [] => Some []
         | ref :: rest =>
             match below depth' objects (systems (objects ref)), each rest with
             | Some under, Some others => Some (ref :: under ++ others)
             | _, _ => None
             end
         end) subsystems
  end.

(** A subsystem without a position is put at y = 0, at least 10 right of
    [farRight] and of every sibling before it. *)
Definition Placed (farRight : Z) (before after : Boxes) (siblings : list BoxRef) : Prop :=
  forall (j : nat) ref,
    siblings !! j = Some ref ->
    position (before ref) = None ->
    exists q,
      position (after ref) = Some q /\
      Loader.y q = 0 /\
      farRight + 10 <= Loader.x q /\
      forall (i : nat) earlier,
        (i < j)%nat ->
        siblings !! i = Some earlier ->
        exists p, position (after earlier) = Some p /\ Loader.x p + 10 <= Loader.x q.

(** No [systems] is written, and no position that is set. *)
Definition Kept (before after : Boxes) : Prop :=
  (forall r, systems (after r) = systems (before r)) /\
  (forall r p, position (before r) = Some p -> position (after r) = Some p).

Definition Post (farRight : Z) (subsystems all : list BoxRef) (before after : Boxes) : Prop :=
  Kept before after /\
  (forall r, r ∉ all -> after r = before r) /\
  Placed farRight before after subsystems /\
  (forall parent, parent ∈ all -> Placed 0 before after (systems (before parent))).

(** A subsystem listed under two parents: [0] is the child of [1] and, after
    [3], of [2].  It is placed as the child of [1], at x = 10, and keeps
    that position under [2], left of its sibling [3]. *)
Definition shared : Boxes :=
  fun r =>
    match r with
    | 1%nat => mkBox None [0%nat]
    | 2%nat => mkBox None [3%nat; 0%nat]
    | 3%nat => mkBox (Some (Loader.mkXY 20 0)) []
    | _ => mkBox None []
    end.

Example computePositions_shared :
  (objects ← computePositions 3 [1%nat; 2%nat] shared;
   Ret (position (objects 0%nat), position (objects 3%nat)))
  = Ret (Some (Loader.mkXY 10 0), Some (Loader.mkXY 20 0)).
Proof. reflexivity. Qed.

Lemma visit_eq recurse ref st :
  visit recurse ref st =
    recurse (systems ((place ref st).2 ref)) (place ref st).2
    ≫= fun objects => Ret ((place ref st).1, objects).
Proof. reflexivity. Qed.

Lemma below_cons depth objects ref rest :
  below (S depth) objects (ref :: rest) =
    match below depth objects (systems (objects ref)), below (S depth) objects rest with
    | Some under, Some others => Some (ref :: under ++ others)
    | _, _ => None
    end.
Proof. reflexivity. Qed.

Lemma below_ext objects objects' :
  (forall r, systems (objects' r) = systems (objects r)) ->
  forall depth subsystems, below depth objects' subsystems = below depth objects subsystems.
Proof.
  intros Hext. induction depth as [|depth IH]; intros subsystems; [done|].
  induction subsystems as [|ref rest IHrest]; [done|].
  by rewrite !below_cons, Hext, IH, IHrest.
Qed.

(** The list holds the subsystems it starts from and the children of each
    of its members. *)
Lemma below_closed objects : forall depth subsystems all,
  below depth objects subsystems = Some all ->
  (forall r, r ∈ subsystems -> r ∈ all) /\
  (forall parent r, parent ∈ all -> r ∈ systems (objects parent) -> r ∈ all).
Proof.
  induction depth as [|depth IH]; intros subsystems all Hall; [done|].
  revert all Hall. induction subsystems as [|ref rest IHrest]; intros all Hall.
  - inversion Hall; subst all. split.
    + intros r Hr. by apply elem_of_nil in Hr.
    + intros parent r Hparent. by apply elem_of_nil in Hparent.
  - rewrite below_cons in Hall.
    destruct (below depth objects (systems (objects ref))) as [under|] eqn:Hunder; [|done].
    destruct (below (S depth) objects rest) as [others|] eqn:Hothers; [|done].
    inversion Hall; subst all; clear Hall.
    destruct (IH _ _ Hunder) as [Hchildren Hunder'].
    destruct (IHrest _ eq_refl) as [Hrest Hothers'].
    split.
    + intros r [->|Hr]%elem_of_cons; [by left|].
      right. apply elem_of_app. right. by apply Hrest.
    + intros parent r Hparent Hr. right. apply elem_of_app.
      apply elem_of_cons in Hparent as [->|Hparent]; [left; by apply Hchildren|].
      apply elem_of_app in Hparent as [Hparent|Hparent].
      * left. by apply (Hunder' parent).
      * right. by apply (Hothers' parent).
Qed.

Lemma place_spec ref farRight objects :
  let placed := place ref (farRight, objects) in
  Kept objects placed.2 /\
  (forall r, r <> ref -> placed.2 r = objects r) /\
  farRight <= placed.1 /\
  (position (objects ref) = None ->
   position (placed.2 ref) = Some {| Loader.x := farRight + 10; Loader.y := 0 |} /\
   placed.1 = farRight + 10) /\
  (forall p, position (objects ref) = Some p -> Loader.x p <= placed.1).
Proof.
  unfold place. simpl. destruct (position (objects ref)) as [p|] eqn:Hp; simpl.
  - split; [by split|]. split; [done|]. split; [lia|]. split; [done|].
    intros p' [= <-]. lia.
  - unfold setPosition. split; [split|].
    + intros r. by destruct (decide (r = ref)) as [->|].
    + intros r p Hr. destruct (decide (r = ref)) as [->|]; [congruence|done].
    + split; [intros r Hr; by rewrite decide_False|]. split; [lia|].
      split; [|done]. intros _. by rewrite decide_True.
Qed.

Lemma Kept_trans objects1 objects2 objects3 :
  Kept objects1 objects2 -> Kept objects2 objects3 -> Kept objects1 objects3.
Proof.
  intros [Hs1 Hp1] [Hs2 Hp2]. split.
  - intros r. by rewrite Hs2, Hs1.
  - intros r p Hr. by apply Hp2, Hp1.
Qed.

Lemma Placed_transfer farRight farRight' before before' after after' siblings :
  Placed farRight' before' after' siblings ->
  farRight <= farRight' ->
  (forall r, r ∈ siblings -> position (before r) = None -> position (before' r) = None) ->
  (forall r p, position (after' r) = Some p -> position (after r) = Some p) ->
  Placed farRight before after siblings.
Proof.
  intros Hplaced Hfar Hbefore Hafter j ref Hj Hnone.
  destruct (Hplaced j ref Hj) as (q & Hq & Hy & Hx & Hearlier).
  { apply Hbefore; [by eapply list_elem_of_lookup_2|done]. }
  exists q. split; [by apply Hafter|]. split; [done|]. split; [lia|].
  intros i earlier Hi Hlookup. destruct (Hearlier i earlier Hi Hlookup) as (p & Hp & Hpq).
  exists p. split; [by apply Hafter|done].
Qed.

Lemma computePositions_Post : forall depth subsystems all objects,
  below depth objects subsystems = Some all ->
  NoDup all ->
  exists objects',
    computePositions depth subsystems objects = Ret objects' /\
    Post 0 subsystems all objects objects'.
Proof.
  induction depth as [|depth IHdepth]; intros subsystems all objects Hall Hnd; [done|].
  assert (Hloop : forall subsystems all objects farRight,
            below (S depth) objects subsystems = Some all ->
            NoDup all ->
            exists st',
              forOf (visit (computePositions depth)) subsystems (farRight, objects) = Ret st' /\
              Post farRight subsystems all objects st'.2).
  { clear subsystems all objects Hall Hnd.
    induction subsystems as [|ref rest IHrest]; intros all objects farRight Hall Hnd.
    - inversion Hall; subst all. eexists. split; [reflexivity|]. simpl.
      split; [by split|]. split; [done|]. split.
      + intros j ref Hj. by rewrite lookup_nil in Hj.
      + intros parent Hparent. by apply elem_of_nil in Hparent.
    - rewrite below_cons in Hall.
      destruct (below depth objects (systems (objects ref))) as [under|] eqn:Hunder; [|done].
      destruct (below (S depth) objects rest) as [others|] eqn:Hothers; [|done].
      inversion Hall; subst all; clear Hall.
      apply NoDup_cons in Hnd as [Href Hnd].
      apply NoDup_app in Hnd as (Hndunder & Hdisjoint & Hndothers).
      apply not_elem_of_app in Href as [Hrefunder Hrefothers].
      rewrite forOf_cons, (visit_eq _ ref (farRight, objects)).
      destruct (place_spec ref farRight objects) as (Hkept1 & Hframe1 & Hfar1 & Hnew & Hold).
      set (placed := place ref (farRight, objects)) in *.
      destruct Hkept1 as [Hsystems1 Hpositions1].
      destruct (IHdepth (systems (placed.2 ref)) under placed.2)
        as (objects2 & Hrun2 & Hkept2 & Hframe2 & Hplaced2 & Hparents2).
      { rewrite Hsystems1. by rewrite (below_ext objects placed.2 Hsystems1). }
      { done. }
      rewrite Hrun2. simpl.
      destruct Hkept2 as [Hsystems2 Hpositions2].
      destruct (IHrest others objects2 placed.1)
        as (st' & Hrun3 & Hkept3 & Hframe3 & Hplaced3 & Hparents3).
      { rewrite <- Hothers. apply below_ext. intros r. by rewrite Hsystems2, Hsystems1. }
      { done. }
      destruct Hkept3 as [Hsystems3 Hpositions3].
      exists st'. split; [exact Hrun3|].
      destruct (below_closed objects _ _ _ Hunder) as [Hchildren Hclosedunder].
      destruct (below_closed objects _ _ _ Hothers) as [Hrest Hclosedothers].
      assert (Hfinal1 : forall r p, position (placed.2 r) = Some p ->
                position (st'.2 r) = Some p).
      { intros r p Hr. by apply Hpositions3, Hpositions2. }
      (* the objects under [ref] and those of the later siblings are as
         they were when their turn comes *)
      assert (Hunder1 : forall r, r ∈ under -> placed.2 r = objects r).
      { intros r Hr. apply Hframe1. by intros ->. }
      assert (Hothers2 : forall r, r ∈ others -> objects2 r = objects r).
      { intros r Hr. rewrite Hframe2; [apply Hframe1; by intros ->|].
        intros Hin. by apply (Hdisjoint r). }
      split; [|split; [|split]].
      + split.
        * intros r. by rewrite Hsystems3, Hsystems2, Hsystems1.
        * intros r p Hr. by apply Hfinal1, Hpositions1.
      + intros r Hr. apply not_elem_of_cons in Hr as [Hne Hr].
        apply not_elem_of_app in Hr as [Hrunder Hrothers].
        by rewrite Hframe3, Hframe2, Hframe1.
      + intros j r Hj Hnone. destruct j as [|j]; simpl in Hj.
        * inversion Hj; subst r. destruct (Hnew Hnone) as [Hq Hfar].
          eexists. split; [apply Hfinal1; exact Hq|]. simpl.
          split; [done|]. split; [lia|]. intros i earlier Hi. lia.
        * assert (Hr : r ∈ others) by (apply Hrest; by eapply list_elem_of_lookup_2).
          destruct (Hplaced3 j r Hj) as (q & Hq & Hy & Hx & Hearlier).
          { by rewrite (Hothers2 r Hr). }
          exists q. split; [done|]. split; [done|]. split; [lia|].
          intros i earlier Hi Hlookup. destruct i as [|i]; simpl in Hlookup.
          -- inversion Hlookup; subst earlier.
             destruct (position (objects ref)) as [p|] eqn:Hp.
             ++ exists p. split; [by apply Hfinal1, Hpositions1|].
                specialize (Hold p eq_refl). lia.
             ++ destruct (Hnew eq_refl) as [Hq0 Hfar].
                eexists. split; [apply Hfinal1; exact Hq0|]. simpl. lia.
          -- apply (Hearlier i earlier); [lia|done].
      + intros parent Hparent.
        apply elem_of_cons in Hparent as [->|Hparent];
          [|apply elem_of_app in Hparent as [Hparent|Hparent]].
        * apply (Placed_transfer 0 0 _ placed.2 _ objects2); [|lia| |].
          -- by rewrite <- Hsystems1.
          -- intros r Hr Hnone. rewrite Hunder1; [done|]. by apply Hchildren.
          -- exact Hpositions3.
        * apply (Placed_transfer 0 0 _ placed.2 _ objects2); [|lia| |].
          -- rewrite <- Hsystems1. by apply Hparents2.
          -- intros r Hr Hnone. rewrite Hunder1; [done|]. by apply (Hclosedunder parent).
          -- exact Hpositions3.
        * apply (Placed_transfer 0 0 _ objects2 _ st'.2); [|lia| |done].
          -- replace (systems (objects parent)) with (systems (objects2 parent))
               by (by rewrite Hsystems2, Hsystems1).
             by apply Hparents3.
          -- intros r Hr Hnone. rewrite Hothers2; [done|]. by apply (Hclosedothers parent). }
  destruct (Hloop subsystems all objects 0 Hall Hnd) as (st' & Hrun & Hpost).
  exists st'.2. split; [|done]. simpl. by rewrite Hrun.
Qed.

(** X9: on a system none of whose subsystem objects is met twice,
    [computePositions] returns; it keeps the position a subsystem declares,
    and puts a subsystem that declares none at y = 0, at least 10 to the
    right of the origin and of every sibling before it; the same holds among
    the children of every subsystem. *)
Theorem computePositions_places_right (depth : nat) (objects : Boxes)
    (subsystems all : list BoxRef) :
  below depth objects subsystems = Some all ->
  NoDup all ->
  exists objects',
    computePositions depth subsystems objects = Ret objects' /\
    (forall ref p, position (objects ref) = Some p -> position (objects' ref) = Some p) /\
    forall siblings,
      siblings = subsystems \/
      (exists parent, parent ∈ all /\ siblings = systems (objects parent)) ->
      forall (j : nat) ref,
        siblings !! j = Some ref ->
        position (objects ref) = None ->
        exists q,
          position (objects' ref) = Some q /\
          Loader.y q = 0 /\
          10 <= Loader.x q /\
          forall (i : nat) earlier,
            (i < j)%nat ->
            siblings !! i = Some earlier ->
            exists p, position (objects' earlier) = Some p /\
                      Loader.x p + 10 <= Loader.x q.
Proof.
  intros Hall Hnd.
  destruct (computePositions_Post depth subsystems all objects Hall Hnd)
    as (objects' & Hrun & [_ Hkept] & _ & Hplaced & Hparents).
  exists objects'. split; [done|]. split; [done|].
  intros siblings [->|(parent & Hparent & ->)] j ref Hj Hnone.
  - destruct (Hplaced j ref Hj Hnone) as (q & Hq & Hy & Hx & Hearlier).
    exists q. split; [done|]. split; [done|]. split; [lia|done].
  - destruct (Hparents parent Hparent j ref Hj Hnone) as (q & Hq & Hy & Hx & Hearlier).
    exists q. split; [done|]. split; [done|]. split; [lia|done].
Qed.

(** [0], at (7, 3), holds [2]; [1] comes after [0]. *)
Definition family : Boxes :=
  fun r =>
    match r with
    | 0%nat => mkBox (Some (Loader.mkXY 7 3)) [2%nat]
    | _ => mkBox None []
    end.

Lemma computePositions_places_right_witness :
  exists objects',
    computePositions 3 [0%nat; 1%nat] family = Ret objects' /\
    (forall ref p, position (family ref) = Some p -> position (objects' ref) = Some p) /\
    forall siblings,
      siblings = [0%nat; 1%nat] \/
      (exists parent, parent ∈ [0%nat; 2%nat; 1%nat] /\ siblings = systems (family parent)) ->
      forall (j : nat) ref,
        siblings !! j = Some ref ->
        position (family ref) = None ->
        exists q,
          position (objects' ref) = Some q /\
          Loader.y q = 0 /\
          10 <= Loader.x q /\
          forall (i : nat) earlier,
            (i < j)%nat ->
            siblings !! i = Some earlier ->
            exists p, position (objects' earlier) = Some p /\
                      Loader.x p + 10 <= Loader.x q.
Proof.
  apply (computePositions_places_right 3 family [0%nat; 1%nat] [0%nat; 2%nat; 1%nat]).
  - reflexivity.
  - compute_done.
Defined.

End Placement.

(** * More on the sizes and the ports *)

Module SizeFacts.

Import Loader.

(** A cell that touches the box at [position] of size [size] from outside,
    by a side and not by a corner. *)
Definition onBorder (position : XY) (size : RuntimeSystemSize) (port : XY) : Prop :=
  ((x port = x position - 1 \/ x port = x position + width size) /\
   y position <= y port < y position + height size) \/
  ((y port = y position - 1 \/ y port = y position + height size) /\
   x position <= x port < x position + width size).

Ltac distinct :=
  repeat (apply NoDup_cons; split;
          [rewrite ?elem_of_cons, elem_of_nil; intros Hin;
           repeat (destruct Hin as [Hin|Hin]; [injection Hin; lia|]); exact Hin|]);
  apply NoDup_nil_2.

Lemma portsOf_border (n : Z) (position : XY) :
  let size := sizeOf n in
  height size = 3 /\
  (width size = 4 <-> 4 < n /\ Z.odd n = true) /\
  (width size = 3 <-> ~ (4 < n /\ Z.odd n = true)) /\
  Forall (onBorder position size) (portsOf n position) /\
  NoDup (portsOf n position) /\
  length (portsOf n position) = if decide (width size = 4) then 6%nat else 4%nat.
Proof.
  unfold portsOf, sizeOf. destruct (n <=? 4) eqn:Hn; simpl.
  - apply Z.leb_le in Hn. split; [done|]. split; [lia|]. split; [lia|].
    split; [|split; [|done]].
    + unfold onBorder. repeat constructor; simpl; lia.
    + distinct.
  - apply Z.leb_gt in Hn.
    assert (Hrem : Z.rem (n - 4) 2 = (n - 4) mod 2) by (apply Z.rem_mod_nonneg; lia).
    rewrite Hrem.
    assert (Hodd : (n - 4) mod 2 = if Z.odd n then 1 else 0).
    { rewrite <- Z.bit0_mod, Z.bit0_odd. replace (n - 4) with (n + 2 * (-2)) by lia.
      by rewrite Z.odd_add_mul_2. }
    rewrite Hodd. split; [done|].
    destruct (Z.odd n) eqn:Ho.
    + split; [intuition lia|]. split; [intuition lia|].
      rewrite (edgePorts_width (x position) (3 + 1)) by (right; lia).
      replace (oddColumns (3 + 1)) with [1; 3] by (vm_compute; reflexivity). simpl.
      split; [|split; [|done]].
      * unfold onBorder. repeat constructor; simpl; lia.
      * distinct.
    + split; [intuition (try lia; congruence)|]. split; [intuition (try lia; congruence)|].
      rewrite (edgePorts_width (x position) (3 + 0)) by (left; lia).
      replace (oddColumns (3 + 0)) with [1] by (vm_compute; reflexivity). simpl.
      split; [|split; [|done]].
      * unfold onBorder. repeat constructor; simpl; lia.
      * distinct.
Qed.

(** X11: whatever the number of links, [computeSizes] gives every subsystem
    a box 3 high and 3 or 4 wide (4 exactly when more than four links refer
    to it and their number is odd), and ports that are distinct cells which
    touch the box from outside by a side: four of them on a box 3 wide, six
    on a box 4 wide. *)
Theorem computeSizes_ports_on_border
    (systems : list RuntimeSubsystem) (links : list RuntimeLink)
    (subsystem : RuntimeSubsystem) :
  subsystem ∈ flat_map descendants (computeSizes systems links) ->
  exists box,
    size subsystem = Some box /\
    height box = 3 /\
    (width box = 4 <->
     4 < linksCount links subsystem /\ Z.odd (linksCount links subsystem) = true) /\
    (width box = 3 <->
     ~ (4 < linksCount links subsystem /\ Z.odd (linksCount links subsystem) = true)) /\
    Forall (onBorder (position subsystem) box) (ports subsystem) /\
    NoDup (ports subsystem) /\
    length (ports subsystem) = if decide (width box = 4) then 6%nat else 4%nat.
Proof.
  intros Hin.
  pose proof (computeSizes_sized systems links) as Hall.
  rewrite Forall_forall in Hall. destruct (Hall _ Hin) as [Hsize Hports].
  exists (sizeOf (linksCount links subsystem)). split; [done|].
  rewrite Hports. apply portsOf_border.
Qed.

Lemma computeSizes_ports_on_border_witness :
  exists box,
    size (computeSubsystem [] scenarioFoo) = Some box /\
    height box = 3 /\
    (width box = 4 <->
     4 < linksCount [] (computeSubsystem [] scenarioFoo) /\
     Z.odd (linksCount [] (computeSubsystem [] scenarioFoo)) = true) /\
    (width box = 3 <->
     ~ (4 < linksCount [] (computeSubsystem [] scenarioFoo) /\
        Z.odd (linksCount [] (computeSubsystem [] scenarioFoo)) = true)) /\
    Forall (onBorder (position (computeSubsystem [] scenarioFoo)) box)
      (ports (computeSubsystem [] scenarioFoo)) /\
    NoDup (ports (computeSubsystem [] scenarioFoo)) /\
    length (ports (computeSubsystem [] scenarioFoo))
      = if decide (width box = 4) then 6%nat else 4%nat.
Proof.
  apply (computeSizes_ports_on_border [scenarioFoo] [] (computeSubsystem [] scenarioFoo)).
  simpl. left.
Defined.

End SizeFacts.

(** * More on the simulator *)

Module LayoutFacts.

Import PathFinding.
Import Simulator.

(** ** Looking objects up *)

Definition isLink (object : SimulatorObject) : bool :=
  match object with
  | SimulatorLink _ _ => true
  | _ => false
  end.

(** [obj.type] is [System], [SystemTitle] or [SystemTitlePadding]. *)
Definition isSystemObject (object : SimulatorObject) : bool :=
  match object with
  | SimulatorSubsystem _ _ _ => true
  | SimulatorSystemTitle _ _ _ => true
  | SimulatorSystemTitlePadding _ _ => true
  | _ => false
  end.

(** [(obj as SimulatorSubsystem).system] *)
Definition systemOf (object : SimulatorObject) : option string :=
  match object with
  | SimulatorSubsystem system _ _ => Some system
  | SimulatorPort system => Some system
  | SimulatorLink _ _ => None
  | SimulatorSystemMargin system => Some system
  | SimulatorSystemTitle system _ _ => Some system
  | SimulatorSystemTitlePadding system _ => Some system
  end.

(** [(obj as SimulatorLink).link] *)
Definition linkOf (object : SimulatorObject) : option RuntimeLink :=
  match object with
  | SimulatorLink _ link => Some link
  | _ => None
  end.

(** [getSubsystemAt]: the objects are read from bottom to top for a
    blackbox, then from top to bottom for a system, a title or its padding. *)
Definition getSubsystemAt (sim : SystemSimulator) (worldX worldY : Z) : Exec (option string) :=
  objects ← getObjectsAt sim worldX worldY;
  match List.find isBlackbox objects with
  | Some obj => Ret (systemOf obj)
  | None =>
      match List.find isSystemObject (rev objects) with
      | Some obj => Ret (systemOf obj)
      | None => Ret None
      end
  end.

(** [getLinkAt]: the objects are read from top to bottom. *)
Definition getLinkAt (sim : SystemSimulator) (worldX worldY : Z) : Exec (option RuntimeLink) :=
  objects ← getObjectsAt sim worldX worldY;
  match List.find isLink (rev objects) with
  | Some obj => Ret (linkOf obj)
  | None => Ret None
  end.

Lemma find_first {A : Type} (p : A -> bool) (l : list A) :
  match List.find p l with
  | Some o =>
      exists below above,
        l = below ++ o :: above /\ p o = true /\ Forall (fun o => p o = false) below
  | None => Forall (fun o => p o = false) l
  end.
Proof.
  induction l as [|o l IH]; simpl; [constructor|].
  destruct (p o) eqn:Ho.
  - exists [], l. by repeat split.
  - destruct (List.find p l) as [o'|].
    + destruct IH as (below & above & -> & Ho' & Hbelow).
      exists (o :: below), above. repeat split; [done|]. by constructor.
    + by constructor.
Qed.

Lemma find_last {A : Type} (p : A -> bool) (l : list A) :
  match List.find p (rev l) with
  | Some o =>
      exists below above,
        l = below ++ o :: above /\ p o = true /\ Forall (fun o => p o = false) above
  | None => Forall (fun o => p o = false) l
  end.
Proof.
  pose proof (find_first p (rev l)) as Hf.
  destruct (List.find p (rev l)) as [o|].
  - destruct Hf as (below & above & Hl & Ho & Hbelow).
    exists (rev above), (rev below). split; [|split; [done|]].
    + rewrite <- (rev_involutive l), Hl, rev_app_distr. simpl. by rewrite <- app_assoc.
    + rewrite Forall_forall in *. intros o' Hin. apply Hbelow.
      apply list_elem_of_In. apply list_elem_of_In in Hin. by apply in_rev.
  - rewrite Forall_forall in *. intros o' Hin. apply Hf.
    apply list_elem_of_In. apply list_elem_of_In in Hin. by apply in_rev in Hin.
Qed.

(** X12: [getLinkAt] never throws; it returns the link of the topmost link
    tile of the cell, and null exactly when the cell holds no link tile. *)
Theorem getLinkAt_topmost (sim : SystemSimulator) (worldX worldY : Z) :
  exists objects,
    getObjectsAt sim worldX worldY = Ret objects /\
    match getLinkAt sim worldX worldY with
    | Ret (Some link) =>
        exists below direction above,
          objects = below ++ SimulatorLink direction link :: above /\
          Forall (fun o => isLink o = false) above
    | Ret None => Forall (fun o => isLink o = false) objects
    | Throw _ => False
    end.
Proof.
  unfold getLinkAt. destruct (getObjectsAt sim worldX worldY) as [objects|e] eqn:Ho;
    [|done].
  exists objects. split; [done|]. simpl.
  pose proof (find_last isLink objects) as Hf.
  destruct (List.find isLink (rev objects)) as [o|]; [|done].
  destruct Hf as (below & above & -> & Hlink & Habove).
  destruct o; try done. simpl. by exists below, direction, above.
Qed.

(** X13: [getSubsystemAt] never throws.  When the cell holds an object
    flagged as a blackbox, the system of the lowest one is returned;
    otherwise the system of the topmost system tile, title or title padding;
    null exactly when the cell holds none of these. *)
Theorem getSubsystemAt_blackbox_first (sim : SystemSimulator) (worldX worldY : Z) :
  exists objects,
    getObjectsAt sim worldX worldY = Ret objects /\
    match getSubsystemAt sim worldX worldY with
    | Ret (Some system) =>
        exists below object above,
          objects = below ++ object :: above /\
          systemOf object = Some system /\
          isSystemObject object = true /\
          ((isBlackbox object = true /\ Forall (fun o => isBlackbox o = false) below) \/
           (Forall (fun o => isBlackbox o = false) objects /\
            Forall (fun o => isSystemObject o = false) above))
    | Ret None => Forall (fun o => isSystemObject o = false) objects
    | Throw _ => False
    end.
Proof.
  unfold getSubsystemAt. destruct (getObjectsAt sim worldX worldY) as [objects|e] eqn:Ho;
    [|done].
  exists objects. split; [done|]. simpl.
  pose proof (find_first isBlackbox objects) as Hb.
  destruct (List.find isBlackbox objects) as [o|].
  - destruct Hb as (below & above & -> & Hbb & Hbelow).
    destruct o; try done; simpl; exists below; eexists; exists above;
      (split; [reflexivity|]); (split; [reflexivity|]); (split; [reflexivity|]);
      left; by split.
  - pose proof (find_last isSystemObject objects) as Hs.
    destruct (List.find isSystemObject (rev objects)) as [o|]; [|done].
    destruct Hs as (below & above & Hobj & Hsys & Habove).
    destruct o; try done; simpl; exists below; eexists; exists above;
      (split; [exact Hobj|]); (split; [reflexivity|]); (split; [reflexivity|]);
      right; by split.
Qed.

(** ** The cells of the raster *)

Lemma push_cellAt grid x y object grid' :
  push grid x y object = Ret grid' ->
  exists stack,
    cellAt grid x y = Some stack /\
    forall x' y',
      cellAt grid' x' y' =
        if decide (x' = x /\ y' = y) then Some (stack ++ [object]) else cellAt grid x' y'.
Proof.
  unfold push, cellAt.
  destruct (at_ grid x) as [[column|]|] eqn:Hx; simpl; try done.
  destruct (at_ column y) as [stack|] eqn:Hy; simpl; [|done].
  intros [= <-]. exists stack. split; [done|]. intros x' y'.
  apply at_Some in Hx as [Hx0 Hx], Hy as [Hy0 Hy].
  pose proof (lookup_lt_Some _ _ _ Hx) as Hxl.
  pose proof (lookup_lt_Some _ _ _ Hy) as Hyl.
  unfold at_ at 2 4. destruct (x' <? 0) eqn:Hx'.
  { rewrite decide_False by lia. done. }
  destruct (decide (x' = x)) as [->|Hne].
  - rewrite list_lookup_insert_eq by done. rewrite Hx. simpl.
    unfold at_. destruct (y' <? 0) eqn:Hy'.
    { rewrite decide_False by lia. done. }
    destruct (decide (y' = y)) as [->|Hney].
    + rewrite list_lookup_insert_eq by done. by rewrite decide_True.
    + rewrite list_lookup_insert_ne by lia. by rewrite decide_False by lia.
  - rewrite list_lookup_insert_ne by lia. by rewrite decide_False by lia.
Qed.

Lemma push_throws grid x y object e :
  push grid x y object = Throw e -> e = TypeError /\ cellAt grid x y = None.
Proof.
  unfold push, cellAt.
  destruct (at_ grid x) as [[column|]|] eqn:Hx; simpl; try by intros [= <-].
  destruct (at_ column y) as [stack|] eqn:Hy; simpl; [done|by intros [= <-]].
Qed.

Section Margins.

Variable SystemMargin : Z.
Hypothesis SystemMargin_nonneg : 0 <= SystemMargin.

Lemma computeBoundaries_dimensions gridSystems :
  let b := computeBoundaries SystemMargin gridSystems in
  SystemMargin * 10 <= Boundaries.width b /\ SystemMargin * 10 <= Boundaries.height b.
Proof.
  unfold computeBoundaries. simpl.
  pose proof (fold_extend_mono (values gridSystems)
                (mkExtent MAX_SAFE_INTEGER 0 MAX_SAFE_INTEGER 0)) as Hm.
  set (e := fold_left extend (values gridSystems) _) in *.
  repeat match goal with |- context [if ?c then _ else _] => destruct c eqn:? end; lia.
Qed.

(** X27: the boundaries are at least 10 * SystemMargin wide and high; the
    raster is created from them without a RangeError as long as their
    height is an array length, and it has their shape. *)
Theorem createGrid_after_computeBoundaries (gridSystems : gmap string GridSystem.t) :
  let b := computeBoundaries SystemMargin gridSystems in
  Boundaries.height b <= 2 ^ 32 - 1 ->
  SystemMargin * 10 <= Boundaries.width b /\
  SystemMargin * 10 <= Boundaries.height b /\
  exists grid, createGrid b = Ret grid /\ hasShape b grid.
Proof.
  intros b Hmax. destruct (computeBoundaries_dimensions gridSystems) as [Hw Hh].
  fold b in Hw, Hh. split; [done|]. split; [done|].
  destruct (createGrid b) as [grid|e] eqn:Hgrid.
  - exists grid. split; [done|]. by apply createGrid_shape.
  - unfold createGrid in Hgrid.
    destruct ((Boundaries.height b <? 0) || (2 ^ 32 - 1 <? Boundaries.height b)) eqn:Hc;
      [|done].
    apply orb_true_iff in Hc as [Hc|Hc]; lia.
Qed.

End Margins.

Lemma createGrid_after_computeBoundaries_witness :
  let b := computeBoundaries 1 (gridSystems lonely) in
  1 * 10 <= Boundaries.width b /\
  1 * 10 <= Boundaries.height b /\
  exists grid, createGrid b = Ret grid /\ hasShape b grid.
Proof.
  apply (createGrid_after_computeBoundaries 1); [lia|].
  vm_compute. discriminate.
Defined.

(** X14: the raster that [compute] creates from the boundaries holds every
    cell of every system box, and every cell within 5 * SystemMargin of the
    box: the boxes, the margins and the ports drawn around them are written
    to cells that exist. *)
Theorem system_cells_in_raster
    (SystemMargin : Z) (sim : SystemSimulator) (key : string) (obj : GridSystem.t)
    (grid : Raster) (x y : Z) :
  0 <= SystemMargin ->
  gridSystems (computePositions SystemMargin sim) !! key = Some obj ->
  createGrid (boundaries (computePositions SystemMargin sim)) = Ret grid ->
  GridSystem.x1 obj - SystemMargin * 5 <= x <= GridSystem.x2 obj + SystemMargin * 5 ->
  GridSystem.y1 obj - SystemMargin * 5 <= y <= GridSystem.y2 obj + SystemMargin * 5 ->
  cellAt grid x y = Some [].
Proof.
  intros Hmargin Hobj Hgrid Hx Hy.
  assert (Hin : 0 <= x < Boundaries.width (boundaries (computePositions SystemMargin sim)) /\
                0 <= y < Boundaries.height (boundaries (computePositions SystemMargin sim))).
  { unfold computePositions, computeSystemPositions in *. simpl in *.
    rewrite lookup_fmap in Hobj.
    destruct (gridSystems sim !! key) as [obj0|] eqn:Hkey; [|done].
    simpl in Hobj. inversion Hobj; subst obj; clear Hobj. simpl in Hx, Hy.
    apply elem_of_values in Hkey.
    pose proof (fold_extend_covers (values (gridSystems sim)) obj0
                  (mkExtent MAX_SAFE_INTEGER 0 MAX_SAFE_INTEGER 0) Hkey) as Hc.
    revert Hx Hy. unfold computeBoundaries. simpl.
    set (e := fold_left extend (values (gridSystems sim)) _) in *.
    repeat match goal with |- context [if ?c then _ else _] => destruct c eqn:? end; lia. }
  revert Hgrid Hin. generalize (boundaries (computePositions SystemMargin sim)) as b.
  intros b Hgrid [Hx' Hy']. unfold createGrid in Hgrid.
  destruct ((Boundaries.height b <? 0) || _) eqn:Hh; [done|].
  inversion Hgrid; subst grid; clear Hgrid. unfold cellAt.
  assert (at_ (replicate (Z.to_nat (Boundaries.width b))
                 (Some (replicate (Z.to_nat (Boundaries.height b))
                          ([] : list SimulatorObject))) ++
               replicate (Z.to_nat (Boundaries.height b) - Z.to_nat (Boundaries.width b)) None) x
          = Some (Some (replicate (Z.to_nat (Boundaries.height b)) []))) as ->.
  { apply at_Some. split; [lia|]. rewrite lookup_app_l by (rewrite length_replicate; lia).
    apply lookup_replicate. split; [done|lia]. }
  simpl. apply at_Some. split; [lia|]. apply lookup_replicate. split; [done|lia].
Qed.

Lemma system_cells_in_raster_witness :
  cellAt (replicate 17 (Some (replicate 13 []))) 0 12 = Some [].
Proof.
  apply (system_cells_in_raster 1 lonely "foo"
           (GridSystem.mk "foo" 5 7 5 7 (-7) (-2) 3 3 [] (Title.mk (-1) (-1) (-1) (-1)) false)
           (replicate 17 (Some (replicate 13 []))) 0 12).
  - lia.
  - vm_compute. reflexivity.
  - vm_compute. reflexivity.
  - simpl. lia.
  - simpl. lia.
Defined.

(** ** What drawing the links changes *)

(** A link tile of one of [links]. *)
Definition tileOfLinks (links : list RuntimeLink) (object : SimulatorObject) : Prop :=
  exists direction link, object = SimulatorLink direction link /\ link ∈ links.

(** Every cell of [grid'] is the cell of [grid] with link tiles of [links]
    on top, and with none where the cell of [grid] holds a blackbox. *)
Definition extends (links : list RuntimeLink) (grid grid' : Raster) : Prop :=
  forall x y,
    match cellAt grid x y with
    | Some stack =>
        exists tiles,
          cellAt grid' x y = Some (stack ++ tiles) /\
          Forall (tileOfLinks links) tiles /\
          (existsb isBlackbox stack = true -> tiles = [])
    | None => cellAt grid' x y = None
    end.

Lemma extends_refl links grid : extends links grid grid.
Proof.
  intros x y. destruct (cellAt grid x y) as [stack|]; [|done].
  exists []. by rewrite app_nil_r.
Qed.

Lemma tiles_not_blackbox links tiles :
  Forall (tileOfLinks links) tiles -> existsb isBlackbox tiles = false.
Proof.
  induction 1 as [|o tiles (d & l & -> & _) _ IH]; [done|]. simpl. exact IH.
Qed.

Lemma tiles_not_system links tiles :
  Forall (tileOfLinks links) tiles -> Forall (fun o => isSystemObject o = false) tiles.
Proof. induction 1 as [|o tiles (d & l & -> & _) _ IH]; by constructor. Qed.

Lemma find_skip {A : Type} (p : A -> bool) (skipped l : list A) :
  Forall (fun o => p o = false) skipped -> List.find p (skipped ++ l) = List.find p l.
Proof. induction 1 as [|o skipped Ho _ IH]; [done|]. simpl. by rewrite Ho. Qed.

Lemma extends_trans links1 links2 links grid1 grid2 grid3 :
  links1 ⊆ links -> links2 ⊆ links ->
  extends links1 grid1 grid2 -> extends links2 grid2 grid3 -> extends links grid1 grid3.
Proof.
  intros H1 H2 H12 H23 x y. specialize (H12 x y). specialize (H23 x y).
  destruct (cellAt grid1 x y) as [stack|].
  - destruct H12 as (tiles1 & Hc2 & Ht1 & Hb1). rewrite Hc2 in H23.
    destruct H23 as (tiles2 & Hc3 & Ht2 & Hb2).
    exists (tiles1 ++ tiles2). split; [by rewrite app_assoc|]. split.
    + apply Forall_app. split.
      * eapply Forall_impl; [exact Ht1|]. intros o (d & l & -> & Hl).
        exists d, l. split; [done|]. by apply H1.
      * eapply Forall_impl; [exact Ht2|]. intros o (d & l & -> & Hl).
        exists d, l. split; [done|]. by apply H2.
    + intros Hbb. rewrite (Hb1 Hbb) in *. rewrite app_nil_r in Hb2.
      by rewrite (Hb2 Hbb).
  - by rewrite H12 in H23.
Qed.

Lemma drawTile_extends link portA portB subsystemA subsystemB route step st st' :
  drawTile link portA portB subsystemA subsystemB route step st = Ret st' ->
  extends [link] st.1 st'.1.
Proof.
  destruct step as [i [x y]], st as [grid finderGrid]. unfold drawTile.
  destruct (setWeightAt finderGrid x y (Finite 2)) as [finderGrid1|e]; simpl; [|done].
  destruct (cellAt grid x y) as [stack|] eqn:Hcell; [|done].
  destruct (existsb isBlackbox stack) eqn:Hbb.
  { intros [= <-]. apply extends_refl. }
  match goal with |- (?m ≫= _) = _ -> _ => destruct m as [around|e] end;
    simpl; [|done].
  destruct (tileOf _ _ _ _ _ _) as [direction|].
  - destruct (push grid x y (SimulatorLink direction link)) as [grid1|e] eqn:Hpush;
      simpl; [|done].
    intros [= <-]. simpl.
    apply push_cellAt in Hpush as (stack' & Hstack & Hcells).
    rewrite Hcell in Hstack. inversion Hstack; subst stack'; clear Hstack.
    intros x' y'. rewrite Hcells. case_decide as Hxy.
    + destruct Hxy as [-> ->]. rewrite Hcell.
      exists [SimulatorLink direction link]. split; [done|]. split.
      * constructor; [|constructor]. exists direction, link. split; [done|].
        by apply list_elem_of_singleton.
      * by rewrite Hbb.
    + destruct (cellAt grid x' y') as [stack'|]; [|done].
      exists []. by rewrite app_nil_r.
  - intros [= <-]. apply extends_refl.
Qed.

Lemma forOf_drawTile_extends link portA portB subsystemA subsystemB route steps :
  forall st st',
  forOf (drawTile link portA portB subsystemA subsystemB route) steps st = Ret st' ->
  extends [link] st.1 st'.1.
Proof.
  induction steps as [|step steps IH]; intros st st' Hf.
  - inversion Hf. apply extends_refl.
  - rewrite forOf_cons in Hf.
    destruct (drawTile _ _ _ _ _ _ step st) as [st1|e] eqn:Ht; simpl in Hf; [|done].
    apply drawTile_extends in Ht. apply IH in Hf.
    by apply (extends_trans [link] [link] [link] _ st1.1).
Qed.

Section Drawing.

Variable H : Heap.

(** A link leaves the grid systems and the boundaries as they are, and puts
    its tiles on top of the cells. *)
Lemma drawLink_extends link st st' :
  drawLink H link st = Ret st' ->
  gridSystems st'.1 = gridSystems st.1 /\
  boundaries st'.1 = boundaries st.1 /\
  extends [link] (grid st.1) (grid st'.1).
Proof.
  unfold drawLink. intros Hd.
  destruct (searchLink H link st) as [[[[[allowed subsystemA] subsystemB] found] fg]|e]
    eqn:Hs; simpl in Hd; [|done].
  destruct found as [[[portA portB] route]|].
  - destruct (forOf _ _ _) as [tiles|e] eqn:Htiles; simpl in Hd; [|done].
    destruct (setDeniedPorts _ _ _ _) as [fg'|e]; simpl in Hd; [|done].
    inversion Hd; subst; clear Hd. simpl. split; [done|]. split; [done|].
    by apply forOf_drawTile_extends in Htiles.
  - simpl in Hd.
    destruct (setDeniedPorts _ _ _ _) as [fg'|e]; simpl in Hd; [|done].
    inversion Hd; subst; clear Hd. simpl. split; [done|]. split; [done|].
    apply extends_refl.
Qed.

Lemma drawLinks_extends links : forall st st',
  drawLinks H links st = Ret st' ->
  gridSystems st'.1 = gridSystems st.1 /\
  boundaries st'.1 = boundaries st.1 /\
  extends links (grid st.1) (grid st'.1).
Proof.
  unfold drawLinks. induction links as [|link links IH]; intros st st' Hd.
  - inversion Hd; subst. split; [done|]. split; [done|]. apply extends_refl.
  - rewrite forOf_cons in Hd.
    destruct (drawLink H link st) as [st1|e] eqn:Hl; simpl in Hd; [|done].
    apply drawLink_extends in Hl as (Hg1 & Hb1 & He1).
    apply IH in Hd as (Hg & Hb & He).
    split; [congruence|]. split; [congruence|].
    apply (extends_trans [link] links (link :: links) _ (grid st1.1)); try done.
    + intros l ->%list_elem_of_singleton. by left.
    + intros l Hl. by right.
Qed.

(** X15: drawing the links leaves the grid systems and the boundaries as
    they are, creates no cell, and changes a cell only by putting link
    tiles of the links drawn on top of it; a cell that holds a blackbox gets
    no tile. *)
Theorem drawLinks_adds_link_tiles
    (links : list RuntimeLink) (st st' : SystemSimulator * Grid) (x y : Z) :
  drawLinks H links st = Ret st' ->
  gridSystems st'.1 = gridSystems st.1 /\
  boundaries st'.1 = boundaries st.1 /\
  match cellAt (grid st.1) x y with
  | Some stack =>
      exists tiles,
        cellAt (grid st'.1) x y = Some (stack ++ tiles) /\
        Forall (fun o => exists direction link,
                  o = SimulatorLink direction link /\ link ∈ links) tiles /\
        (existsb isBlackbox stack = true -> tiles = [])
  | None => cellAt (grid st'.1) x y = None
  end.
Proof.
  intros Hd. apply drawLinks_extends in Hd as (Hg & Hb & He).
  split; [done|]. split; [done|]. apply He.
Qed.

(** X16: drawing the links changes the answer of [getSubsystemAt] at no
    coordinate. *)
Theorem drawLinks_keeps_subsystems
    (links : list RuntimeLink) (st st' : SystemSimulator * Grid) (worldX worldY : Z) :
  drawLinks H links st = Ret st' ->
  getSubsystemAt st'.1 worldX worldY = getSubsystemAt st.1 worldX worldY.
Proof.
  intros Hd. apply drawLinks_extends in Hd as (Hg & Hb & He).
  unfold getSubsystemAt, getObjectsAt. rewrite Hb. simpl.
  specialize (He (worldX + Boundaries.translateX (boundaries st.1))
                 (worldY + Boundaries.translateY (boundaries st.1))).
  destruct (cellAt (grid st.1) _ _) as [stack|]; [|by rewrite He].
  destruct He as (tiles & -> & Htiles & _). simpl.
  assert (Hbb : List.find isBlackbox (stack ++ tiles) = List.find isBlackbox stack).
  { clear -Htiles. induction stack as [|o stack IH]; simpl.
    - induction Htiles as [|o tiles (d & l & -> & _) _ IH]; [done|]. done.
    - by destruct (isBlackbox o). }
  assert (Hsys : List.find isSystemObject (rev (stack ++ tiles))
                 = List.find isSystemObject (rev stack)).
  { rewrite rev_app_distr. apply find_skip.
    apply tiles_not_system in Htiles. rewrite Forall_forall in *.
    intros o Hin. apply Htiles.
    apply list_elem_of_In. apply list_elem_of_In in Hin. by apply in_rev in Hin. }
  by rewrite Hbb, Hsys.
Qed.

End Drawing.

Lemma drawLinks_adds_link_tiles_witness :
  exists st',
    drawLinks ListHeap [fooBar] (row, newGrid 5 1 1) = Ret st' /\
    gridSystems st'.1 = gridSystems row /\
    boundaries st'.1 = boundaries row /\
    exists tiles,
      cellAt (grid st'.1) 0 0 = Some ([SimulatorPort "foo"] ++ tiles) /\
      Forall (fun o => exists direction link,
                o = SimulatorLink direction link /\ link ∈ [fooBar]) tiles /\
      (existsb isBlackbox [SimulatorPort "foo"] = true -> tiles = []).
Proof.
  destruct (drawLinks ListHeap [fooBar] (row, newGrid 5 1 1)) as [st'|e] eqn:Hrun;
    [|vm_compute in Hrun; discriminate].
  exists st'. split; [reflexivity|].
  exact (drawLinks_adds_link_tiles ListHeap [fooBar] (row, newGrid 5 1 1) st' 0 0 Hrun).
Defined.

Lemma drawLinks_keeps_subsystems_witness :
  exists st',
    drawLinks ListHeap [fooBar] (row, newGrid 5 1 1) = Ret st' /\
    getSubsystemAt st'.1 2 0 = getSubsystemAt row 2 0.
Proof.
  destruct (drawLinks ListHeap [fooBar] (row, newGrid 5 1 1)) as [st'|e] eqn:Hrun;
    [|vm_compute in Hrun; discriminate].
  exists st'. split; [reflexivity|].
  exact (drawLinks_keeps_subsystems ListHeap [fooBar] (row, newGrid 5 1 1) st' 2 0 Hrun).
Defined.


(** ** When drawing the links fails *)

Lemma getNodeAt_throws grid x y e :
  getNodeAt grid x y = Throw e -> e = TypeError.
Proof. unfold getNodeAt. destruct (_ && _); [done|]. by intros [= <-]. Qed.

Lemma setWeightAt_throws grid x y w e :
  setWeightAt grid x y w = Throw e -> e = TypeError.
Proof.
  unfold setWeightAt. destruct (getNodeAt grid x y) as [[c|]|e'] eqn:Hn; simpl.
  - done.
  - by intros [= <-].
  - intros [= <-]. by eapply getNodeAt_throws.
Qed.

Lemma setWeightAt_inside grid x y w :
  isInside grid x y = true ->
  exists grid',
    setWeightAt grid x y w = Ret grid' /\
    PathFinding.width grid' = PathFinding.width grid /\
    PathFinding.height grid' = PathFinding.height grid /\
    weight (nodes grid' (x, y)) = w /\
    forall c, c <> (x, y) -> weight (nodes grid' c) = weight (nodes grid c).
Proof.
  intros Hin. unfold setWeightAt. rewrite (getNodeAt_inside grid x y Hin). simpl.
  eexists. split; [done|]. simpl. split; [done|]. split; [done|].
  split; [by rewrite decide_True|]. intros c Hc. by rewrite decide_False.
Qed.

Lemma forOf_throws {A St : Type} (body : A -> St -> Exec St) xs :
  (forall x s e, body x s = Throw e -> e = TypeError) ->
  forall s e, forOf body xs s = Throw e -> e = TypeError.
Proof.
  intros Hbody. induction xs as [|x xs IH]; intros s e Hf; [done|].
  rewrite forOf_cons in Hf. destruct (body x s) as [s'|e'] eqn:Hb; simpl in Hf.
  - by eapply IH.
  - inversion Hf; subst. by eapply Hbody.
Qed.

Lemma setDeniedPorts_throws allowedSystems w gridSystems finderGrid e :
  setDeniedPorts allowedSystems w gridSystems finderGrid = Throw e -> e = TypeError.
Proof.
  unfold setDeniedPorts. apply forOf_throws. intros gridSS fg e'.
  case_bool_decide; [done|]. apply forOf_throws.
  intros port fg' e''. apply setWeightAt_throws.
Qed.

Lemma routeAt_throws route i e : routeAt route i = Throw e -> e = TypeError.
Proof. unfold routeAt. destruct (at_ route i); [done|]. by intros [= <-]. Qed.

Lemma drawTile_throws link portA portB subsystemA subsystemB route step st e :
  drawTile link portA portB subsystemA subsystemB route step st = Throw e -> e = TypeError.
Proof.
  destruct step as [i [x y]], st as [grid finderGrid]. unfold drawTile.
  destruct (setWeightAt finderGrid x y (Finite 2)) as [finderGrid1|e'] eqn:Hw; simpl.
  2: { intros [= <-]. by eapply setWeightAt_throws. }
  destruct (cellAt grid x y) as [stack|]; [|by intros [= <-]].
  destruct (existsb isBlackbox stack); [done|].
  destruct (Z.of_nat (length route) =? 1); simpl.
  { destruct (tileOf _ _ _ _ _ _); [|done].
    destruct (push _ _ _ _) as [g|e'] eqn:Hp; simpl; [done|].
    intros [= <-]. by apply push_throws in Hp as [-> _]. }
  destruct (i =? 0).
  { destruct (routeAt route (i + 1)) as [after|e'] eqn:Hr; simpl.
    2: { intros [= <-]. by eapply routeAt_throws. }
    destruct (tileOf _ _ _ _ _ _); [|done].
    destruct (push _ _ _ _) as [g|e'] eqn:Hp; simpl; [done|].
    intros [= <-]. by apply push_throws in Hp as [-> _]. }
  destruct (i =? Z.of_nat (length route) - 1).
  { destruct (routeAt route (i - 1)) as [before|e'] eqn:Hr; simpl.
    2: { intros [= <-]. by eapply routeAt_throws. }
    destruct (tileOf _ _ _ _ _ _); [|done].
    destruct (push _ _ _ _) as [g|e'] eqn:Hp; simpl; [done|].
    intros [= <-]. by apply push_throws in Hp as [-> _]. }
  destruct (routeAt route (i - 1)) as [before|e'] eqn:Hr; simpl.
  2: { intros [= <-]. by eapply routeAt_throws. }
  destruct (routeAt route (i + 1)) as [after|e'] eqn:Hr'; simpl.
  2: { intros [= <-]. by eapply routeAt_throws. }
  destruct (tileOf _ _ _ _ _ _); [|done].
  destruct (push _ _ _ _) as [g|e'] eqn:Hp; simpl; [done|].
  intros [= <-]. by apply push_throws in Hp as [-> _].
Qed.

Section Failing.

Variable H : Heap.

(** The search of a route between two cells of the grid returns; what it
    returns is empty or a path of distinct cells from the first to the
    second, each one cardinal step from the one before and on a cell whose
    weight is not [Infinity]. *)
Lemma findPathOn_cells pf startX startY endX endY grid :
  isInside grid startX startY = true ->
  (0 <=? endX) && (endX <? PathFinding.width grid) = true ->
  exists path grid',
    findPathOn H pf startX startY endX endY (reset grid) = Ret (path, grid') /\
    sameTerrain grid grid' /\
    (path = [] \/
     head path = Some (startX, startY) /\
     last path = Some (endX, endY) /\
     fourConnected path /\
     NoDup path /\
     Forall (cellWalkable grid) (tail path)).
Proof.
  intros Hstart Hend.
  assert (Hnode : exists endNode, getNodeAt grid endX endY = Ret endNode).
  { unfold getNodeAt. rewrite Hend. by eexists. }
  destruct Hnode as [endNode Hnode].
  destruct (SearchFacts.findPathOn_outcome H pf startX startY endX endY grid endNode
              Hstart Hnode) as (path & grid' & g0 & Hrun & Ht0 & Ht & Hres).
  exists path, grid'. split; [done|]. split; [done|].
  destruct Hres as [[-> _]|(e & -> & Hch & Hnd)]; [by left|right].
  apply getNodeAt_Some in Hnode as [-> _].
  split; [by eapply Chain_head|]. split; [by eapply Chain_last|].
  split; [by eapply Chain_fourConnected|]. split; [done|].
  apply Chain_walkable in Hch. eapply Forall_impl; [exact Hch|].
  intros c Hc. by apply (cellWalkable_terrain g0 grid); [apply sameTerrain_sym|].
Qed.

Lemma findPathOn_throws pf startX startY endX endY grid e :
  findPathOn H pf startX startY endX endY (reset grid) = Throw e -> e = TypeError.
Proof.
  intros Hf. destruct (isInside grid startX startY) eqn:Hin.
  - destruct ((0 <=? endX) && (endX <? PathFinding.width grid)) eqn:Hend.
    + destruct (findPathOn_cells pf startX startY endX endY grid Hin Hend)
        as (path & grid' & Hr & _). congruence.
    + unfold findPathOn in Hf.
      rewrite (getNodeAt_inside (reset grid) startX startY Hin) in Hf.
      unfold getNodeAt in Hf at 1. simpl in Hf. rewrite Hend in Hf. simpl in Hf.
      by inversion Hf.
  - unfold findPathOn, getNodeAt in Hf. simpl in Hf. unfold isInside in Hin.
    destruct ((0 <=? startX) && (startX <? PathFinding.width grid)) eqn:Hx;
      simpl in Hf; [|by inversion Hf].
    destruct ((0 <=? endX) && (endX <? PathFinding.width grid)); simpl in Hf;
      [|by inversion Hf].
    assert ((0 <=? startY) && (startY <? PathFinding.height grid) = false) as Hy by lia.
    rewrite Hy in Hf. by inversion Hf.
Qed.

Lemma findRoute_throws candidates : forall finderGrid e,
  findRoute H candidates finderGrid = Throw e -> e = TypeError.
Proof.
  induction candidates as [|[portA portB] rest IH]; intros fg e Hf; [done|].
  simpl in Hf.
  destruct (findPathOn H defaultFinder portA.1 portA.2 portB.1 portB.2 (reset fg))
    as [[path fg']|e'] eqn:Hp; simpl in Hf.
  - destruct path; [by eapply IH|done].
  - inversion Hf; subst. by eapply findPathOn_throws.
Qed.

Lemma searchLink_throws link st e :
  searchLink H link st = Throw e -> e = TypeError.
Proof.
  destruct st as [sim fg]. unfold searchLink.
  destruct (systemA link); [|by intros [= <-]].
  destruct (systemB link); [|by intros [= <-]].
  destruct (setDeniedPorts _ _ _ _) as [fg1|e'] eqn:Hd; simpl.
  2: { intros [= <-]. by eapply setDeniedPorts_throws. }
  destruct (gridSystems sim !! a link); [|by intros [= <-]].
  destruct (gridSystems sim !! b link); [|by intros [= <-]].
  destruct (findRoute H _ fg1) as [[found fg2]|e'] eqn:Hf; simpl; [done|].
  intros [= <-]. by eapply findRoute_throws.
Qed.

Lemma drawLink_throws link st e :
  drawLink H link st = Throw e -> e = TypeError.
Proof.
  unfold drawLink.
  destruct (searchLink H link st) as [[[[[allowed subsystemA] subsystemB] found] fg]|e']
    eqn:Hs; simpl.
  2: { intros [= <-]. by eapply searchLink_throws. }
  destruct found as [[[portA portB] route]|]; simpl.
  - destruct (forOf _ _ _) as [tiles|e'] eqn:Htiles; simpl.
    2: { intros [= <-]. eapply forOf_throws; [|exact Htiles].
         intros step s e''. apply drawTile_throws. }
    destruct (setDeniedPorts _ _ _ _) as [fg'|e'] eqn:Hd; simpl; [done|].
    intros [= <-]. by eapply setDeniedPorts_throws.
  - destruct (setDeniedPorts _ _ _ _) as [fg'|e'] eqn:Hd; simpl; [done|].
    intros [= <-]. by eapply setDeniedPorts_throws.
Qed.

(** The two ends of [link] are resolved, and each has its grid system. *)
Definition resolved (sim : SystemSimulator) (link : RuntimeLink) : Prop :=
  is_Some (systemA link) /\ is_Some (systemB link) /\
  is_Some (gridSystems sim !! a link) /\ is_Some (gridSystems sim !! b link).

Lemma drawLink_resolved link st st' :
  drawLink H link st = Ret st' -> resolved st.1 link.
Proof.
  unfold drawLink, resolved.
  destruct (searchLink H link st) as [r|e'] eqn:Hs; simpl; [|done]. intros _.
  destruct st as [sim fg]. unfold searchLink in Hs. simpl.
  destruct (systemA link); [|done]. destruct (systemB link); [|done].
  destruct (setDeniedPorts _ _ _ _) as [fg1|e']; simpl in Hs; [|done].
  destruct (gridSystems sim !! a link); [|done].
  destruct (gridSystems sim !! b link); [|done]. by repeat split.
Qed.

(** X17: when an end of one of the links was not resolved by the loader, or
    has no grid system, [drawLinks] throws a TypeError. *)
Theorem drawLinks_unresolved_endpoint
    (links : list RuntimeLink) (link : RuntimeLink) (st : SystemSimulator * Grid) :
  link ∈ links ->
  ~ resolved st.1 link ->
  drawLinks H links st = Throw TypeError.
Proof.
  unfold drawLinks. revert st. induction links as [|l links IH]; intros st Hin Hnot.
  - by apply elem_of_nil in Hin.
  - rewrite forOf_cons. destruct (drawLink H l st) as [st1|e] eqn:Hl; simpl.
    + apply elem_of_cons in Hin as [->|Hin].
      * by apply drawLink_resolved in Hl.
      * apply IH; [done|]. apply drawLink_extends in Hl as (Hg & _).
        unfold resolved in *. by rewrite Hg.
    + by apply drawLink_throws in Hl as ->.
Qed.

End Failing.

Lemma drawLinks_unresolved_endpoint_witness :
  drawLinks ListHeap [fooBar; mkRuntimeLink "foo" "baz" None None] (row, newGrid 5 1 1)
    = Throw TypeError.
Proof.
  apply (drawLinks_unresolved_endpoint ListHeap
           [fooBar; mkRuntimeLink "foo" "baz" None None]
           (mkRuntimeLink "foo" "baz" None None)).
  - right. left.
  - intros ([x Hx] & _). simpl in Hx. discriminate.
Defined.


(** ** The weights of the routing grid *)

(** [c] is a port of a grid system that is not allowed. *)
Definition deniedIn (allowedSystems : list string) (l : list GridSystem.t) (c : Cell) : Prop :=
  exists gridSS,
    gridSS ∈ l /\ (GridSystem.id gridSS ∉ allowedSystems) /\ c ∈ GridSystem.ports gridSS.

Definition denied (allowedSystems : list string) (gridSystems : gmap string GridSystem.t)
    (c : Cell) : Prop :=
  deniedIn allowedSystems (values gridSystems) c.

Lemma deniedIn_dec allowedSystems l c :
  deniedIn allowedSystems l c \/ ~ deniedIn allowedSystems l c.
Proof.
  induction l as [|gridSS l IH].
  - right. intros (g & Hg & _). by apply elem_of_nil in Hg.
  - destruct IH as [(g & Hg & Hrest)|IH]; [left; exists g; split; [by right|done]|].
    destruct (decide (GridSystem.id gridSS ∈ allowedSystems)) as [Hal|Hal].
    + right. intros (g & Hg & Hng & Hc). apply elem_of_cons in Hg as [->|Hg]; [done|].
      apply IH. by exists g.
    + destruct (decide (c ∈ GridSystem.ports gridSS)) as [Hin|Hout].
      * left. exists gridSS. split; [by left|done].
      * right. intros (g & Hg & Hng & Hc). apply elem_of_cons in Hg as [->|Hg]; [done|].
        apply IH. by exists g.
Qed.

Lemma setWeightAt_Ret grid x y w grid' :
  setWeightAt grid x y w = Ret grid' ->
  isInside grid x y = true /\
  PathFinding.width grid' = PathFinding.width grid /\
  PathFinding.height grid' = PathFinding.height grid /\
  weight (nodes grid' (x, y)) = w /\
  forall c, c <> (x, y) -> weight (nodes grid' c) = weight (nodes grid c).
Proof.
  intros Hs. destruct (isInside grid x y) eqn:Hin.
  - destruct (setWeightAt_inside grid x y w Hin) as (g & Hg & Hrest).
    rewrite Hs in Hg. inversion Hg; subst g. by split.
  - unfold setWeightAt, getNodeAt in Hs. unfold isInside in Hin.
    destruct ((0 <=? x) && (x <? PathFinding.width grid)) eqn:Hx; simpl in Hs; [|done].
    assert ((0 <=? y) && (y <? PathFinding.height grid) = false) as Hy by lia.
    by rewrite Hy in Hs.
Qed.

Lemma cellInside_dims grid grid' c :
  PathFinding.width grid' = PathFinding.width grid ->
  PathFinding.height grid' = PathFinding.height grid ->
  cellInside grid c -> cellInside grid' c.
Proof. unfold cellInside, isInside. by intros -> ->. Qed.

Lemma setPorts_Ret w ports : forall grid grid',
  forOf (fun port grid => setWeightAt grid port.1 port.2 w) ports grid = Ret grid' ->
  Forall (cellInside grid) ports /\
  PathFinding.width grid' = PathFinding.width grid /\
  PathFinding.height grid' = PathFinding.height grid /\
  (forall c, c ∈ ports -> weight (nodes grid' c) = w) /\
  (forall c, c ∉ ports -> weight (nodes grid' c) = weight (nodes grid c)).
Proof.
  induction ports as [|[x y] ports IH]; intros grid grid' Hf.
  - inversion Hf; subst. split; [constructor|]. split; [done|]. split; [done|].
    split; [by intros c ?%elem_of_nil|done].
  - rewrite forOf_cons in Hf. simpl in Hf.
    destruct (setWeightAt grid x y w) as [grid1|e] eqn:Hs; simpl in Hf; [|done].
    apply setWeightAt_Ret in Hs as (Hin & Hw1 & Hh1 & Hxy & Hother).
    apply IH in Hf as (Hall & Hw & Hh & Hset & Hkeep).
    split; [|split; [congruence|split; [congruence|split]]].
    + constructor; [done|]. eapply Forall_impl; [exact Hall|].
      intros c. by apply cellInside_dims.
    + intros c Hc. destruct (decide (c ∈ ports)) as [Hin'|Hout]; [by apply Hset|].
      apply elem_of_cons in Hc as [->|Hc]; [|done]. by rewrite Hkeep.
    + intros c Hc. apply not_elem_of_cons in Hc as [Hne Hc].
      rewrite Hkeep by done. by apply Hother.
Qed.


Lemma setDeniedPorts_Ret allowedSystems w gridSystems finderGrid finderGrid' :
  setDeniedPorts allowedSystems w gridSystems finderGrid = Ret finderGrid' ->
  PathFinding.width finderGrid' = PathFinding.width finderGrid /\
  PathFinding.height finderGrid' = PathFinding.height finderGrid /\
  (forall c, denied allowedSystems gridSystems c -> weight (nodes finderGrid' c) = w) /\
  (forall c, ~ denied allowedSystems gridSystems c ->
             weight (nodes finderGrid' c) = weight (nodes finderGrid c)).
Proof.
  unfold setDeniedPorts, denied. generalize (values gridSystems) as l.
  intros l. revert finderGrid.
  induction l as [|gridSS l IH]; intros fg Hf.
  - inversion Hf; subst. split; [done|]. split; [done|].
    split; [|done]. intros c (g & Hg & _). by apply elem_of_nil in Hg.
  - rewrite forOf_cons in Hf. case_bool_decide as Hallowed.
    + simpl in Hf. apply IH in Hf as (Hw & Hh & Hset & Hkeep).
      split; [done|]. split; [done|]. split.
      * intros c (g & Hg & Hng & Hc). apply Hset.
        apply elem_of_cons in Hg as [->|Hg]; [done|]. by exists g.
      * intros c Hc. apply Hkeep. intros (g & Hg & Hng & Hcg). apply Hc.
        exists g. split; [by right|done].
    + destruct (forOf _ (GridSystem.ports gridSS) fg) as [fg1|e] eqn:Hp;
        simpl in Hf; [|done].
      apply setPorts_Ret in Hp as (_ & Hw1 & Hh1 & Hset1 & Hkeep1).
      apply IH in Hf as (Hw & Hh & Hset & Hkeep).
      split; [congruence|]. split; [congruence|]. split.
      * intros c (g & Hg & Hng & Hc).
        destruct (decide (c ∈ GridSystem.ports gridSS)) as [Hin|Hout].
        -- destruct (deniedIn_dec allowedSystems l c) as [Hd|Hnd]; [by apply Hset|].
           rewrite Hkeep by done. by apply Hset1.
        -- apply Hset. apply elem_of_cons in Hg as [->|Hg]; [done|]. by exists g.
      * intros c Hc. rewrite Hkeep.
        -- apply Hkeep1. intros Hin. apply Hc. exists gridSS. split; [by left|done].
        -- intros (g & Hg & Hng & Hcg). apply Hc. exists g. split; [by right|done].
Qed.



(** ** The route of a link *)

(** [port] is a port of [subsystem] with a port tile on top. *)
Definition available (grid : Raster) (subsystem : GridSystem.t) (port : Cell) : Prop :=
  port ∈ GridSystem.ports subsystem /\ portOnTop grid port = true.

Lemma elem_of_candidatesOf portsA portsB candidate :
  candidate ∈ candidatesOf portsA portsB <->
  candidate.1 ∈ portsA /\ candidate.2 ∈ portsB.
Proof.
  unfold candidatesOf. rewrite (sortWith_perm _ _).
  rewrite list_elem_of_In, in_flat_map. split.
  - intros (portA & HA & Hc). apply in_map_iff in Hc as (portB & <- & HB).
    simpl. split; by apply list_elem_of_In.
  - intros [HA HB]. exists candidate.1. split; [by apply list_elem_of_In|].
    apply in_map_iff. exists candidate.2. split; [by destruct candidate|].
    by apply list_elem_of_In.
Qed.

Section Routes.

Variable H : Heap.

Lemma findPathOn_Ret_inside pf startX startY endX endY grid r :
  findPathOn H pf startX startY endX endY grid = Ret r ->
  isInside grid startX startY = true /\
  (0 <=? endX) && (endX <? PathFinding.width grid) = true.
Proof.
  unfold findPathOn. intros Hr.
  destruct (getNodeAt grid startX startY) as [[start|]|e] eqn:Hs; simpl in Hr.
  - apply getNodeAt_Some in Hs as [_ Hs]. split; [done|].
    destruct (getNodeAt grid endX endY) eqn:He; [|done].
    by eapply getNodeAt_returns.
  - by destruct (getNodeAt grid endX endY).
  - done.
Qed.

(** What the loop over the candidates returns. *)
Lemma findRoute_Ret candidates : forall finderGrid found finderGrid',
  findRoute H candidates finderGrid = Ret (found, finderGrid') ->
  sameTerrain finderGrid finderGrid' /\
  match found with
  | Some (candidate, route) =>
      candidate ∈ candidates /\
      head route = Some candidate.1 /\
      last route = Some candidate.2 /\
      fourConnected route /\
      NoDup route /\
      Forall (cellInside finderGrid) route /\
      Forall (cellWalkable finderGrid) (tail route)
  | None => True
  end.
Proof.
  induction candidates as [|[portA portB] rest IH]; intros fg found fg' Hf.
  - inversion Hf; subst. split; [apply sameTerrain_refl|done].
  - simpl in Hf.
    destruct (findPathOn H defaultFinder portA.1 portA.2 portB.1 portB.2 (reset fg))
      as [[path fg1]|e] eqn:Hp; simpl in Hf; [|done].
    destruct (findPathOn_Ret_inside _ _ _ _ _ _ _ Hp) as [Hstart Hend].
    destruct (findPathOn_cells H defaultFinder portA.1 portA.2 portB.1 portB.2 fg
                Hstart Hend) as (path' & fg1' & Hp' & Ht & Hres).
    rewrite Hp in Hp'. inversion Hp'; subst path' fg1'; clear Hp'.
    destruct path as [|c path].
    + apply IH in Hf as [Ht' Hfound]. split; [by eapply sameTerrain_trans|].
      destruct found as [[candidate route]|]; [|done].
      destruct Hfound as (Hin & Hh & Hl & H4 & Hnd & Hi & Hw).
      split; [by right|]. repeat (split; [done|]). split.
      * eapply Forall_impl; [exact Hi|]. intros c. unfold cellInside.
        by rewrite (sameTerrain_inside fg fg1).
      * eapply Forall_impl; [exact Hw|]. intros c.
        apply cellWalkable_terrain. by apply sameTerrain_sym.
    + inversion Hf; subst; clear Hf. split; [done|].
      destruct Hres as [|(Hh & Hl & H4 & Hnd & Hw)]; [done|].
      split; [by left|]. simpl. destruct portA, portB.
      repeat (split; [done|]). split; [|done].
      simpl in Hh. inversion Hh; subst c. constructor; [done|].
      eapply Forall_impl; [exact Hw|]. intros c. apply cellWalkable_inside.
Qed.


End Routes.


(** ** The tiles of a route *)

Definition sameDims (grid grid' : Grid) : Prop :=
  PathFinding.width grid' = PathFinding.width grid /\
  PathFinding.height grid' = PathFinding.height grid.

Lemma sameDims_refl grid : sameDims grid grid.
Proof. by split. Qed.

Lemma sameDims_trans g1 g2 g3 : sameDims g1 g2 -> sameDims g2 g3 -> sameDims g1 g3.
Proof. intros [? ?] [? ?]. split; congruence. Qed.



(** Whatever is drawn, the cell of the route gets the weight 2. *)
Lemma drawTile_finder link portA portB subsystemA subsystemB route i x y st st' :
  drawTile link portA portB subsystemA subsystemB route (i, (x, y)) st = Ret st' ->
  setWeightAt st.2 x y (Finite 2) = Ret st'.2.
Proof.
  destruct st as [grid finderGrid]. unfold drawTile. simpl.
  destruct (setWeightAt finderGrid x y (Finite 2)) as [finderGrid1|e]; simpl; [|done].
  destruct (cellAt grid x y) as [stack|]; [|done].
  destruct (existsb isBlackbox stack); [by intros [= <-]|].
  match goal with |- (?m ≫= _) = _ -> _ => destruct m as [around|e] end;
    simpl; [|done].
  destruct (tileOf _ _ _ _ _ _); [|by intros [= <-]].
  destruct (push _ _ _ _); simpl; [|done]. by intros [= <-].
Qed.

Lemma forOf_drawTile_Ret link portA portB subsystemA subsystemB route steps :
  forall st st',
  forOf (drawTile link portA portB subsystemA subsystemB route) steps st = Ret st' ->
  sameDims st.2 st'.2 /\
  (forall c, c ∈ steps.*2 -> weight (nodes st'.2 c) = Finite 2) /\
  (forall c, c ∉ steps.*2 -> weight (nodes st'.2 c) = weight (nodes st.2 c)).
Proof.
  induction steps as [|[i [x y]] steps IH]; intros st st' Hf.
  - inversion Hf; subst. split; [apply sameDims_refl|].
    split; [by intros c ?%elem_of_nil|done].
  - rewrite forOf_cons in Hf.
    destruct (drawTile _ _ _ _ _ _ _ st) as [st1|e] eqn:Ht; simpl in Hf; [|done].
    apply drawTile_finder, setWeightAt_Ret in Ht as (_ & Hw1 & Hh1 & Hxy & Hother).
    apply IH in Hf as (Hd & Hset & Hkeep).
    split; [by apply (sameDims_trans _ st1.2)|]. split.
    + intros c Hc. destruct (decide (c ∈ steps.*2)) as [Hin|Hout]; [by apply Hset|].
      simpl in Hc. apply elem_of_cons in Hc as [->|Hc]; [|done]. by rewrite Hkeep.
    + intros c Hc. simpl in Hc. apply not_elem_of_cons in Hc as [Hne Hc].
      rewrite Hkeep by done. by apply Hother.
Qed.





Lemma steps_of_route (route : list Cell) :
  (imap (fun i cell => (Z.of_nat i, cell)) route).*2 = route /\
  Forall (fun step : Z * Cell =>
            0 <= step.1 < Z.of_nat (length route) /\ step.2 ∈ route)
    (imap (fun i cell => (Z.of_nat i, cell)) route).
Proof.
  split.
  - rewrite fmap_imap. apply list_eq. intros i. rewrite list_lookup_imap.
    by destruct (route !! i).
  - apply Forall_forall. intros step (i & c & -> & Hi)%elem_of_lookup_imap_1. simpl.
    pose proof (lookup_lt_Some _ _ _ Hi). split; [lia|].
    by eapply list_elem_of_lookup_2.
Qed.


(** ** One link *)

(** The systems a route of [link] may go through: its two ends and the
    systems above them. *)
Definition allowedSystemsOf (link : RuntimeLink) : list string :=
  [a link; b link] ++ from_option idsAbove [] (systemA link)
                   ++ from_option idsAbove [] (systemB link).


Section OneLink.

Variable H : Heap.

(** The steps of [drawLink] that returned. *)
Lemma drawLink_Ret link st st' :
  drawLink H link st = Ret st' ->
  exists subsystemA subsystemB fg1 found fg2 fg3,
    gridSystems st.1 !! a link = Some subsystemA /\
    gridSystems st.1 !! b link = Some subsystemB /\
    setDeniedPorts (allowedSystemsOf link) Infinity (gridSystems st.1) st.2 = Ret fg1 /\
    findRoute H
      (candidatesOf (List.filter (portOnTop (grid st.1)) (GridSystem.ports subsystemA))
                    (List.filter (portOnTop (grid st.1)) (GridSystem.ports subsystemB)))
      fg1 = Ret (found, fg2) /\
    match found with
    | Some (candidate, route) =>
        routes st'.1 = recordRoute (routes st.1) (a link) (b link) route /\
        exists grid3,
          forOf (drawTile link candidate.1 candidate.2 subsystemA subsystemB route)
            (imap (fun i cell => (Z.of_nat i, cell)) route) (grid st.1, fg2)
          = Ret (grid3, fg3) /\
          grid st'.1 = grid3
    | None => routes st'.1 = routes st.1 /\ fg3 = fg2 /\ ~ routeFound H link st
    end /\
    setDeniedPorts (allowedSystemsOf link) (Finite 1) (gridSystems st.1) fg3 = Ret st'.2.
Proof.
  unfold drawLink. intros Hd.
  destruct (searchLink H link st) as [[[[[allowed subsystemA] subsystemB] found] fg2]|e]
    eqn:Hs; simpl in Hd; [|done].
  assert (Hnot : found = None -> ~ routeFound H link st).
  { intros -> (? & ? & ? & ? & ? & ? & Hfound). congruence. }
  destruct st as [sim fg]. unfold searchLink in Hs. simpl in *.
  unfold allowedSystemsOf.
  destruct (systemA link) as [nodeA|]; [|done].
  destruct (systemB link) as [nodeB|]; [|done]. simpl.
  destruct (setDeniedPorts _ Infinity _ _) as [fg1|e] eqn:Hclose; simpl in Hs; [|done].
  destruct (gridSystems sim !! a link) as [sA|]; [|done].
  destruct (gridSystems sim !! b link) as [sB|]; [|done].
  destruct (findRoute H _ fg1) as [[found' fg2']|e] eqn:Hf; simpl in Hs; [|done].
  injection Hs as <- <- <- <- <-.
  destruct found' as [[[portA portB] route]|].
  - destruct (forOf _ _ _) as [[grid3 fg3]|e] eqn:Htiles; simpl in Hd; [|done].
    destruct (setDeniedPorts _ (Finite 1) _ _) as [fg4|e] eqn:Hopen; simpl in Hd; [|done].
    injection Hd as <-. simpl.
    exists sA, sB, fg1, (Some ((portA, portB), route)), fg2', fg3.
    repeat (split; [done|]). split; [|done]. split; [done|]. by exists grid3.
  - simpl in Hd.
    destruct (setDeniedPorts _ (Finite 1) _ _) as [fg4|e] eqn:Hopen; simpl in Hd; [|done].
    injection Hd as <-. simpl.
    exists sA, sB, fg1, None, fg2', fg2'.
    repeat (split; [done|]). split; [|done]. split; [done|]. split; [done|]. by apply Hnot.
Qed.

Lemma denied_not_walkable allowedSystems gridSystems finderGrid finderGrid' c :
  setDeniedPorts allowedSystems Infinity gridSystems finderGrid = Ret finderGrid' ->
  cellWalkable finderGrid' c -> ~ denied allowedSystems gridSystems c.
Proof.
  intros Hclose Hw Hden. apply setDeniedPorts_Ret in Hclose as (_ & _ & Hset & _).
  specialize (Hset c Hden). unfold cellWalkable, isWalkableAt in Hw.
  apply andb_prop in Hw as [_ Hw]. apply bool_decide_eq_true in Hw.
  destruct c as [x y]. by simpl in Hw.
Qed.

(** X18: the route recorded for a link joins a port of its first system to
    a port of its second system, both with a port tile on top; its cells are
    distinct, each one cardinal step from the one before, and after the
    first none is a port of a system that is neither an end of the link nor
    above one. *)
Theorem drawLink_route_joins_ports (link : RuntimeLink) (st st' : SystemSimulator * Grid)
    (subsystemA subsystemB : GridSystem.t) :
  drawLink H link st = Ret st' ->
  gridSystems st.1 !! a link = Some subsystemA ->
  gridSystems st.1 !! b link = Some subsystemB ->
  (routes st'.1 = routes st.1 /\ ~ routeFound H link st) \/
  exists route portA portB,
    routes st'.1 = recordRoute (routes st.1) (a link) (b link) route /\
    head route = Some portA /\
    last route = Some portB /\
    available (grid st.1) subsystemA portA /\
    available (grid st.1) subsystemB portB /\
    fourConnected route /\
    NoDup route /\
    Forall (fun c => ~ denied (allowedSystemsOf link) (gridSystems st.1) c) (tail route).
Proof.
  intros Hd HA HB.
  apply drawLink_Ret in Hd
    as (sA & sB & fg1 & found & fg2 & fg3 & HA' & HB' & Hclose & Hfind & Hfound & _).
  rewrite HA in HA'. rewrite HB in HB'. inversion HA'; inversion HB'; subst sA sB.
  destruct found as [[[portA portB] route]|].
  - right. destruct Hfound as [Hroutes _].
    apply findRoute_Ret in Hfind as (_ & Hin & Hh & Hl & H4 & Hnd & _ & Hw).
    apply elem_of_candidatesOf in Hin as [HpA HpB]. simpl in *.
    apply list_elem_of_In, filter_In in HpA as [HpA HtopA].
    apply list_elem_of_In, filter_In in HpB as [HpB HtopB].
    exists route, portA, portB. repeat (split; [done|]).
    split; [split; [by apply list_elem_of_In|done]|].
    split; [split; [by apply list_elem_of_In|done]|].
    repeat (split; [done|]).
    eapply Forall_impl; [exact Hw|]. intros c.
    by apply (denied_not_walkable _ _ st.2 fg1).
  - left. by destruct Hfound as (? & _ & ?).
Qed.

(** X19: when a link is drawn, the ports of the systems that are not
    allowed end at the weight 1, whatever their weight was; of the other
    cells, those of the route end at the weight 2, and the rest keeps its
    weight. *)
Theorem drawLink_finder_weights (link : RuntimeLink) (st st' : SystemSimulator * Grid)
    (c : Cell) :
  drawLink H link st = Ret st' ->
  (denied (allowedSystemsOf link) (gridSystems st.1) c ->
   weight (nodes st'.2 c) = Finite 1) /\
  (~ denied (allowedSystemsOf link) (gridSystems st.1) c ->
   (routes st'.1 = routes st.1 /\ ~ routeFound H link st /\
    weight (nodes st'.2 c) = weight (nodes st.2 c)) \/
   (exists route,
      routes st'.1 = recordRoute (routes st.1) (a link) (b link) route /\
      weight (nodes st'.2 c) = if decide (c ∈ route) then Finite 2
                               else weight (nodes st.2 c))).
Proof.
  intros Hd.
  apply drawLink_Ret in Hd
    as (sA & sB & fg1 & found & fg2 & fg3 & _ & _ & Hclose & Hfind & Hfound & Hopen).
  apply setDeniedPorts_Ret in Hopen as (_ & _ & Hone & Hkeep4).
  split; [apply Hone|]. intros Hnot. rewrite (Hkeep4 c Hnot).
  apply setDeniedPorts_Ret in Hclose as (_ & _ & _ & Hkeep1).
  apply findRoute_Ret in Hfind as ((_ & _ & Hsame) & _).
  destruct found as [[[portA portB] route]|].
  - right. destruct Hfound as (Hroutes & grid3 & Htiles & _). exists route. split; [done|].
    apply forOf_drawTile_Ret in Htiles as (_ & Hset & Hkeep3). simpl in *.
    rewrite (proj1 (steps_of_route route)) in Hset, Hkeep3.
    case_decide as Hc; [by apply Hset|].
    rewrite (Hkeep3 c Hc), Hsame. by apply Hkeep1.
  - left. destruct Hfound as (Hroutes & -> & Hnf). split; [done|]. split; [done|].
    rewrite Hsame. by apply Hkeep1.
Qed.



End OneLink.


(** ** The tiles along a route *)

Lemma fourConnected_lookup (path : list Cell) : forall (k : nat) c d,
  fourConnected path -> path !! k = Some c -> path !! S k = Some d -> adjacent c d.
Proof.
  induction path as [|x path IH]; intros k c d H4 Hc Hd; [done|].
  destruct path as [|y path]; [done|]. destruct H4 as [Hxy H4].
  destruct k as [|k].
  - simpl in Hc, Hd. by inversion Hc; inversion Hd; subst.
  - by apply (IH k c d).
Qed.

(** Between two neighbours that differ, a cell has a tile. *)
Lemma tileOf_adjacent x y (before after : Cell) :
  adjacent before (x, y) -> adjacent (x, y) after -> before <> after ->
  is_Some (tileOf x y before.1 before.2 after.1 after.2).
Proof.
  destruct before as [xb yb], after as [xa ya]. unfold adjacent. simpl.
  intros Hb Ha Hne.
  assert (Hb' : (xb = x - 1 /\ yb = y) \/ (xb = x + 1 /\ yb = y) \/
                (xb = x /\ yb = y - 1) \/ (xb = x /\ yb = y + 1)) by lia.
  assert (Ha' : (xa = x - 1 /\ ya = y) \/ (xa = x + 1 /\ ya = y) \/
                (xa = x /\ ya = y - 1) \/ (xa = x /\ ya = y + 1)) by lia.
  clear Hb Ha.
  destruct Hb' as [[-> ->]|[[-> ->]|[[-> ->]|[-> ->]]]];
    destruct Ha' as [[-> ->]|[[-> ->]|[[-> ->]|[-> ->]]]];
    try (by destruct Hne);
    unfold tileOf; rewrite ?Z.gtb_ltb;
    repeat match goal with
           | |- context [?a =? ?b] => destruct (Z.eqb_spec a b); try lia
           | |- context [?a <? ?b] => destruct (Z.ltb_spec a b); try lia
           end;
    simpl; by eexists.
Qed.

Lemma drawTile_pushes link portA portB subsystemA subsystemB route (k : nat) cell
    before after st st' stack :
  drawTile link portA portB subsystemA subsystemB route (Z.of_nat k, cell) st = Ret st' ->
  (0 < k)%nat ->
  route !! (k - 1)%nat = Some before ->
  route !! S k = Some after ->
  adjacent before cell -> adjacent cell after -> before <> after ->
  cellAt st.1 cell.1 cell.2 = Some stack ->
  existsb isBlackbox stack = false ->
  exists direction,
    cellAt st'.1 cell.1 cell.2 = Some (stack ++ [SimulatorLink direction link]).
Proof.
  destruct cell as [x y], st as [grid finderGrid]. unfold drawTile. simpl.
  intros Hd Hk Hbefore Hafter Hb Ha Hne Hstack Hbb.
  destruct (setWeightAt finderGrid x y (Finite 2)) as [fg1|e]; simpl in Hd; [|done].
  rewrite Hstack, Hbb in Hd.
  pose proof (lookup_lt_Some _ _ _ Hafter) as Hlen.
  replace (Z.of_nat (length route) =? 1) with false in Hd by lia.
  replace (Z.of_nat k =? 0) with false in Hd by lia.
  replace (Z.of_nat k =? Z.of_nat (length route) - 1) with false in Hd by lia.
  assert (routeAt route (Z.of_nat k - 1) = Ret before) as Hrb.
  { unfold routeAt, at_. replace (Z.of_nat k - 1 <? 0) with false by lia.
    replace (Z.to_nat (Z.of_nat k - 1)) with (k - 1)%nat by lia. by rewrite Hbefore. }
  assert (routeAt route (Z.of_nat k + 1) = Ret after) as Hra.
  { unfold routeAt, at_. replace (Z.of_nat k + 1 <? 0) with false by lia.
    replace (Z.to_nat (Z.of_nat k + 1)) with (S k) by lia. by rewrite Hafter. }
  rewrite Hrb, Hra in Hd. simpl in Hd.
  destruct (tileOf_adjacent x y before after Hb Ha Hne) as [direction Htile].
  rewrite Htile in Hd.
  destruct (push grid x y (SimulatorLink direction link)) as [grid1|e] eqn:Hpush;
    simpl in Hd; [|done].
  inversion Hd; subst st'; clear Hd. simpl.
  apply push_cellAt in Hpush as (stack' & Hstack' & Hcells).
  rewrite Hstack in Hstack'. inversion Hstack'; subst stack'.
  exists direction. rewrite Hcells. by rewrite decide_True.
Qed.

Lemma forOf_drawTile_pushes link portA portB subsystemA subsystemB route steps :
  forall st st' (k : nat) cell before after stack,
  forOf (drawTile link portA portB subsystemA subsystemB route) steps st = Ret st' ->
  (Z.of_nat k, cell) ∈ steps ->
  (0 < k)%nat ->
  route !! (k - 1)%nat = Some before ->
  route !! S k = Some after ->
  adjacent before cell -> adjacent cell after -> before <> after ->
  cellAt st.1 cell.1 cell.2 = Some stack ->
  existsb isBlackbox stack = false ->
  exists tiles,
    cellAt st'.1 cell.1 cell.2 = Some (stack ++ tiles) /\
    tiles <> [] /\
    Forall (tileOfLinks [link]) tiles.
Proof.
  induction steps as [|step steps IH];
    intros st st' k cell before after stack Hf Hin Hk Hbefore Hafter Hb Ha Hne Hstack Hbb.
  - by apply elem_of_nil in Hin.
  - rewrite forOf_cons in Hf.
    destruct (drawTile _ _ _ _ _ _ step st) as [st1|e] eqn:Ht; simpl in Hf; [|done].
    apply elem_of_cons in Hin as [<-|Hin].
    + destruct (drawTile_pushes _ _ _ _ _ _ _ _ _ _ _ _ _ Ht Hk Hbefore Hafter Hb Ha Hne
                  Hstack Hbb) as [direction Hcell].
      apply forOf_drawTile_extends in Hf. specialize (Hf cell.1 cell.2).
      rewrite Hcell in Hf. destruct Hf as (tiles & Hfinal & Htiles & _).
      exists (SimulatorLink direction link :: tiles). split; [|split; [done|]].
      * by rewrite Hfinal, <- app_assoc.
      * constructor; [|done]. exists direction, link. split; [done|]. by left.
    + apply drawTile_extends in Ht. specialize (Ht cell.1 cell.2).
      rewrite Hstack in Ht. destruct Ht as (tiles1 & Hcell1 & Htiles1 & _).
      destruct (IH st1 st' k cell before after (stack ++ tiles1) Hf Hin Hk Hbefore Hafter
                  Hb Ha Hne Hcell1) as (tiles & Hfinal & Hnonempty & Htiles).
      { rewrite existsb_app, Hbb. simpl. by eapply tiles_not_blackbox. }
      exists (tiles1 ++ tiles). split; [by rewrite Hfinal, app_assoc|].
      split; [by destruct tiles1, tiles|]. by apply Forall_app.
Qed.

Section RouteTiles.

Variable H : Heap.

(** The tiles of a link whose route was found: every cell of the route,
    the two ends apart, that holds no blackbox gets at least one. *)
Lemma drawLink_pushes (link : RuntimeLink) (st st' : SystemSimulator * Grid) :
  drawLink H link st = Ret st' ->
  routeFound H link st ->
  exists route,
    routes st'.1 = recordRoute (routes st.1) (a link) (b link) route /\
    forall (k : nat) (cell : Cell) stack,
      (0 < k)%nat -> (S k < length route)%nat ->
      route !! k = Some cell ->
      cellAt (grid st.1) cell.1 cell.2 = Some stack ->
      existsb isBlackbox stack = false ->
      exists tiles,
        cellAt (grid st'.1) cell.1 cell.2 = Some (stack ++ tiles) /\
        tiles <> [] /\
        Forall (tileOfLinks [link]) tiles.
Proof.
  intros Hd Hfound.
  apply drawLink_Ret in Hd
    as (sA & sB & fg1 & found & fg2 & fg3 & _ & _ & _ & Hfind & Hres & _).
  destruct found as [[[portA portB] route]|]; [|by destruct Hres as (_ & _ & ?)].
  destruct Hres as (Hroutes & grid3 & Htiles & Hgrid).
  exists route. split; [done|].
  intros k cell stack Hk Hlen Hcell Hstack Hbb.
  apply findRoute_Ret in Hfind as (_ & _ & _ & _ & H4 & Hnd & _).
  destruct (lookup_lt_is_Some_2 route (k - 1)) as [before Hbefore]; [lia|].
  destruct (lookup_lt_is_Some_2 route (S k)) as [after Hafter]; [lia|].
  destruct (forOf_drawTile_pushes link portA portB sA sB route _ _ _ k cell before after
              stack Htiles) as (tiles & Hfinal & Hnonempty & Hall).
  - by apply (elem_of_lookup_imap_2 (fun i cell => (Z.of_nat i, cell))).
  - done.
  - done.
  - done.
  - apply (fourConnected_lookup route (k - 1)); [done|done|].
    by replace (S (k - 1)) with k by lia.
  - by apply (fourConnected_lookup route k).
  - intros ->. pose proof (NoDup_lookup _ _ _ _ Hnd Hbefore Hafter). lia.
  - done.
  - done.
  - exists tiles. simpl in Hfinal. by rewrite Hgrid.
Qed.

(** X29: once all the links are drawn, [getLinkAt] answers with a link at
    every cell of the route found for a link, the two ends of the route
    apart, that held no blackbox: with that link, or with one drawn after
    it. *)
Theorem drawLinks_tiles_route (before after : list RuntimeLink) (link : RuntimeLink)
    (st st' : SystemSimulator * Grid) :
  drawLinks H (before ++ link :: after) st = Ret st' ->
  exists mid mid',
    drawLinks H before st = Ret mid /\
    drawLink H link mid = Ret mid' /\
    drawLinks H after mid' = Ret st' /\
    (routeFound H link mid ->
     exists route,
       routes mid'.1 = recordRoute (routes mid.1) (a link) (b link) route /\
       forall (k : nat) (cell : Cell) stack,
         (0 < k)%nat -> (S k < length route)%nat ->
         route !! k = Some cell ->
         cellAt (grid st.1) cell.1 cell.2 = Some stack ->
         existsb isBlackbox stack = false ->
         exists link',
           getLinkAt st'.1 (cell.1 - Boundaries.translateX (boundaries st.1))
                           (cell.2 - Boundaries.translateY (boundaries st.1))
             = Ret (Some link') /\
           link' ∈ link :: after).
Proof.
  intros Hd. unfold drawLinks in Hd. rewrite forOf_app in Hd.
  destruct (forOf (drawLink H) before st) as [mid|e] eqn:Hbefore; [|done].
  change (forOf (drawLink H) (link :: after) mid = Ret st') in Hd.
  rewrite forOf_cons in Hd.
  destruct (drawLink H link mid) as [mid'|e] eqn:Hlink; simpl in Hd; [|done].
  exists mid, mid'. split; [done|]. split; [done|]. split; [exact Hd|].
  intros Hfound.
  destruct (drawLink_pushes link mid mid' Hlink Hfound) as (route & Hroutes & Hpushed).
  exists route. split; [done|].
  intros k cell stack Hk Hlen Hcell Hstack Hbb.
  pose proof (drawLinks_extends H before st mid Hbefore) as (_ & Hb0 & He0).
  pose proof (drawLink_extends H link mid mid' Hlink) as (_ & Hb1 & _).
  pose proof (drawLinks_extends H after mid' st' Hd) as (_ & Hb2 & He2).
  specialize (He0 cell.1 cell.2). rewrite Hstack in He0.
  destruct He0 as (tiles0 & Hmid & Htiles0 & _).
  destruct (Hpushed k cell (stack ++ tiles0) Hk Hlen Hcell Hmid)
    as (tiles1 & Hmid' & Hnonempty & Htiles1).
  { rewrite existsb_app, Hbb. simpl. by eapply tiles_not_blackbox. }
  specialize (He2 cell.1 cell.2). rewrite Hmid' in He2.
  destruct He2 as (tiles2 & Hfinal & Htiles2 & _).
  assert (Hlast : exists tiles direction link',
            tiles1 ++ tiles2 = tiles ++ [SimulatorLink direction link'] /\
            link' ∈ link :: after).
  { destruct tiles2 as [|tile tiles2 _] using rev_ind.
    - destruct tiles1 as [|tile tiles1 _] using rev_ind; [done|].
      apply Forall_app in Htiles1 as [_ Htile]. apply Forall_cons in Htile as [Htile _].
      destruct Htile as (direction & link' & -> & ->%list_elem_of_singleton).
      exists tiles1, direction, link. split; [by rewrite app_nil_r|by left].
    - apply Forall_app in Htiles2 as [_ Htile]. apply Forall_cons in Htile as [Htile _].
      destruct Htile as (direction & link' & -> & Hin).
      exists (tiles1 ++ tiles2), direction, link'.
      split; [by rewrite app_assoc|by right]. }
  destruct Hlast as (tiles & direction & link' & Htiles & Hin).
  exists link'. split; [|done].
  unfold getLinkAt, getObjectsAt. rewrite Hb2, Hb1, Hb0. simpl.
  replace (cell.1 - Boundaries.translateX (boundaries st.1)
           + Boundaries.translateX (boundaries st.1)) with cell.1 by lia.
  replace (cell.2 - Boundaries.translateY (boundaries st.1)
           + Boundaries.translateY (boundaries st.1)) with cell.2 by lia.
  rewrite Hfinal. simpl. rewrite <- app_assoc, Htiles, app_assoc, rev_app_distr. done.
Qed.

End RouteTiles.

Lemma drawLinks_tiles_route_witness :
  exists st' mid',
    drawLinks ListHeap ([] ++ fooBar :: []) (row, newGrid 5 1 1) = Ret st' /\
    drawLink ListHeap fooBar (row, newGrid 5 1 1) = Ret mid' /\
    routeFound ListHeap fooBar (row, newGrid 5 1 1) /\
    exists route,
      routes mid'.1 = recordRoute (routes row) (a fooBar) (b fooBar) route /\
      forall (k : nat) (cell : Cell) stack,
        (0 < k)%nat -> (S k < length route)%nat ->
        route !! k = Some cell ->
        cellAt (grid row) cell.1 cell.2 = Some stack ->
        existsb isBlackbox stack = false ->
        exists link',
          getLinkAt st'.1 (cell.1 - Boundaries.translateX (boundaries row))
                          (cell.2 - Boundaries.translateY (boundaries row))
            = Ret (Some link') /\
          link' ∈ [fooBar].
Proof.
  destruct (drawLinks ListHeap ([] ++ fooBar :: []) (row, newGrid 5 1 1))
    as [st'|e] eqn:Hrun; [|vm_compute in Hrun; discriminate].
  destruct (drawLinks_tiles_route ListHeap [] [] fooBar (row, newGrid 5 1 1) st' Hrun)
    as (mid & mid' & Hbefore & Hlink & Hafter & Hroute).
  unfold drawLinks in Hbefore. cbn [forOf] in Hbefore. injection Hbefore as <-.
  assert (Hfound : routeFound ListHeap fooBar (row, newGrid 5 1 1)).
  { destruct (searchLink ListHeap fooBar (row, newGrid 5 1 1))
      as [[[[[allowed sA] sB] [[candidate route]|]] finderGrid]|e] eqn:Hsearch.
    - by exists allowed, sA, sB, candidate, route, finderGrid.
    - vm_compute in Hsearch. discriminate.
    - vm_compute in Hsearch. discriminate. }
  exists st', mid'.
  exact (conj eq_refl (conj Hlink (conj Hfound (Hroute Hfound)))).
Defined.

Lemma drawLink_route_joins_ports_witness :
  let foo := GridSystem.mk "foo" (-3) (-1) 0 0 (-3) 0 3 1 [(0, 0)] (Title.mk 0 0 0 0) false in
  let bar := GridSystem.mk "bar" 5 7 0 0 5 0 3 1 [(4, 0)] (Title.mk 0 0 0 0) false in
  exists st',
    drawLink ListHeap fooBar (row, newGrid 5 1 1) = Ret st' /\
    ((routes st'.1 = routes row /\ ~ routeFound ListHeap fooBar (row, newGrid 5 1 1)) \/
     exists route portA portB,
       routes st'.1 = recordRoute (routes row) (a fooBar) (b fooBar) route /\
       head route = Some portA /\
       last route = Some portB /\
       available (grid row) foo portA /\
       available (grid row) bar portB /\
       fourConnected route /\
       NoDup route /\
       Forall (fun c => ~ denied (allowedSystemsOf fooBar) (gridSystems row) c)
         (tail route)).
Proof.
  intros foo bar.
  destruct (drawLink ListHeap fooBar (row, newGrid 5 1 1)) as [st'|e] eqn:Hrun;
    [|vm_compute in Hrun; discriminate].
  exists st'. split; [reflexivity|].
  apply (drawLink_route_joins_ports ListHeap fooBar (row, newGrid 5 1 1) st' foo bar Hrun).
  - vm_compute. reflexivity.
  - vm_compute. reflexivity.
Defined.

Lemma drawLink_finder_weights_witness :
  exists st',
    drawLink ListHeap fooBar (row, newGrid 5 1 1) = Ret st' /\
    (denied (allowedSystemsOf fooBar) (gridSystems row) (2, 0) ->
     weight (nodes st'.2 (2, 0)) = Finite 1) /\
    (~ denied (allowedSystemsOf fooBar) (gridSystems row) (2, 0) ->
     (routes st'.1 = routes row /\ ~ routeFound ListHeap fooBar (row, newGrid 5 1 1) /\
      weight (nodes st'.2 (2, 0)) = weight (nodes (newGrid 5 1 1) (2, 0))) \/
     (exists route,
        routes st'.1 = recordRoute (routes row) (a fooBar) (b fooBar) route /\
        weight (nodes st'.2 (2, 0)) = if decide ((2, 0) ∈ route) then Finite 2
                                      else weight (nodes (newGrid 5 1 1) (2, 0)))).
Proof.
  destruct (drawLink ListHeap fooBar (row, newGrid 5 1 1)) as [st'|e] eqn:Hrun;
    [|vm_compute in Hrun; discriminate].
  exists st'. split; [reflexivity|].
  exact (drawLink_finder_weights ListHeap fooBar (row, newGrid 5 1 1) st' (2, 0) Hrun).
Defined.




(** ** The visible part of the world *)

(** [obj.type] is [System] or [Link]. *)
Definition isVisible (object : SimulatorObject) : bool :=
  match object with
  | SimulatorSubsystem _ _ _ => true
  | SimulatorLink _ _ => true
  | _ => false
  end.

(** The body of the two nested loops of [getVisibleWorldBoundaries]. *)
Definition see (grid : Raster) (cell : Z * Z) (v : Extent) : Exec Extent :=
  let '(i, j) := cell in
  match cellAt grid i j with
  | None => Throw TypeError
  | Some stack =>
      if existsb isVisible stack then
        Ret {| left := if i <? left v then i else left v;
               right := if i >? right v then i else right v;
               top := if j <? top v then j else top v;
               bottom := if j >? bottom v then j else bottom v |}
      else Ret v
  end.

Definition getVisibleWorldBoundaries (sim : SystemSimulator) : Exec Extent :=
  let b := boundaries sim in
  v ← forOf (see (grid sim))
        (list_prod (seqZ 0 (Boundaries.width b)) (seqZ 0 (Boundaries.height b)))
        (mkExtent (Boundaries.width b) 0 (Boundaries.height b) 0);
  (* Happens when nothing is visible on the grid. *)
  let left := if left v >? right v then right v else left v in
  let top := if top v >? bottom v then bottom v else top v in
  Ret {| left := left - Boundaries.translateX b;
         right := right v - Boundaries.translateX b;
         top := top - Boundaries.translateY b;
         bottom := bottom v - Boundaries.translateY b |}.

Definition visibleAt (grid : Raster) (c : Z * Z) : Prop :=
  exists stack, cellAt grid c.1 c.2 = Some stack /\ existsb isVisible stack = true.

(** The extremes after the cells [processed], on a grid [w] by [h]. *)
Definition Seen (grid : Raster) (w h : Z) (processed : list (Z * Z)) (v : Extent) : Prop :=
  (forall c, c ∈ processed -> visibleAt grid c ->
             left v <= c.1 <= right v /\ top v <= c.2 <= bottom v) /\
  (((forall c, c ∈ processed -> ~ visibleAt grid c) /\ v = mkExtent w 0 h 0) \/
   ((exists c, c ∈ processed /\ visibleAt grid c /\ c.1 = left v) /\
    (exists c, c ∈ processed /\ visibleAt grid c /\ c.1 = right v) /\
    (exists c, c ∈ processed /\ visibleAt grid c /\ c.2 = top v) /\
    (exists c, c ∈ processed /\ visibleAt grid c /\ c.2 = bottom v))).

Lemma see_Seen grid w h processed v i j :
  Seen grid w h processed v ->
  is_Some (cellAt grid i j) -> 0 <= i < w -> 0 <= j < h ->
  exists v', see grid (i, j) v = Ret v' /\ Seen grid w h (processed ++ [(i, j)]) v'.
Proof.
  intros [Hbounds Hattained] [stack Hstack] Hi Hj. unfold see. rewrite Hstack.
  destruct (existsb isVisible stack) eqn:Hvis.
  - eexists. split; [done|].
    assert (Hnew : visibleAt grid (i, j)) by by exists stack.
    assert (Hlast : (i, j) ∈ processed ++ [(i, j)]).
    { apply elem_of_app. right. by left. }
    assert (Hold : forall c, c ∈ processed -> c ∈ processed ++ [(i, j)]).
    { intros c Hc. apply elem_of_app. by left. }
    split.
    + intros c [Hc| ->%list_elem_of_singleton]%elem_of_app Hcvis; simpl.
      * specialize (Hbounds c Hc Hcvis).
        repeat match goal with |- context [if ?b then _ else _] => destruct b eqn:? end;
          lia.
      * repeat match goal with |- context [if ?b then _ else _] => destruct b eqn:? end;
          lia.
    + right. simpl. destruct Hattained as [[Hnone ->]|(Hl & Hr & Ht & Hb)]; simpl.
      * replace (i <? w) with true by lia. replace (j <? h) with true by lia.
        repeat split; exists (i, j); (split; [done|]); (split; [done|]); simpl;
          try done.
        -- destruct (i >? 0) eqn:?; lia.
        -- destruct (j >? 0) eqn:?; lia.
      * repeat split.
        -- destruct (i <? left v); [by exists (i, j)|].
           destruct Hl as (c & ? & ? & ?). exists c. auto.
        -- destruct (i >? right v); [by exists (i, j)|].
           destruct Hr as (c & ? & ? & ?). exists c. auto.
        -- destruct (j <? top v); [by exists (i, j)|].
           destruct Ht as (c & ? & ? & ?). exists c. auto.
        -- destruct (j >? bottom v); [by exists (i, j)|].
           destruct Hb as (c & ? & ? & ?). exists c. auto.
  - exists v. split; [done|]. split.
    + intros c [Hc| ->%list_elem_of_singleton]%elem_of_app Hcvis; [by apply Hbounds|].
      destruct Hcvis as (stack' & Hs' & Hv'). simpl in Hs'. congruence.
    + destruct Hattained as [[Hnone ->]|(Hl & Hr & Ht & Hb)]; [left|right].
      * split; [|done].
        intros c [Hc| ->%list_elem_of_singleton]%elem_of_app Hcvis; [by eapply Hnone|].
        destruct Hcvis as (stack' & Hs' & Hv'). simpl in Hs'. congruence.
      * repeat split.
        -- destruct Hl as (c & Hc & ? & ?). exists c. split; [|done].
           apply elem_of_app. by left.
        -- destruct Hr as (c & Hc & ? & ?). exists c. split; [|done].
           apply elem_of_app. by left.
        -- destruct Ht as (c & Hc & ? & ?). exists c. split; [|done].
           apply elem_of_app. by left.
        -- destruct Hb as (c & Hc & ? & ?). exists c. split; [|done].
           apply elem_of_app. by left.
Qed.

Lemma forOf_see_Seen grid w h cells : forall processed v,
  Seen grid w h processed v ->
  Forall (fun c => is_Some (cellAt grid c.1 c.2) /\ 0 <= c.1 < w /\ 0 <= c.2 < h) cells ->
  exists v', forOf (see grid) cells v = Ret v' /\ Seen grid w h (processed ++ cells) v'.
Proof.
  induction cells as [|[i j] cells IH]; intros processed v Hseen Hcells.
  - exists v. by rewrite app_nil_r.
  - apply Forall_cons in Hcells as [(Hcell & Hi & Hj) Hcells]. simpl in Hcell, Hi, Hj.
    destruct (see_Seen grid w h processed v i j Hseen Hcell Hi Hj) as (v1 & Hv1 & Hseen1).
    rewrite forOf_cons, Hv1. simpl.
    destruct (IH _ _ Hseen1 Hcells) as (v' & Hv' & Hseen').
    exists v'. split; [done|]. by rewrite <- app_assoc in Hseen'.
Qed.

(** X21: on a grid that has the shape of the boundaries,
    [getVisibleWorldBoundaries] returns a rectangle of world coordinates
    that holds every coordinate at which a system tile or a link tile is
    found; when there is none, the rectangle is the single cell of the
    raster's origin, and otherwise each of its four sides holds such a
    tile. *)
Theorem getVisibleWorldBoundaries_tight (sim : SystemSimulator) :
  hasShape (boundaries sim) (grid sim) ->
  0 <= Boundaries.width (boundaries sim) ->
  0 <= Boundaries.height (boundaries sim) ->
  let visible := fun worldX worldY =>
    exists objects,
      getObjectsAt sim worldX worldY = Ret objects /\ existsb isVisible objects = true in
  exists v,
    getVisibleWorldBoundaries sim = Ret v /\
    (forall worldX worldY,
       visible worldX worldY ->
       left v <= worldX <= right v /\ top v <= worldY <= bottom v) /\
    (((forall worldX worldY, ~ visible worldX worldY) /\
      v = mkExtent (- Boundaries.translateX (boundaries sim))
                   (- Boundaries.translateX (boundaries sim))
                   (- Boundaries.translateY (boundaries sim))
                   (- Boundaries.translateY (boundaries sim))) \/
     ((exists worldY, visible (left v) worldY) /\
      (exists worldY, visible (right v) worldY) /\
      (exists worldX, visible worldX (top v)) /\
      (exists worldX, visible worldX (bottom v)))).
Proof.
  intros Hshape Hw Hh visible. unfold getVisibleWorldBoundaries.
  set (b := boundaries sim) in *.
  set (cells := list_prod (seqZ 0 (Boundaries.width b)) (seqZ 0 (Boundaries.height b))).
  assert (Hcells : forall c, c ∈ cells <->
            0 <= c.1 < Boundaries.width b /\ 0 <= c.2 < Boundaries.height b).
  { intros [i j]. unfold cells. rewrite list_elem_of_In, in_prod_iff.
    rewrite <- !list_elem_of_In, !elem_of_seqZ. simpl. lia. }
  destruct (forOf_see_Seen (grid sim) (Boundaries.width b) (Boundaries.height b) cells []
              (mkExtent (Boundaries.width b) 0 (Boundaries.height b) 0))
    as (v & Hv & Hbounds & Hattained).
  { split; [by intros c ?%elem_of_nil|]. left. split; [by intros c ?%elem_of_nil|done]. }
  { apply Forall_forall. intros c Hc. apply Hcells in Hc. split; [|done].
    by apply Hshape. }
  rewrite Hv. simpl in *. eexists. split; [done|]. simpl.
  assert (Hvis : forall worldX worldY, visible worldX worldY <->
            visibleAt (grid sim) (worldX + Boundaries.translateX b,
                                  worldY + Boundaries.translateY b)).
  { intros wx wy. unfold visible, visibleAt, getObjectsAt. fold b. simpl. split.
    - intros (objects & [= <-] & Hobj).
      destruct (cellAt _ _ _) as [stack|]; [|done]. by exists stack.
    - intros (stack & -> & Hobj). by exists stack. }
  assert (Hin : forall c, visibleAt (grid sim) c -> c ∈ cells).
  { intros c (stack & Hs & _). apply Hcells, Hshape. by exists stack. }
  destruct Hattained as [[Hnone ->]|(Hl & Hr & Ht & Hb)]; simpl.
  - assert (Hno : forall worldX worldY, ~ visible worldX worldY).
    { intros wx wy Hwx%Hvis. by apply (Hnone _ (Hin _ Hwx)). }
    split; [intros wx wy Hwx; by destruct (Hno wx wy)|]. left. split; [done|].
    destruct (Boundaries.width b >? 0) eqn:?, (Boundaries.height b >? 0) eqn:?;
      f_equal; lia.
  - assert (Hlr : left v <= right v).
    { destruct Hl as (c & Hc & Hcv & <-). apply (Hbounds c Hc Hcv). }
    assert (Htb : top v <= bottom v).
    { destruct Ht as (c & Hc & Hcv & <-). apply (Hbounds c Hc Hcv). }
    replace (left v >? right v) with false by lia.
    replace (top v >? bottom v) with false by lia.
    split.
    + intros wx wy Hwx%Hvis. specialize (Hbounds _ (Hin _ Hwx) Hwx). simpl in Hbounds.
      lia.
    + right. repeat split.
      * destruct Hl as ([i j] & _ & Hcv & <-). exists (j - Boundaries.translateY b).
        apply Hvis. simpl.
        by replace (i - Boundaries.translateX b + Boundaries.translateX b) with i by lia;
          replace (j - Boundaries.translateY b + Boundaries.translateY b) with j by lia.
      * destruct Hr as ([i j] & _ & Hcv & <-). exists (j - Boundaries.translateY b).
        apply Hvis. simpl.
        by replace (i - Boundaries.translateX b + Boundaries.translateX b) with i by lia;
          replace (j - Boundaries.translateY b + Boundaries.translateY b) with j by lia.
      * destruct Ht as ([i j] & _ & Hcv & <-). exists (i - Boundaries.translateX b).
        apply Hvis. simpl.
        by replace (i - Boundaries.translateX b + Boundaries.translateX b) with i by lia;
          replace (j - Boundaries.translateY b + Boundaries.translateY b) with j by lia.
      * destruct Hb as ([i j] & _ & Hcv & <-). exists (i - Boundaries.translateX b).
        apply Hvis. simpl.
        by replace (i - Boundaries.translateX b + Boundaries.translateX b) with i by lia;
          replace (j - Boundaries.translateY b + Boundaries.translateY b) with j by lia.
Qed.


Lemma getVisibleWorldBoundaries_tight_witness :
  let visible := fun worldX worldY =>
    exists objects,
      getObjectsAt blank worldX worldY = Ret objects /\ existsb isVisible objects = true in
  exists v,
    getVisibleWorldBoundaries blank = Ret v /\
    (forall worldX worldY,
       visible worldX worldY ->
       left v <= worldX <= right v /\ top v <= worldY <= bottom v) /\
    (((forall worldX worldY, ~ visible worldX worldY) /\
      v = mkExtent (- Boundaries.translateX (boundaries blank))
                   (- Boundaries.translateX (boundaries blank))
                   (- Boundaries.translateY (boundaries blank))
                   (- Boundaries.translateY (boundaries blank))) \/
     ((exists worldY, visible (left v) worldY) /\
      (exists worldY, visible (right v) worldY) /\
      (exists worldX, visible worldX (top v)) /\
      (exists worldX, visible worldX (bottom v)))).
Proof.
  apply (getVisibleWorldBoundaries_tight blank).
  - apply createGrid_shape. reflexivity.
  - simpl. lia.
  - simpl. lia.
Defined.


End LayoutFacts.

(** * The canvas ([frontend/simulation.ts]) *)

Module Canvas.

(** The types of objects the canvas tells apart. *)
Inductive SimulatorObjectType : Type :=
| BlackBox
| WhiteBox
| Link
| Port
| SystemMargin
| SystemTopRightCorner
| SystemTitle.

#[global] Instance SimulatorObjectType_eq_dec : EqDecision SimulatorObjectType.
Proof. solve_decision. Defined.

(** An object of the layout: its type, and the fields [system] and [link]
    when it has them; a system and a link are referred to by their ids. *)
Record SimulatorObject : Type := mkObject {
  type : SimulatorObjectType;
  system : option string;
  link : option string;
}.

(** [SimulatorObject[][][]], the grid of the simulator itself: [getLayout]
    returns the array, not a copy. *)
Abbreviation Layout := (list (list (list SimulatorObject))).

Definition at_ {A : Type} (array : list A) (i : Z) : option A :=
  if i <? 0 then None else array !! Z.to_nat i.

(** [layout[x]?.[y]] *)
Definition cellAt (layout : Layout) (x y : Z) : option (list SimulatorObject) :=
  column ← at_ layout x; at_ column y.

(** [getObjectsAt(x, y)]: the cell of the layout, or a new empty array. *)
Definition getObjectsAt (layout : Layout) (x y : Z) : list SimulatorObject :=
  default [] (cellAt layout x y).

(** What [getObjectsAt(x, y).reverse()] does to the layout: the array is
    reversed in place, and it is the cell of the layout when there is one. *)
Definition reverseAt (layout : Layout) (x y : Z) : Layout :=
  match at_ layout x with
  | Some column =>
      match at_ column y with
      | Some objects => <[Z.to_nat x := <[Z.to_nat y := rev objects]> column]> layout
      | None => layout
      end
  | None => layout
  end.

Definition isBox (obj : SimulatorObject) : bool :=
  bool_decide (type obj = BlackBox) || bool_decide (type obj = WhiteBox).

Definition isLink (obj : SimulatorObject) : bool := bool_decide (type obj = Link).

(** [getSubsystemAt(x, y)]: the result and the layout it leaves. *)
Definition getSubsystemAt (layout : Layout) (x y : Z) : option string * Layout :=
  let objects := rev (getObjectsAt layout x y) in
  (object ← List.find isBox objects; system object, reverseAt layout x y).

(** [getLinkAt(x, y)]: the result and the layout it leaves. *)
Definition getLinkAt (layout : Layout) (x y : Z) : option string * Layout :=
  let objects := rev (getObjectsAt layout x y) in
  (object ← List.find isLink objects; link object, reverseAt layout x y).

(** [getisSystemTopRightCorner(x, y)] *)
Definition getisSystemTopRightCorner (layout : Layout) (x y : Z) : bool :=
  existsb (fun obj => bool_decide (type obj = SystemTopRightCorner)) (getObjectsAt layout x y).

Lemma at_lookup {A : Type} (array : list A) i v :
  at_ array i = Some v <-> 0 <= i /\ array !! Z.to_nat i = Some v.
Proof.
  unfold at_. destruct (i <? 0) eqn:E; split.
  - done.
  - intros [? _]. lia.
  - intros Hv. split; [lia|done].
  - by intros [_ ?].
Qed.

Lemma at_insert {A : Type} (array : list A) i j v :
  0 <= i -> (Z.to_nat i < length array)%nat ->
  at_ (<[Z.to_nat i := v]> array) j = if decide (j = i) then Some v else at_ array j.
Proof.
  intros Hi Hl. unfold at_. destruct (j <? 0) eqn:Hj.
  - by rewrite decide_False by lia.
  - destruct (decide (j = i)) as [->|Hne].
    + by rewrite list_lookup_insert_eq.
    + by rewrite list_lookup_insert_ne by lia.
Qed.

Lemma getObjectsAt_reverseAt layout x y x' y' :
  getObjectsAt (reverseAt layout x y) x' y' =
    if decide (x' = x /\ y' = y) then rev (getObjectsAt layout x y)
    else getObjectsAt layout x' y'.
Proof.
  unfold getObjectsAt, reverseAt, cellAt.
  destruct (at_ layout x) as [column|] eqn:Hx; simpl.
  2: { case_decide as Hxy; [|done]. destruct Hxy as [-> ->]. by rewrite Hx. }
  destruct (at_ column y) as [objects|] eqn:Hy; simpl.
  2: { case_decide as Hxy; [|done]. destruct Hxy as [-> ->]. rewrite Hx. simpl.
       by rewrite Hy. }
  apply at_lookup in Hx as [Hx0 Hx], Hy as [Hy0 Hy].
  pose proof (lookup_lt_Some _ _ _ Hx) as Hxl.
  pose proof (lookup_lt_Some _ _ _ Hy) as Hyl.
  rewrite at_insert by done. destruct (decide (x' = x)) as [->|Hne]; simpl.
  - rewrite at_insert by done. destruct (decide (y' = y)) as [->|Hney].
    + by rewrite decide_True.
    + rewrite decide_False by lia.
      assert (at_ layout x = Some column) as -> by by apply at_lookup.
      done.
  - by rewrite decide_False by lia.
Qed.

Lemma reverseAt_twice layout x y : reverseAt (reverseAt layout x y) x y = layout.
Proof.
  unfold reverseAt.
  destruct (at_ layout x) as [column|] eqn:Hx; [|by rewrite Hx].
  destruct (at_ column y) as [objects|] eqn:Hy; [|by rewrite Hx, Hy].
  apply at_lookup in Hx as [Hx0 Hx], Hy as [Hy0 Hy].
  pose proof (lookup_lt_Some _ _ _ Hx) as Hxl.
  pose proof (lookup_lt_Some _ _ _ Hy) as Hyl.
  unfold at_. replace (x <? 0) with false by lia. replace (y <? 0) with false by lia.
  rewrite list_lookup_insert_eq by done.
  rewrite list_lookup_insert_eq by done.
  rewrite !list_insert_insert_eq, rev_involutive.
  by rewrite (list_insert_id column), (list_insert_id layout).
Qed.

(** X22: [getLinkAt] returns the link of the topmost link object of the
    cell, and leaves the layout of the simulator with this cell reversed:
    every other cell is as it was. *)
Theorem getLinkAt_reverses_cell (layout : Layout) (x y : Z) :
  (getLinkAt layout x y).1 =
    (object ← List.find isLink (rev (getObjectsAt layout x y)); link object) /\
  forall x' y',
    getObjectsAt (getLinkAt layout x y).2 x' y' =
      if decide (x' = x /\ y' = y) then rev (getObjectsAt layout x y)
      else getObjectsAt layout x' y'.
Proof. split; [done|]. intros x' y'. apply getObjectsAt_reverseAt. Qed.

(** X23: a second call of [getLinkAt] at the same coordinates puts the
    layout back as it was, and reads the cell the other way round: it
    returns the link of the lowest link object of the cell.  The same holds
    of [getSubsystemAt] and the boxes. *)
Theorem lookups_twice (layout : Layout) (x y : Z) :
  let second := getLinkAt (getLinkAt layout x y).2 x y in
  let second' := getSubsystemAt (getSubsystemAt layout x y).2 x y in
  second.2 = layout /\
  second.1 = (object ← List.find isLink (getObjectsAt layout x y); link object) /\
  second'.2 = layout /\
  second'.1 = (object ← List.find isBox (getObjectsAt layout x y); system object).
Proof.
  unfold getLinkAt, getSubsystemAt. simpl.
  rewrite reverseAt_twice, getObjectsAt_reverseAt, decide_True by done.
  by rewrite rev_involutive.
Qed.

(** Two links that cross on one cell: the first call finds the one on top,
    the second the one below. *)
Example getLinkAt_crossing :
  let layout := [[[mkObject Link None (Some "below"); mkObject Link None (Some "above")]]] in
  (getLinkAt layout 0 0).1 = Some "above" /\
  (getLinkAt (getLinkAt layout 0 0).2 0 0).1 = Some "below".
Proof. by vm_compute. Qed.

End Canvas.

(** * The free space around a system ([getAvailableSpaceForSystemToRender]) *)

Module FreeSpace.

Import Canvas.

(** [RuntimeLimits] *)
Definition MaxSystemWidth : Z := 64.
Definition MaxSystemHeight : Z := 64.

(** The rectangle a sprite covers, in cells: the sprite is placed at
    [x1 * BlockSize], [y1 * BlockSize] and is [(x2 - x1 + 1) * BlockSize]
    wide and [(y2 - y1 + 1) * BlockSize] high. *)
Record Rect : Type := mkRect {
  x1 : Z;
  x2 : Z;
  y1 : Z;
  y2 : Z;
}.

(** [rectLayout]: an array of arrays of 0 and 1.  Every index the function
    reads or writes is inside of the arrays. *)
Abbreviation RectLayout := (Z -> Z -> Z).

Definition setCell (rectLayout : RectLayout) (i j v : Z) : RectLayout :=
  fun i' j' => if decide (i' = i /\ j' = j) then v else rectLayout i' j'.

Definition hasType (t : SimulatorObjectType) (obj : SimulatorObject) : bool :=
  bool_decide (type obj = t).

Definition nearSystemMargin (layout : Layout) (x y : Z) : bool :=
  existsb
    (fun cell : Z * Z => existsb (hasType SystemMargin) (getObjectsAt layout cell.1 cell.2))
    [ (x - 1, y); (x + 1, y); (x, y - 1); (x, y + 1);
      (x - 1, y - 1); (x + 1, y + 1); (x + 1, y - 1); (x - 1, y + 1) ].

(** The cell is marked with a 1: it belongs to the system, or it holds no
    box, port or margin and is next to no margin. *)
Definition isFree (layout : Layout) (canonicalId : string) (i j : Z) : bool :=
  let objects := getObjectsAt layout i j in
  if existsb (fun obj => isBox obj && bool_decide (system obj = Some canonicalId)) objects
  then true
  else
    match List.find (fun obj => isBox obj || hasType Port obj || hasType SystemMargin obj)
            objects with
    | Some _ => false
    | None => negb (nearSystemMargin layout i j)
    end.

(** The cells [(i, j)] in the order of the two nested loops. *)
Definition square : list (Z * Z) :=
  list_prod (seqZ 0 MaxSystemWidth) (seqZ 0 MaxSystemHeight).

(** The body of the loops that fill [rectLayout] and [totalArea]. *)
Definition mark (layout : Layout) (canonicalId : string)
    (st : RectLayout * Z) (cell : Z * Z) : RectLayout * Z :=
  if isFree layout canonicalId cell.1 cell.2
  then (setCell st.1 cell.1 cell.2 1, st.2 + 1)
  else st.

(** [findTopLeftCorner] *)
Definition findTopLeftCorner (rectLayout : RectLayout) : Z * Z :=
  default (0, 0) (List.find (fun cell : Z * Z => rectLayout cell.1 cell.2 =? 1) square).

(** [for (let j = rect.y1; j <= rect.y2; j++)], with the turns left. *)
Fixpoint scanColumn (rectLayout : RectLayout) (i : Z) (turns : nat) (j y2 : Z) : Z :=
  match turns with
  | O => y2
  | S turns' =>
      if rectLayout i j =? 0 then j - 1
      else scanColumn rectLayout i turns' (j + 1) y2
  end.

(** [for (let i = rect.x1; i <= rect.x2; i++)], with the turns left. *)
Fixpoint scanColumns (rectLayout : RectLayout) (y1 : Z) (turns : nat) (i x2 y2 : Z) : Z * Z :=
  match turns with
  | O => (x2, y2)
  | S turns' =>
      if rectLayout i y1 =? 0 then (i - 1, y2)
      else
        scanColumns rectLayout y1 turns' (i + 1) x2
          (scanColumn rectLayout i (Z.to_nat (y2 - y1 + 1)) y1 y2)
  end.

(** [findBottomRightCorner], from the corner found. *)
Definition nextRect (rectLayout : RectLayout) : Rect :=
  let '(x1, y1) := findTopLeftCorner rectLayout in
  let '(x2, y2) :=
    scanColumns rectLayout y1 (Z.to_nat (MaxSystemWidth - 1 - x1 + 1)) x1
      (MaxSystemWidth - 1) (MaxSystemHeight - 1) in
  mkRect x1 x2 y1 y2.

Definition inRect (rect : Rect) (cell : Z * Z) : Prop :=
  x1 rect <= cell.1 <= x2 rect /\ y1 rect <= cell.2 <= y2 rect.

#[global] Instance inRect_dec rect cell : Decision (inRect rect cell).
Proof. unfold inRect. apply _. Defined.

(** Mark the rectangle. *)
Definition clearRect (rectLayout : RectLayout) (rect : Rect) : RectLayout :=
  fun i j => if decide (inRect rect (i, j)) then 0 else rectLayout i j.

Definition area (rect : Rect) : Z := (x2 rect - x1 rect + 1) * (y2 rect - y1 rect + 1).

(** [while (foundArea < totalArea)] *)
Fixpoint carve (fuel : nat) (rectLayout : RectLayout) (foundArea totalArea : Z)
    (toDraw : list Rect) : Exec (list Rect) :=
  if foundArea <? totalArea then
    match fuel with
    | O => Throw OutOfFuel
    | S fuel' =>
        let rect := nextRect rectLayout in
        let rectLayout := clearRect rectLayout rect in
        let foundArea := foundArea + area rect in
        let toDraw := toDraw ++ [rect] in
        (* failsafe. *)
        if Z.of_nat (length toDraw) >? 1000 then Ret toDraw
        else carve fuel' rectLayout foundArea totalArea toDraw
    end
  else Ret toDraw.

(** The rectangles of the sprites returned, for the system [canonicalId]. *)
Definition getAvailableSpaceForSystemToRender (layout : Layout) (canonicalId : string)
  : Exec (list Rect) :=
  let marked := fold_left (mark layout canonicalId) square (fun _ _ => 0, 0) in
  carve 1001 marked.1 0 marked.2 [].

(** ** The cells *)

Lemma NoDup_list_prod {A B : Type} (l : list A) (k : list B) :
  NoDup l -> NoDup k -> NoDup (list_prod l k).
Proof.
  intros Hl Hk. induction Hl as [|x l Hx Hl IH]; simpl; [constructor|].
  apply NoDup_app. split; [|split; [|done]].
  - clear -Hk. induction Hk as [|y k Hy Hk IH]; simpl; [constructor|].
    apply NoDup_cons. split; [|done].
    intros Hin%list_elem_of_In%in_map_iff. destruct Hin as (y' & [= <-] & Hin).
    by apply list_elem_of_In in Hin.
  - intros [x' y] Hin%list_elem_of_In%in_map_iff Hin'%list_elem_of_In%in_prod_iff.
    destruct Hin as (y' & [= <- <-] & _). destruct Hin' as [Hin' _].
    by apply list_elem_of_In in Hin'.
Qed.

Definition inSquare (cell : Z * Z) : Prop :=
  0 <= cell.1 < MaxSystemWidth /\ 0 <= cell.2 < MaxSystemHeight.

Lemma elem_of_square cell : cell ∈ square <-> inSquare cell.
Proof.
  destruct cell as [i j]. unfold square, inSquare.
  rewrite list_elem_of_In, in_prod_iff, <- !list_elem_of_In, !elem_of_seqZ. simpl. lia.
Qed.

Lemma NoDup_square : NoDup square.
Proof. apply NoDup_list_prod; apply NoDup_seqZ. Qed.

(** The cells of a rectangle. *)
Definition cellsOf (rect : Rect) : list (Z * Z) :=
  list_prod (seqZ (x1 rect) (x2 rect - x1 rect + 1)) (seqZ (y1 rect) (y2 rect - y1 rect + 1)).

Lemma elem_of_cellsOf rect cell : cell ∈ cellsOf rect <-> inRect rect cell.
Proof.
  destruct cell as [i j]. unfold cellsOf, inRect.
  rewrite list_elem_of_In, in_prod_iff, <- !list_elem_of_In, !elem_of_seqZ. simpl. lia.
Qed.

Lemma length_cellsOf rect :
  x1 rect <= x2 rect -> y1 rect <= y2 rect ->
  Z.of_nat (length (cellsOf rect)) = area rect.
Proof.
  intros Hx Hy. unfold cellsOf, area. rewrite length_prod, !length_seqZ.
  rewrite Nat2Z.inj_mul, !Z2Nat.id by lia. done.
Qed.

(** The number of cells marked with a 1. *)
Definition ones (rectLayout : RectLayout) : nat :=
  length (filter (fun cell : Z * Z => rectLayout cell.1 cell.2 = 1) square).

Lemma ones_clearRect rectLayout rect :
  (forall cell, inRect rect cell -> inSquare cell /\ rectLayout cell.1 cell.2 = 1) ->
  (ones (clearRect rectLayout rect) + length (cellsOf rect))%nat = ones rectLayout.
Proof.
  intros Hrect. unfold ones. rewrite <- length_app. apply Permutation_length.
  apply NoDup_Permutation.
  - apply NoDup_app. split; [apply NoDup_filter, NoDup_square|]. split.
    + intros cell [Hc _]%list_elem_of_filter Hin%elem_of_cellsOf.
      unfold clearRect in Hc. destruct cell as [i j]. simpl in Hc.
      by rewrite decide_True in Hc.
    + apply NoDup_list_prod; apply NoDup_seqZ.
  - apply NoDup_filter, NoDup_square.
  - intros [i j]. rewrite elem_of_app, !list_elem_of_filter, elem_of_cellsOf.
    unfold clearRect. simpl. split.
    + intros [[Hc Hin]|Hin].
      * case_decide; [done|]. by split.
      * destruct (Hrect _ Hin) as [Hsq Hone]. split; [done|]. by apply elem_of_square.
    + intros [Hone Hin]. destruct (decide (inRect rect (i, j))) as [Hr|Hr]; [by right|].
      left. by split.
Qed.

Lemma ones_positive rectLayout :
  (0 < ones rectLayout)%nat ->
  exists cell,
    List.find (fun cell : Z * Z => rectLayout cell.1 cell.2 =? 1) square = Some cell /\
    inSquare cell /\ rectLayout cell.1 cell.2 = 1.
Proof.
  unfold ones. intros Hpos.
  destruct (filter _ square) as [|c rest] eqn:Hf; [simpl in Hpos; lia|].
  assert (Hc : c ∈ filter (fun cell : Z * Z => rectLayout cell.1 cell.2 = 1) square).
  { rewrite Hf. by left. }
  apply list_elem_of_filter in Hc as [Hone Hin].
  destruct (List.find (fun cell : Z * Z => rectLayout cell.1 cell.2 =? 1) square)
    as [cell|] eqn:Hfind.
  - exists cell. split; [done|]. apply find_some in Hfind as [Hin' Hone'].
    split; [by apply elem_of_square, list_elem_of_In|lia].
  - apply find_none with (x := c) in Hfind; [lia|by apply list_elem_of_In].
Qed.

Lemma ones_zero rectLayout cell :
  ones rectLayout = 0%nat -> inSquare cell -> rectLayout cell.1 cell.2 <> 1.
Proof.
  unfold ones. intros Hz Hin Hone.
  assert (Hc : cell ∈ filter (fun cell : Z * Z => rectLayout cell.1 cell.2 = 1) square).
  { apply list_elem_of_filter. split; [done|by apply elem_of_square]. }
  destruct (filter _ square); [by apply elem_of_nil in Hc|done].
Qed.

(** ** The corner scans *)

Lemma scanColumn_spec rectLayout i turns : forall j y2,
  j + Z.of_nat turns = y2 + 1 ->
  let r := scanColumn rectLayout i turns j y2 in
  j - 1 <= r <= y2 /\
  (forall j', j <= j' <= r -> rectLayout i j' <> 0) /\
  (rectLayout i j <> 0 -> (0 < turns)%nat -> j <= r).
Proof.
  induction turns as [|turns IH]; intros j y2 Hturns; simpl.
  - split; [lia|]. split; [intros; lia|intros; lia].
  - destruct (rectLayout i j =? 0) eqn:Hz.
    + split; [lia|]. split; [intros; lia|]. intros Hnz. lia.
    + destruct (IH (j + 1) y2) as (Hr & Hall & _); [lia|].
      split; [lia|]. split; [|intros; lia].
      intros j' Hj'. destruct (decide (j' = j)) as [->|Hne]; [lia|].
      apply Hall. lia.
Qed.

Lemma scanColumns_spec rectLayout x0 y1 turns : forall i x2 y2,
  i + Z.of_nat turns = x2 + 1 ->
  y1 <= y2 ->
  (forall i' j', x0 <= i' < i -> y1 <= j' <= y2 -> rectLayout i' j' <> 0) ->
  let r := scanColumns rectLayout y1 turns i x2 y2 in
  i - 1 <= r.1 <= x2 /\
  y1 <= r.2 <= y2 /\
  (forall i' j', x0 <= i' <= r.1 -> y1 <= j' <= r.2 -> rectLayout i' j' <> 0) /\
  (rectLayout i y1 <> 0 -> (0 < turns)%nat -> i <= r.1).
Proof.
  induction turns as [|turns IH]; intros i x2 y2 Hturns Hy Hdone; simpl.
  - split; [lia|]. split; [lia|]. split; [|intros; lia].
    intros i' j' Hi' Hj'. apply Hdone; lia.
  - destruct (rectLayout i y1 =? 0) eqn:Hz; simpl.
    + split; [lia|]. split; [lia|]. split; [|intros; lia].
      intros i' j' Hi' Hj'. apply Hdone; lia.
    + destruct (scanColumn_spec rectLayout i (Z.to_nat (y2 - y1 + 1)) y1 y2)
        as (Hr & Hall & Hfirst); [lia|].
      set (y2' := scanColumn rectLayout i (Z.to_nat (y2 - y1 + 1)) y1 y2) in *.
      assert (Hy' : y1 <= y2') by (apply Hfirst; lia).
      destruct (IH (i + 1) x2 y2') as (Hx & Hy2 & Hcells & _); [lia|done| |].
      { intros i' j' Hi' Hj'. destruct (decide (i' = i)) as [->|Hne].
        - apply Hall. lia.
        - apply Hdone; lia. }
      split; [lia|]. split; [lia|]. split; [done|]. intros; lia.
Qed.

(** ** The loop *)

Section Carving.

Variable layout : Layout.
Variable canonicalId : string.
Variable totalArea : Z.

(** A cell of the square that is marked at the start. *)
Definition Free (cell : Z * Z) : Prop :=
  inSquare cell /\ isFree layout canonicalId cell.1 cell.2 = true.

(** The invariant of [while (foundArea < totalArea)]. *)
Record Carved (rectLayout : RectLayout) (foundArea : Z) (toDraw : list Rect) : Prop :=
  mkCarved {
  carved_values : forall i j, rectLayout i j = 0 \/ rectLayout i j = 1;
  carved_ones : forall i j, rectLayout i j = 1 -> Free (i, j);
  carved_rects : forall rect,
    rect ∈ toDraw ->
    x1 rect <= x2 rect /\ y1 rect <= y2 rect /\
    forall cell, inRect rect cell -> Free cell /\ rectLayout cell.1 cell.2 = 0;
  carved_disjoint : forall (n m : nat) rect rect',
    n <> m -> toDraw !! n = Some rect -> toDraw !! m = Some rect' ->
    forall cell, inRect rect cell -> ~ inRect rect' cell;
  carved_cover : forall cell,
    Free cell -> rectLayout cell.1 cell.2 = 1 \/ exists rect, rect ∈ toDraw /\ inRect rect cell;
  carved_count : Z.of_nat (ones rectLayout) + foundArea = totalArea;
}.

(** The rectangle found holds the corner and only cells marked with a 1. *)
Lemma nextRect_spec rectLayout :
  (forall i j, rectLayout i j = 0 \/ rectLayout i j = 1) ->
  (0 < ones rectLayout)%nat ->
  let rect := nextRect rectLayout in
  x1 rect <= x2 rect /\ y1 rect <= y2 rect /\
  forall cell, inRect rect cell -> inSquare cell /\ rectLayout cell.1 cell.2 = 1.
Proof.
  intros Hvalues Hpos. destruct (ones_positive rectLayout Hpos) as ([i j] & Hfind & Hsq & Hone).
  unfold nextRect, findTopLeftCorner. rewrite Hfind. simpl.
  destruct Hsq as [Hi Hj]. simpl in Hi, Hj, Hone.
  destruct (scanColumns_spec rectLayout i j (Z.to_nat (MaxSystemWidth - 1 - i + 1)) i
              (MaxSystemWidth - 1) (MaxSystemHeight - 1))
    as (Hx & Hy & Hcells & Hfirst); [lia|lia|intros; lia|].
  destruct (scanColumns rectLayout j _ i _ _) as [x2' y2']. simpl in *.
  assert (i <= x2') by (apply Hfirst; lia).
  split; [done|]. split; [lia|].
  intros [ci cj] [Hci Hcj]. simpl in *. split; [split; simpl; lia|].
  destruct (Hvalues ci cj) as [Hz|?]; [|done]. by destruct (Hcells ci cj).
Qed.

Lemma carve_step rectLayout foundArea toDraw :
  Carved rectLayout foundArea toDraw ->
  foundArea < totalArea ->
  Carved (clearRect rectLayout (nextRect rectLayout))
    (foundArea + area (nextRect rectLayout)) (toDraw ++ [nextRect rectLayout]).
Proof.
  intros HC Hlt.
  assert (Hpos : (0 < ones rectLayout)%nat).
  { pose proof (carved_count _ _ _ HC). lia. }
  destruct (nextRect_spec rectLayout (carved_values _ _ _ HC) Hpos) as (Hx & Hy & Hcells).
  set (rect := nextRect rectLayout) in *.
  split.
  - intros i j. unfold clearRect. case_decide; [by left|]. apply (carved_values _ _ _ HC).
  - intros i j. unfold clearRect. case_decide; [done|]. apply (carved_ones _ _ _ HC).
  - intros r [Hr| ->%list_elem_of_singleton]%elem_of_app.
    + destruct (carved_rects _ _ _ HC r Hr) as (Hrx & Hry & Hrcells).
      split; [done|]. split; [done|]. intros cell Hin.
      destruct (Hrcells cell Hin) as [Hfree Hzero]. split; [done|].
      unfold clearRect. by case_decide.
    + split; [done|]. split; [done|]. intros [i j] Hin.
      destruct (Hcells _ Hin) as [Hsq Hone]. split.
      * by apply (carved_ones _ _ _ HC).
      * unfold clearRect. simpl. by rewrite decide_True.
  - intros n m r r' Hnm Hn Hm cell Hin Hin'.
    apply lookup_app_Some in Hn as [Hn|[Hnlen Hn]], Hm as [Hm|[Hmlen Hm]].
    + by apply (carved_disjoint _ _ _ HC n m r r' Hnm Hn Hm cell).
    + apply list_lookup_singleton_Some in Hm as [_ <-].
      apply list_elem_of_lookup_2 in Hn.
      destruct (carved_rects _ _ _ HC r Hn) as (_ & _ & Hrcells).
      destruct (Hrcells cell Hin) as [_ Hzero]. destruct (Hcells cell Hin') as [_ Hone].
      congruence.
    + apply list_lookup_singleton_Some in Hn as [_ <-].
      apply list_elem_of_lookup_2 in Hm.
      destruct (carved_rects _ _ _ HC r' Hm) as (_ & _ & Hrcells).
      destruct (Hrcells cell Hin') as [_ Hzero]. destruct (Hcells cell Hin) as [_ Hone].
      congruence.
    + apply list_lookup_singleton_Some in Hn as [Hn0 _], Hm as [Hm0 _]. lia.
  - intros [i j] Hfree. unfold clearRect. simpl.
    destruct (decide (inRect rect (i, j))) as [Hin|Hout].
    + right. exists rect. split; [|done]. apply elem_of_app. right. by left.
    + destruct (carved_cover _ _ _ HC (i, j) Hfree) as [?|(r & Hr & Hin)]; [by left|].
      right. exists r. split; [|done]. apply elem_of_app. by left.
  - pose proof (ones_clearRect rectLayout rect Hcells) as Hones.
    pose proof (length_cellsOf rect Hx Hy) as Harea.
    pose proof (carved_count _ _ _ HC). lia.
Qed.

Lemma carve_Carved fuel : forall rectLayout foundArea toDraw,
  Carved rectLayout foundArea toDraw ->
  (length toDraw <= 1000)%nat ->
  (1001 <= length toDraw + fuel)%nat ->
  exists out rectLayout' foundArea',
    carve fuel rectLayout foundArea totalArea toDraw = Ret out /\
    Carved rectLayout' foundArea' out /\
    (length out <= 1001)%nat /\
    ((length out <= 1000)%nat -> totalArea <= foundArea').
Proof.
  induction fuel as [|fuel IH]; intros rectLayout foundArea toDraw HC Hlen Hfuel.
  - lia.
  - simpl. destruct (foundArea <? totalArea) eqn:Hlt.
    + pose proof (carve_step rectLayout foundArea toDraw HC ltac:(lia)) as HC'.
      destruct (Z.of_nat (length (toDraw ++ [nextRect rectLayout])) >? 1000) eqn:Hsafe.
      * eexists _, _, _. split; [done|]. split; [exact HC'|].
        rewrite Z.gtb_ltb, length_app in Hsafe. apply Z.ltb_lt in Hsafe.
        rewrite length_app. simpl length in *. split; lia.
      * rewrite Z.gtb_ltb, length_app in Hsafe. apply Z.ltb_ge in Hsafe.
        simpl length in Hsafe.
        apply IH; [done| |]; rewrite length_app; simpl length; lia.
    + exists toDraw, rectLayout, foundArea. split; [done|]. split; [done|]. split; lia.
Qed.

End Carving.

(** ** The marks *)

Lemma filter_ext_elem {A : Type} (P Q : A -> Prop)
    `{forall x, Decision (P x)} `{forall x, Decision (Q x)} (l : list A) :
  (forall x, x ∈ l -> P x <-> Q x) -> filter P l = filter Q l.
Proof.
  induction l as [|x l IH]; intros Hext; [done|].
  rewrite !filter_cons.
  assert (Hl : filter P l = filter Q l).
  { apply IH. intros y Hy. apply Hext. by right. }
  destruct (decide (P x)) as [HP|HP], (decide (Q x)) as [HQ|HQ].
  - by rewrite Hl.
  - destruct HQ. apply Hext; [by left|done].
  - destruct HP. apply Hext; [by left|done].
  - done.
Qed.

Lemma mark_fold layout canonicalId cells : forall rectLayout totalArea,
  NoDup cells ->
  let marked := fold_left (mark layout canonicalId) cells (rectLayout, totalArea) in
  (forall i j,
     marked.1 i j =
       if decide ((i, j) ∈ cells /\ isFree layout canonicalId i j = true) then 1
       else rectLayout i j) /\
  marked.2 = totalArea +
    Z.of_nat (length (filter (fun cell : Z * Z =>
                                isFree layout canonicalId cell.1 cell.2 = true) cells)).
Proof.
  induction cells as [|[ci cj] cells IH]; intros rectLayout totalArea Hnd.
  - split; [|simpl; lia]. intros i j. rewrite decide_False; [done|].
    intros [Hin _]. by apply elem_of_nil in Hin.
  - apply NoDup_cons in Hnd as [Hc Hnd].
    cbn [fold_left]. unfold mark at 2 4. cbn [fst snd]. rewrite filter_cons. cbn [fst snd].
    destruct (isFree layout canonicalId ci cj) eqn:Hfree.
    + destruct (IH (setCell rectLayout ci cj 1) (totalArea + 1) Hnd) as [Hcells Htotal].
      rewrite decide_True by done. split; [|simpl length; lia].
      intros i j. rewrite Hcells. unfold setCell.
      destruct (decide ((i, j) ∈ cells /\ isFree layout canonicalId i j = true))
        as [[Hin Hf]|Hout].
      * rewrite decide_True; [done|]. split; [by right|done].
      * destruct (decide (i = ci /\ j = cj)) as [[-> ->]|Hne].
        -- rewrite decide_True; [done|]. split; [by left|done].
        -- rewrite decide_False; [done|]. intros [Hin Hf]. apply Hout.
           apply elem_of_cons in Hin as [[= -> ->]|Hin]; [by destruct Hne|done].
    + destruct (IH rectLayout totalArea Hnd) as [Hcells Htotal].
      rewrite decide_False by congruence. split; [|done].
      intros i j. rewrite Hcells.
      destruct (decide ((i, j) ∈ cells /\ isFree layout canonicalId i j = true))
        as [[Hin Hf]|Hout].
      * rewrite decide_True; [done|]. split; [by right|done].
      * rewrite decide_False; [done|]. intros [Hin Hf]. apply Hout.
        apply elem_of_cons in Hin as [[= -> ->]|Hin]; [congruence|done].
Qed.

(** X28: [getAvailableSpaceForSystemToRender] returns at most 1001
    rectangles.  Each one is made of cells of the 64 by 64 square that were
    marked as free, no two of them share a cell, and, unless the failsafe
    stopped the loop at the 1001st, every free cell is in one of them. *)
Theorem getAvailableSpace_partition (layout : Layout) (canonicalId : string) :
  exists toDraw,
    getAvailableSpaceForSystemToRender layout canonicalId = Ret toDraw /\
    (length toDraw <= 1001)%nat /\
    (forall rect,
       rect ∈ toDraw ->
       x1 rect <= x2 rect /\ y1 rect <= y2 rect /\
       forall cell,
         inRect rect cell -> inSquare cell /\ isFree layout canonicalId cell.1 cell.2 = true) /\
    (forall (n m : nat) rect rect',
       n <> m -> toDraw !! n = Some rect -> toDraw !! m = Some rect' ->
       forall cell, inRect rect cell -> ~ inRect rect' cell) /\
    ((length toDraw <= 1000)%nat ->
     forall cell,
       inSquare cell -> isFree layout canonicalId cell.1 cell.2 = true ->
       exists rect, rect ∈ toDraw /\ inRect rect cell).
Proof.
  unfold getAvailableSpaceForSystemToRender.
  pose proof (mark_fold layout canonicalId square (fun _ _ => 0) 0 NoDup_square) as Hmarks.
  cbv zeta in Hmarks. revert Hmarks.
  generalize (fold_left (mark layout canonicalId) square (fun _ _ => 0, 0)).
  intros [rectLayout totalArea] [Hcells Htotal]. cbn [fst snd] in *.
  assert (Hone : forall i j, rectLayout i j = 1 <->
            inSquare (i, j) /\ isFree layout canonicalId i j = true).
  { intros i j. rewrite Hcells, <- elem_of_square. case_decide; [done|].
    split; [done|]. intros. by exfalso. }
  assert (HC : Carved layout canonicalId totalArea rectLayout 0 []).
  { split.
    - intros i j. rewrite Hcells. case_decide; [by right|by left].
    - intros i j. apply Hone.
    - intros rect Hin. by apply elem_of_nil in Hin.
    - intros n m rect rect' _ Hn. by rewrite lookup_nil in Hn.
    - intros [i j] Hfree. left. by apply Hone.
    - rewrite Htotal. unfold ones.
      rewrite (filter_ext_elem
                 (fun cell : Z * Z => rectLayout cell.1 cell.2 = 1)
                 (fun cell : Z * Z => isFree layout canonicalId cell.1 cell.2 = true)).
      + lia.
      + intros [i j] Hin%elem_of_square. rewrite Hone. cbn [fst snd]. by intuition. }
  destruct (carve_Carved layout canonicalId totalArea 1001 rectLayout 0 [] HC)
    as (out & rectLayout' & foundArea' & Hrun & HC' & Hlen & Hdone);
    [simpl; lia|simpl; lia|].
  exists out. split; [done|]. split; [done|]. split; [|split].
  - intros rect Hrect.
    destruct (carved_rects _ _ _ _ _ _ HC' rect Hrect) as (Hx & Hy & Hin).
    split; [done|]. split; [done|]. intros cell Hcell. by apply Hin.
  - apply (carved_disjoint _ _ _ _ _ _ HC').
  - intros Hshort cell Hsq Hfree.
    pose proof (carved_count _ _ _ _ _ _ HC') as Hcount.
    assert (Hzero : ones rectLayout' = 0%nat) by (specialize (Hdone Hshort); lia).
    destruct (carved_cover _ _ _ _ _ _ HC' cell) as [Hone'|?]; [by split| |done].
    by destruct (ones_zero rectLayout' cell Hzero Hsq).
Qed.


End FreeSpace.

(** * The links of a flow step ([findLinks]) *)

Module FlowLinks.

Import Loader.

(** [if (!systemNameToNumber.has(name)) systemNameToNumber.set(name, nextNumber++)]:
    a [Map] keeps its keys in the order they were set, and the number of a
    name is its rank in this order. *)
Definition register (names : list string) (name : string) : list string :=
  if bool_decide (name ∈ names) then names else names ++ [name].

(** [numberToSystemName] *)
Definition systemNames (links : list RuntimeLink) : list string :=
  fold_left (fun names l => register (register names (a (link l))) (b (link l))) links [].

(** [systemNameToNumber.get(name)] *)
Definition numberOf (names : list string) (name : string) : option nat :=
  fst <$> list_find (fun other => other = name) names.

(** [graph[a].push(b); graph[b].push(a)] *)
Definition connect (names : list string) (l : RuntimeLink) (graph : list (list nat))
  : Exec (list (list nat)) :=
  match numberOf names (a (link l)), numberOf names (b (link l)) with
  | Some na, Some nb =>
      match graph !! na with
      | None => Throw TypeError
      | Some _ =>
          let graph := alter (fun neighbors => neighbors ++ [nb]) na graph in
          match graph !! nb with
          | None => Throw TypeError
          | Some _ => Ret (alter (fun neighbors => neighbors ++ [na]) nb graph)
          end
      end
  | _, _ => Throw TypeError
  end.

(** The arrays of the search: in [breadcrumbs], [None] stands for [-1]; in
    [distances], [None] stands for [Infinity]. *)
Record Search : Type := mkSearch {
  breadcrumbs : list (option nat);
  distances : list (option nat);
  queue : list nat;
}.

(** The body of [for (const neighbor of graph[node])]. *)
Definition visit (node : nat) (st : Search) (neighbor : nat) : Search :=
  match distances st !! neighbor with
  | Some None =>
      {| breadcrumbs := <[neighbor := Some node]> (breadcrumbs st);
         distances := <[neighbor := S <$> mjoin (distances st !! node)]> (distances st);
         queue := queue st ++ [neighbor] |}
  | _ => st
  end.

(** [while (queue.length)] *)
Fixpoint bfs (fuel : nat) (graph : list (list nat)) (st : Search) : Exec Search :=
  match queue st with
  | [] => Ret st
  | node :: rest =>
      match fuel with
      | O => Throw OutOfFuel
      | S fuel' =>
          match graph !! node with
          | None => Throw TypeError
          | Some neighbors =>
              bfs fuel' graph
                (fold_left (visit node) neighbors
                   (mkSearch (breadcrumbs st) (distances st) rest))
          end
      end
  end.

(** [while (breadcrumbs[currentNode] !== -1)]: outside of the array the
    test reads [undefined], and the loop never ends. *)
Fixpoint crumbs (fuel : nat) (breadcrumbs : list (option nat)) (currentNode : nat)
    (pathIndexes : list nat) : Exec (list nat) :=
  match breadcrumbs !! currentNode with
  | None => Throw OutOfFuel
  | Some None => Ret pathIndexes
  | Some (Some previous) =>
      match fuel with
      | O => Throw OutOfFuel
      | S fuel' => crumbs fuel' breadcrumbs previous (pathIndexes ++ [previous])
      end
  end.

(** [(l.a === s && l.b === t) || (l.b === s && l.a === t)], for two entries
    of [pathSystems]. *)
Definition joins (s t : option string) (l : RuntimeLink) : bool :=
  (bool_decide (Some (a (link l)) = s) && bool_decide (Some (b (link l)) = t)) ||
  (bool_decide (Some (b (link l)) = s) && bool_decide (Some (a (link l)) = t)).

(** [for (let i = 0; i < pathSystems.length - 1; i++)]: what [find] returns
    is pushed as it is. *)
Fixpoint pathLinks (links : list RuntimeLink) (pathSystems : list (option string))
  : list (option RuntimeLink) :=
  match pathSystems with
  | s :: (t :: _) as rest => List.find (joins s t) links :: pathLinks links rest
  | _ => []
  end.

(** The bound given to the walk back along the breadcrumbs: the distance of
    the node it starts from. *)
Definition findLinks (links : list RuntimeLink) (from to : string)
  : Exec (list (option RuntimeLink)) :=
  let names := systemNames links in
  match numberOf names from, numberOf names to with
  | Some nFrom, Some nTo =>
      let size := length names in
      graph ← forOf (connect names) links (replicate size []);
      st ← bfs (S size) graph
             {| breadcrumbs := replicate size None;
                distances := <[nFrom := Some 0%nat]> (replicate size None);
                queue := [nFrom] |};
      match mjoin (distances st !! nTo) with
      | None => Ret []
      | Some distance =>
          pathIndexes ← crumbs distance (breadcrumbs st) nTo [nTo];
          Ret (pathLinks links ((fun index => names !! index) <$> rev pathIndexes))
      end
  | _, _ => Ret []
  end.

Definition linkOf (index : Z) (a b : string) : RuntimeLink :=
  mkRuntimeLink (mkLink a b) index None None.

(** A chain [foo - bar - baz - qux] with a shortcut [foo - baz]. *)
Definition network : list RuntimeLink :=
  [ linkOf 0 "foo" "bar"; linkOf 1 "bar" "baz"; linkOf 2 "baz" "qux"; linkOf 3 "baz" "foo";
    linkOf 4 "spam" "ham" ].

Example findLinks_shortcut :
  findLinks network "foo" "qux" = Ret [Some (linkOf 3 "baz" "foo"); Some (linkOf 2 "baz" "qux")].
Proof. vm_compute. reflexivity. Qed.

Example findLinks_apart : findLinks network "foo" "ham" = Ret [].
Proof. vm_compute. reflexivity. Qed.

Example findLinks_same : findLinks network "bar" "bar" = Ret [].
Proof. vm_compute. reflexivity. Qed.

(** ** The numbers of the systems *)

Lemma numberOf_Some names name i :
  numberOf names name = Some i -> names !! i = Some name.
Proof.
  unfold numberOf. destruct (list_find _ names) as [[j other]|] eqn:Hf; [|done].
  simpl. intros [= ->]. by apply list_find_Some in Hf as (Hj & -> & _).
Qed.

Lemma numberOf_lt names name i : numberOf names name = Some i -> (i < length names)%nat.
Proof. intros Hn%numberOf_Some. by eapply lookup_lt_Some. Qed.

Lemma numberOf_elem names name : name ∈ names -> is_Some (numberOf names name).
Proof.
  intros Hin. unfold numberOf.
  destruct (list_find_elem_of (fun other => other = name) names name Hin eq_refl)
    as [[i other] ->]. by eexists.
Qed.

Lemma numberOf_lookup names name i :
  NoDup names -> names !! i = Some name -> numberOf names name = Some i.
Proof.
  intros Hnd Hi.
  destruct (numberOf_elem names name) as [j Hj]; [by eapply list_elem_of_lookup_2|].
  rewrite Hj. f_equal. apply numberOf_Some in Hj. by eapply NoDup_lookup.
Qed.

Lemma elem_of_register names name other :
  other ∈ register names name <-> other ∈ names \/ other = name.
Proof.
  unfold register. case_bool_decide as Hin.
  - split; [by left|]. by intros [?| ->].
  - rewrite elem_of_app, list_elem_of_singleton. done.
Qed.

Lemma register_NoDup names name : NoDup names -> NoDup (register names name).
Proof.
  intros Hnd. unfold register. case_bool_decide as Hin; [done|].
  apply NoDup_app. split; [done|]. split; [|apply NoDup_singleton].
  by intros x Hx ->%list_elem_of_singleton.
Qed.

Lemma systemNames_spec links :
  NoDup (systemNames links) /\
  forall name,
    name ∈ systemNames links <->
    exists l, l ∈ links /\ (name = a (link l) \/ name = b (link l)).
Proof.
  unfold systemNames.
  assert (Hgen : forall names0,
    NoDup names0 ->
    let names :=
      fold_left (fun names l => register (register names (a (link l))) (b (link l)))
        links names0 in
    NoDup names /\
    forall name,
      name ∈ names <->
      name ∈ names0 \/ exists l, l ∈ links /\ (name = a (link l) \/ name = b (link l))).
  { induction links as [|l links IH]; intros names0 Hnd; simpl.
    - split; [done|]. intros name. split; [by left|].
      intros [?|(l & Hl & _)]; [done|]. by apply elem_of_nil in Hl.
    - destruct (IH (register (register names0 (a (link l))) (b (link l)))) as [Hnd' Hin].
      { by do 2 apply register_NoDup. }
      split; [done|]. intros name. rewrite Hin, !elem_of_register. split.
      + intros [[[?| ->]| ->]|(l' & Hl' & Hends)]; [by left|right..].
        * exists l. split; [by left|by left].
        * exists l. split; [by left|by right].
        * exists l'. split; [by right|done].
      + intros [?|(l' & Hl' & Hends)]; [by left; left; left|].
        apply elem_of_cons in Hl' as [->|Hl'].
        * destruct Hends as [->| ->]; left; [left; by right|by right].
        * right. by exists l'. }
  destruct (Hgen [] (NoDup_nil_2 (A := string))) as [Hnd Hin]. split; [done|].
  intros name. rewrite Hin. split; [|by right].
  intros [Hn|?]; [by apply elem_of_nil in Hn|done].
Qed.

(** ** The graph *)

(** [n] is in the array of the neighbours of [p]. *)
Definition arc (graph : list (list nat)) (p n : nat) : Prop :=
  exists neighbors, graph !! p = Some neighbors /\ n ∈ neighbors.

(** A link joins the systems numbered [p] and [n]. *)
Definition edgeOf (names : list string) (links : list RuntimeLink) (p n : nat) : Prop :=
  exists l,
    l ∈ links /\
    ((numberOf names (a (link l)) = Some p /\ numberOf names (b (link l)) = Some n) \/
     (numberOf names (b (link l)) = Some p /\ numberOf names (a (link l)) = Some n)).

Lemma arc_alter graph i v p n :
  (i < length graph)%nat ->
  arc (alter (fun neighbors => neighbors ++ [v]) i graph) p n <->
  arc graph p n \/ (p = i /\ n = v).
Proof.
  intros Hi. unfold arc. destruct (lookup_lt_is_Some_2 graph i Hi) as [old Hold].
  destruct (decide (p = i)) as [->|Hne].
  - rewrite list_lookup_alter, decide_True, Hold by done. simpl. split.
    + intros (ns & [= <-] & [Hn| ->%list_elem_of_singleton]%elem_of_app).
      * left. by exists old.
      * by right.
    + intros [(ns & Hns & Hn)|[_ ->]].
      * exists (old ++ [v]). split; [done|]. apply elem_of_app. left. congruence.
      * exists (old ++ [v]). split; [done|]. apply elem_of_app. right. by left.
  - rewrite list_lookup_alter_ne by done. split; [by left|]. by intros [?|[? _]].
Qed.

Lemma connect_Ret names l graph :
  length graph = length names ->
  is_Some (numberOf names (a (link l))) ->
  is_Some (numberOf names (b (link l))) ->
  exists graph',
    connect names l graph = Ret graph' /\
    length graph' = length graph /\
    forall p n, arc graph' p n <-> arc graph p n \/ edgeOf names [l] p n.
Proof.
  intros Hlen [na Ha] [nb Hb]. unfold connect. rewrite Ha, Hb.
  pose proof (numberOf_lt _ _ _ Ha) as Hna. pose proof (numberOf_lt _ _ _ Hb) as Hnb.
  destruct (lookup_lt_is_Some_2 graph na) as [olda ->]; [lia|].
  destruct (lookup_lt_is_Some_2 (alter (fun ns => ns ++ [nb]) na graph) nb) as [oldb ->].
  { rewrite length_alter. lia. }
  eexists. split; [done|]. split; [by rewrite !length_alter|].
  intros p n. rewrite !arc_alter by (rewrite ?length_alter; lia). unfold edgeOf. split.
  - intros [[?|[-> ->]]|[-> ->]]; [by left|right..]; exists l;
      (split; [by left|]); [left|right]; by split.
  - intros [?|(l' & ->%list_elem_of_singleton & Hends)]; [by left; left|].
    rewrite Ha, Hb in Hends.
    destruct Hends as [[[= <-] [= <-]]|[[= <-] [= <-]]]; [left; right|right]; by split.
Qed.

Lemma forOf_connect names links : forall graph,
  length graph = length names ->
  (forall l, l ∈ links ->
     is_Some (numberOf names (a (link l))) /\ is_Some (numberOf names (b (link l)))) ->
  exists graph',
    forOf (connect names) links graph = Ret graph' /\
    length graph' = length graph /\
    forall p n, arc graph' p n <-> arc graph p n \/ edgeOf names links p n.
Proof.
  induction links as [|l links IH]; intros graph Hlen Hends.
  - exists graph. split; [done|]. split; [done|]. intros p n. split; [by left|].
    intros [?|(l & Hl & _)]; [done|]. by apply elem_of_nil in Hl.
  - destruct (Hends l) as [Ha Hb]; [by left|].
    destruct (connect_Ret names l graph Hlen Ha Hb) as (graph1 & Hc & Hlen1 & Harc1).
    rewrite forOf_cons, Hc. simpl.
    destruct (IH graph1) as (graph' & Hf & Hlen' & Harc').
    { congruence. }
    { intros l' Hl'. apply Hends. by right. }
    exists graph'. split; [done|]. split; [congruence|].
    intros p n. rewrite Harc', Harc1. unfold edgeOf. split.
    + intros [[?|(l' & ->%list_elem_of_singleton & Hl')]|(l' & Hl' & Hn)]; [by left|right..].
      * exists l. split; [by left|done].
      * exists l'. split; [by right|done].
    + intros [?|(l' & Hl' & Hn)]; [by left; left|].
      apply elem_of_cons in Hl' as [->|Hl'].
      * left. right. exists l. split; [by left|done].
      * right. by exists l'.
Qed.


(** ** The search *)

(** The number of nodes at the distance [Infinity]. *)
Fixpoint unseen (distances : list (option nat)) : nat :=
  match distances with
  | [] => 0
  | None :: rest => S (unseen rest)
  | Some _ :: rest => unseen rest
  end.

Lemma unseen_insert distances i d :
  distances !! i = Some None -> S (unseen (<[i := Some d]> distances)) = unseen distances.
Proof.
  revert i. induction distances as [|x rest IH]; intros [|i] Hi; simpl in *; try done.
  - by inversion Hi; subst.
  - destruct x; by rewrite (IH i Hi).
Qed.

Section Bfs.

Variable size : nat.
Variable graph : list (list nat).
Variable nFrom : nat.
Hypothesis graph_length : length graph = size.
Hypothesis graph_range : forall p n, arc graph p n -> (n < size)%nat.

(** The node [n] was reached, at the distance [d]. *)
Definition seen (st : Search) (n d : nat) : Prop := distances st !! n = Some (Some d).

(** The invariant of the search, while the neighbours of [current] are
    being visited. *)
Record Inv (current : option nat) (st : Search) : Prop := mkInv {
  inv_breadcrumbs : length (breadcrumbs st) = size;
  inv_distances : length (distances st) = size;
  inv_queue : forall n, n ∈ queue st -> exists d, seen st n d;
  inv_crumb : forall n p,
    breadcrumbs st !! n = Some (Some p) ->
    arc graph p n /\ exists d, seen st p d /\ seen st n (S d);
  inv_origin : forall n d,
    seen st n d ->
    (n = nFrom /\ breadcrumbs st !! n = Some None) \/
    exists p, breadcrumbs st !! n = Some (Some p);
  inv_closed : forall n d m,
    seen st n d -> n ∉ queue st -> Some n <> current -> arc graph n m ->
    exists d', seen st m d';
  inv_from : seen st nFrom 0;
}.

Lemma visit_Inv node d st m :
  Inv (Some node) st -> seen st node d -> arc graph node m ->
  Inv (Some node) (visit node st m) /\
  (forall n d', seen st n d' -> seen (visit node st m) n d') /\
  (exists d', seen (visit node st m) m d') /\
  (length (queue (visit node st m)) + unseen (distances (visit node st m))
   = length (queue st) + unseen (distances st))%nat.
Proof.
  intros HI Hnode Harc. pose proof (graph_range _ _ Harc) as Hm.
  unfold visit.
  destruct (lookup_lt_is_Some_2 (distances st) m) as [dm Hdm].
  { by rewrite (inv_distances _ _ HI). }
  rewrite Hdm. destruct dm as [dm|].
  { split; [done|]. split; [done|]. split; [by exists dm|done]. }
  unfold seen in Hnode. rewrite Hnode. simpl.
  assert (Hkeep : forall n d', seen st n d' ->
            <[m := Some (S d)]> (distances st) !! n = Some (Some d')).
  { intros n d' Hn. unfold seen in Hn. rewrite list_lookup_insert_ne; [done|].
    intros ->. congruence. }
  assert (Hnew : <[m := Some (S d)]> (distances st) !! m = Some (Some (S d))).
  { apply list_lookup_insert_eq. by rewrite (inv_distances _ _ HI). }
  split; [|split; [exact Hkeep|split; [by exists (S d)|]]].
  - split; simpl.
    + by rewrite length_insert, (inv_breadcrumbs _ _ HI).
    + by rewrite length_insert, (inv_distances _ _ HI).
    + intros n [Hn| ->%list_elem_of_singleton]%elem_of_app.
      * destruct (inv_queue _ _ HI n Hn) as [d' Hd']. exists d'. by apply Hkeep.
      * by exists (S d).
    + intros n p Hp. destruct (decide (n = m)) as [->|Hne].
      * rewrite list_lookup_insert_eq in Hp by by rewrite (inv_breadcrumbs _ _ HI).
        inversion Hp; subst p. split; [done|]. exists d. split; [by apply Hkeep|done].
      * rewrite list_lookup_insert_ne in Hp by done.
        destruct (inv_crumb _ _ HI n p Hp) as (Ha & d' & Hp' & Hn').
        split; [done|]. exists d'. split; by apply Hkeep.
    + intros n d' Hn. unfold seen in Hn. simpl in Hn.
      destruct (decide (n = m)) as [->|Hne].
      * right. exists node. apply list_lookup_insert_eq.
        by rewrite (inv_breadcrumbs _ _ HI).
      * rewrite list_lookup_insert_ne in Hn by done.
        rewrite list_lookup_insert_ne by done. by apply (inv_origin _ _ HI n d').
    + intros n d' k Hn Hq Hcur Hnk. unfold seen in Hn. simpl in Hn.
      apply not_elem_of_app in Hq as [Hq Hnm%not_elem_of_cons].
      destruct Hnm as [Hnm _]. rewrite list_lookup_insert_ne in Hn by done.
      destruct (inv_closed _ _ HI n d' k Hn Hq Hcur Hnk) as [dk Hk].
      exists dk. by apply Hkeep.
    + apply Hkeep. apply (inv_from _ _ HI).
  - simpl. rewrite length_app. simpl.
    pose proof (unseen_insert (distances st) m (S d) Hdm). lia.
Qed.

Lemma fold_visit_Inv node d neighbors : forall st,
  Inv (Some node) st -> seen st node d ->
  (forall m, m ∈ neighbors -> arc graph node m) ->
  let st' := fold_left (visit node) neighbors st in
  Inv (Some node) st' /\
  (forall n d', seen st n d' -> seen st' n d') /\
  (forall m, m ∈ neighbors -> exists d', seen st' m d') /\
  (length (queue st') + unseen (distances st')
   = length (queue st) + unseen (distances st))%nat.
Proof.
  induction neighbors as [|m neighbors IH]; intros st HI Hnode Harcs; simpl.
  - split; [done|]. split; [done|]. split; [|done]. by intros m ?%elem_of_nil.
  - destruct (visit_Inv node d st m HI Hnode) as (HI1 & Hkeep1 & [dm Hm] & Hmeasure1).
    { apply Harcs. by left. }
    destruct (IH (visit node st m) HI1 (Hkeep1 _ _ Hnode)) as (HI' & Hkeep & Hall & Hmeasure).
    { intros k Hk. apply Harcs. by right. }
    split; [done|]. split; [by auto|]. split; [|simpl in *; lia].
    intros k [->|Hk]%elem_of_cons; [|by apply Hall]. exists dm. by apply Hkeep.
Qed.

(** The search ends, with an empty queue. *)
Lemma bfs_Inv fuel : forall st,
  Inv None st ->
  (length (queue st) + unseen (distances st) <= fuel)%nat ->
  exists st', bfs fuel graph st = Ret st' /\ Inv None st' /\ queue st' = [].
Proof.
  induction fuel as [|fuel IH]; intros st HI Hfuel.
  - destruct (queue st) as [|node rest] eqn:Hq; [|simpl in Hfuel; lia].
    exists st. simpl. by rewrite Hq.
  - destruct (queue st) as [|node rest] eqn:Hq.
    { exists st. simpl. by rewrite Hq. }
    simpl. rewrite Hq.
    destruct (inv_queue _ _ HI node) as [d Hnode]; [rewrite Hq; by left|].
    assert (Hlt : (node < size)%nat).
    { rewrite <- (inv_distances _ _ HI). by eapply lookup_lt_Some. }
    destruct (lookup_lt_is_Some_2 graph node) as [neighbors Hns]; [lia|].
    rewrite Hns.
    set (st0 := mkSearch (breadcrumbs st) (distances st) rest).
    assert (HI0 : Inv (Some node) st0).
    { split; simpl; try apply HI.
      - intros n Hn. apply (inv_queue _ _ HI). rewrite Hq. by right.
      - intros n d' m Hn Hrest Hcur Hnm. apply (inv_closed _ _ HI n d' m); try done.
        rewrite Hq. apply not_elem_of_cons. split; [congruence|done]. }
    destruct (fold_visit_Inv node d neighbors st0 HI0 Hnode)
      as (HI1 & Hkeep & Hall & Hmeasure).
    { intros m Hm. by exists neighbors. }
    apply IH.
    + split; try apply HI1.
      intros n d' m Hn Hnq _ Hnm. destruct (decide (n = node)) as [->|Hne].
      * destruct Hnm as (ns & Hns' & Hm). rewrite Hns in Hns'.
        inversion Hns'; subst ns. by apply Hall.
      * apply (inv_closed _ _ HI1 n d' m); try done. congruence.
    + rewrite Hmeasure. simpl in *. lia.
Qed.

(** The nodes from [nFrom] to a node, along the arcs. *)
Inductive Trail : nat -> list nat -> Prop :=
| Trail_origin : Trail nFrom [nFrom]
| Trail_step p n l : Trail p l -> arc graph p n -> Trail n (l ++ [n]).

(** The walk back along the breadcrumbs ends at [nFrom], within the
    distance of the node it starts from. *)
Lemma crumbs_Trail st : Inv None st -> forall d n,
  seen st n d ->
  exists l,
    Trail n l /\ length l = S d /\
    forall acc, crumbs d (breadcrumbs st) n (acc ++ [n]) = Ret (acc ++ rev l).
Proof.
  intros HI. induction d as [|d IH]; intros n Hn.
  - destruct (inv_origin _ _ HI n 0 Hn) as [[-> Hb]|[p Hp]].
    + exists [nFrom]. split; [constructor|]. split; [done|].
      intros acc. simpl. by rewrite Hb.
    + destruct (inv_crumb _ _ HI n p Hp) as (_ & d' & _ & Hn'). unfold seen in *.
      congruence.
  - destruct (inv_origin _ _ HI n (S d) Hn) as [[-> Hb]|[p Hp]].
    + pose proof (inv_from _ _ HI). unfold seen in *. congruence.
    + destruct (inv_crumb _ _ HI n p Hp) as (Harc & d' & Hp' & Hn').
      assert (d' = d) as -> by (unfold seen in *; congruence).
      destruct (IH p Hp') as (l & Hl & Hlen & Hrun).
      exists (l ++ [n]). split; [by apply Trail_step with p|].
      split; [rewrite length_app; simpl; lia|].
      intros acc. simpl. rewrite Hp. rewrite Hrun, rev_app_distr. simpl.
      by rewrite <- app_assoc.
Qed.

(** Once the queue is empty, every node the arcs lead to from a node that
    was reached was reached too. *)
Lemma closed_seen st n d m :
  Inv None st -> queue st = [] -> seen st n d -> arc graph n m -> exists d', seen st m d'.
Proof.
  intros HI Hq Hn Hnm. apply (inv_closed _ _ HI n d m); try done.
  rewrite Hq. apply not_elem_of_nil.
Qed.

(** The levels of the search: while the neighbours of a node at the
    distance [dc] are visited, no node is further than [dc + 1], the queue is
    in the order of the distances, and an arc from a node that left the
    queue adds at most one to the distance. *)
Record Level (current : option nat) (dc : nat) (st : Search) : Prop := mkLevel {
  level_max : forall n d, seen st n d -> (d <= S dc)%nat;
  level_queue : forall n d, n ∈ queue st -> seen st n d -> (dc <= d)%nat;
  level_sorted : forall i j n m dn dm,
    (i <= j)%nat -> queue st !! i = Some n -> queue st !! j = Some m ->
    seen st n dn -> seen st m dm -> (dn <= dm)%nat;
  level_relaxed : forall n d m d',
    seen st n d -> n ∉ queue st -> Some n <> current -> arc graph n m ->
    seen st m d' -> (d' <= S d)%nat;
}.

Lemma visit_Level node d st m :
  Inv (Some node) st -> Level (Some node) d st -> seen st node d -> arc graph node m ->
  Level (Some node) d (visit node st m).
Proof.
  intros HI HL Hnode Harc. pose proof (graph_range _ _ Harc) as Hm.
  unfold visit.
  destruct (lookup_lt_is_Some_2 (distances st) m) as [dm Hdm].
  { by rewrite (inv_distances _ _ HI). }
  rewrite Hdm. destruct dm as [dm|]; [done|].
  unfold seen in Hnode. rewrite Hnode. simpl.
  assert (Hnew : forall n dn,
            <[m := Some (S d)]> (distances st) !! n = Some (Some dn) ->
            (n = m /\ dn = S d) \/ (n <> m /\ seen st n dn)).
  { intros n dn Hn. destruct (decide (n = m)) as [->|Hne].
    - rewrite list_lookup_insert_eq in Hn by by rewrite (inv_distances _ _ HI).
      left. split; congruence.
    - rewrite list_lookup_insert_ne in Hn by done. by right. }
  split; unfold seen; simpl.
  - intros n dn [[_ ->]|[_ Hn]]%Hnew; [lia|]. by apply (level_max _ _ _ HL n).
  - intros n dn Hq [[_ ->]|[Hne Hn]]%Hnew; [lia|].
    apply elem_of_app in Hq as [Hq|Hq%list_elem_of_singleton]; [|done].
    by apply (level_queue _ _ _ HL n).
  - intros i j n k dn dk Hij Hi Hj Hn Hk.
    apply Hnew in Hn, Hk.
    apply lookup_app_Some in Hi as [Hi|[Hilen Hi]], Hj as [Hj|[Hjlen Hj]].
    + destruct Hn as [[-> _]|[_ Hn]].
      { apply list_elem_of_lookup_2, (inv_queue _ _ HI) in Hi as [? Hi].
        unfold seen in Hi. congruence. }
      destruct Hk as [[-> _]|[_ Hk]].
      { apply list_elem_of_lookup_2, (inv_queue _ _ HI) in Hj as [? Hj].
        unfold seen in Hj. congruence. }
      by apply (level_sorted _ _ _ HL i j n k).
    + apply list_lookup_singleton_Some in Hj as [_ <-].
      destruct Hk as [[_ ->]|[? _]]; [|done].
      destruct Hn as [[_ ->]|[_ Hn]]; [lia|].
      pose proof (level_max _ _ _ HL n dn Hn). lia.
    + apply lookup_lt_Some in Hj. lia.
    + apply list_lookup_singleton_Some in Hi as [_ <-], Hj as [_ <-].
      destruct Hn as [[_ ->]|[? _]], Hk as [[_ ->]|[? _]]; done.
  - intros n dn k dk Hn Hq Hcur Hnk Hk.
    apply not_elem_of_app in Hq as [Hq Hnm%not_elem_of_cons]. destruct Hnm as [Hnm _].
    apply Hnew in Hn as [[-> _]|[_ Hn]]; [done|].
    destruct (inv_closed _ _ HI n dn k Hn Hq Hcur Hnk) as [dk0 Hk0].
    apply Hnew in Hk as [[-> _]|[_ Hk]]; [unfold seen in Hk0; congruence|].
    by apply (level_relaxed _ _ _ HL n dn k dk).
Qed.

Lemma fold_visit_Level node d neighbors : forall st,
  Inv (Some node) st -> Level (Some node) d st -> seen st node d ->
  (forall m, m ∈ neighbors -> arc graph node m) ->
  Level (Some node) d (fold_left (visit node) neighbors st).
Proof.
  induction neighbors as [|m neighbors IH]; intros st HI HL Hnode Harcs; [done|].
  simpl. destruct (visit_Inv node d st m HI Hnode) as (HI1 & Hkeep1 & _ & _).
  { apply Harcs. by left. }
  apply IH; [done| |by apply Hkeep1|].
  - apply visit_Level; try done. apply Harcs. by left.
  - intros k Hk. apply Harcs. by right.
Qed.

(** At the end of the search, an arc adds at most one to the distance. *)
Lemma bfs_Level fuel : forall st dc st',
  Inv None st -> Level None dc st ->
  bfs fuel graph st = Ret st' ->
  forall n d m d', seen st' n d -> arc graph n m -> seen st' m d' -> (d' <= S d)%nat.
Proof.
  induction fuel as [|fuel IH]; intros st dc st' HI HL Hrun.
  - simpl in Hrun. destruct (queue st) as [|node rest] eqn:Hq; [|done].
    inversion Hrun; subst st'. intros n d m d' Hn Hnm Hm.
    apply (level_relaxed _ _ _ HL n d m d'); try done. rewrite Hq. apply not_elem_of_nil.
  - simpl in Hrun. destruct (queue st) as [|node rest] eqn:Hq.
    { inversion Hrun; subst st'. intros n d m d' Hn Hnm Hm.
      apply (level_relaxed _ _ _ HL n d m d'); try done.
      rewrite Hq. apply not_elem_of_nil. }
    destruct (inv_queue _ _ HI node) as [d Hnode]; [rewrite Hq; by left|].
    destruct (graph !! node) as [neighbors|] eqn:Hns; [|done].
    set (st0 := mkSearch (breadcrumbs st) (distances st) rest) in *.
    assert (HI0 : Inv (Some node) st0).
    { split; simpl; try apply HI.
      - intros n Hn. apply (inv_queue _ _ HI). rewrite Hq. by right.
      - intros n d' m Hn Hrest Hcur Hnm. apply (inv_closed _ _ HI n d' m); try done.
        rewrite Hq. apply not_elem_of_cons. split; [congruence|done]. }
    assert (HL0 : Level (Some node) d st0).
    { split; unfold seen; simpl.
      - intros n dn Hn. pose proof (level_max _ _ _ HL n dn Hn).
        assert (dc <= d)%nat; [|lia].
        apply (level_queue _ _ _ HL node); [rewrite Hq; by left|done].
      - intros n dn Hn Hdn. apply list_elem_of_lookup_1 in Hn as [i Hi].
        apply (level_sorted _ _ _ HL 0%nat (S i) node n); try done; try lia;
          by rewrite Hq.
      - intros i j n m dn dm Hij Hi Hj.
        apply (level_sorted _ _ _ HL (S i) (S j) n m); try lia; by rewrite Hq.
      - intros n dn m dm Hn Hrest Hcur Hnm Hm.
        apply (level_relaxed _ _ _ HL n dn m dm); try done.
        rewrite Hq. apply not_elem_of_cons. split; [congruence|done]. }
    assert (Harcs : forall m, m ∈ neighbors -> arc graph node m).
    { intros m Hm. by exists neighbors. }
    destruct (fold_visit_Inv node d neighbors st0 HI0 Hnode Harcs)
      as (HI1 & Hkeep & Hall & _).
    pose proof (fold_visit_Level node d neighbors st0 HI0 HL0 Hnode Harcs) as HL1.
    apply (IH (fold_left (visit node) neighbors st0) d st'); [| |done].
    + split; try apply HI1.
      intros n d' m Hn Hnq _ Hnm. destruct (decide (n = node)) as [->|Hne].
      * destruct Hnm as (ns & Hns' & Hm). rewrite Hns in Hns'.
        inversion Hns'; subst ns. by apply Hall.
      * apply (inv_closed _ _ HI1 n d' m); try done. congruence.
    + split; try apply HL1.
      intros n dn m dm Hn Hnq _ Hnm Hm. destruct (decide (n = node)) as [->|Hne].
      * pose proof (level_max _ _ _ HL1 m dm Hm).
        assert (dn = d); [|lia].
        pose proof (Hkeep _ _ Hnode) as Hnode'. unfold seen in *. congruence.
      * apply (level_relaxed _ _ _ HL1 n dn m dm); try done. congruence.
Qed.


End Bfs.


(** ** The links returned *)

(** [path] is a chain of links of [links] from the system [s] to the system
    [t]: each link joins the system the one before it led to. *)
Inductive Walk (links : list RuntimeLink) : string -> list RuntimeLink -> string -> Prop :=
| Walk_nil s : Walk links s [] s
| Walk_cons s t u l rest :
    l ∈ links -> joins (Some s) (Some t) l = true -> Walk links t rest u ->
    Walk links s (l :: rest) u.

Lemma Walk_snoc links s t u path l :
  Walk links s path t -> l ∈ links -> joins (Some t) (Some u) l = true ->
  Walk links s (path ++ [l]) u.
Proof.
  induction 1 as [s|s t' u' l' rest Hl' Hj' _ IH]; intros Hl Hj; simpl.
  - apply Walk_cons with u; [done|done|constructor].
  - apply Walk_cons with t'; [done|done|]. by apply IH.
Qed.

Lemma joins_ends s t l :
  joins (Some s) (Some t) l = true <->
  (a (link l) = s /\ b (link l) = t) \/ (b (link l) = s /\ a (link l) = t).
Proof.
  unfold joins. rewrite orb_true_iff, !andb_true_iff, !bool_decide_eq_true.
  split; intros [[? ?]|[? ?]]; [left|right|left|right]; split; congruence.
Qed.

Lemma pathLinks_snoc links systems s t :
  pathLinks links (systems ++ [s; t]) =
    pathLinks links (systems ++ [s]) ++ [List.find (joins s t) links].
Proof.
  induction systems as [|x systems IH]; [done|].
  destruct systems as [|y systems]; [done|].
  simpl in *. by rewrite IH.
Qed.

Lemma find_exists {A : Type} (f : A -> bool) (l : list A) x :
  x ∈ l -> f x = true -> exists y, List.find f l = Some y.
Proof.
  induction l as [|z l IH]; intros Hin Hf; [by apply elem_of_nil in Hin|].
  simpl. destruct (f z) eqn:Hz; [by eexists|].
  apply elem_of_cons in Hin as [->|Hin]; [congruence|by apply IH].
Qed.

Lemma Trail_last graph nFrom n l : Trail graph nFrom n l -> exists l', l = l' ++ [n].
Proof. destruct 1 as [|p n l _ _]; [by exists []|by exists l]. Qed.

Section Outcome.

Variable links : list RuntimeLink.
Variable graph : list (list nat).
Hypothesis graph_length : length graph = length (systemNames links).
Hypothesis graph_arcs : forall p n, arc graph p n <-> edgeOf (systemNames links) links p n.

Lemma link_numbered l :
  l ∈ links ->
  is_Some (numberOf (systemNames links) (a (link l))) /\
  is_Some (numberOf (systemNames links) (b (link l))).
Proof.
  intros Hl. destruct (systemNames_spec links) as [_ Hin].
  split; apply numberOf_elem, Hin; exists l; (split; [done|]); [by left|by right].
Qed.

Lemma arcs_range p n : arc graph p n -> (n < length (systemNames links))%nat.
Proof.
  intros (l & _ & [[_ Hn]|[_ Hn]])%graph_arcs; by eapply numberOf_lt.
Qed.

(** The links found along a trail are a chain from its first system to its
    last. *)
Lemma Trail_Walk from nFrom n l :
  systemNames links !! nFrom = Some from ->
  Trail graph nFrom n l ->
  exists name path,
    systemNames links !! n = Some name /\
    pathLinks links ((fun index => systemNames links !! index) <$> l) = Some <$> path /\
    S (length path) = length l /\
    Walk links from path name.
Proof.
  intros Hfrom. induction 1 as [|p n l Hl (name & path & Hp & Hlinks & Hlen & Hwalk) Harc].
  - exists from, []. repeat split; try done. constructor.
  - destruct (Trail_last _ _ _ _ Hl) as [l' ->].
    apply graph_arcs in Harc as (lk & Hlk & Hends).
    assert (Hn : exists other,
              systemNames links !! n = Some other /\
              joins (Some name) (Some other) lk = true).
    { destruct Hends as [[Ha Hb]|[Hb Ha]];
        apply numberOf_Some in Ha, Hb; rewrite Hp in *.
      - exists (b (link lk)). split; [done|]. apply joins_ends. left. split; congruence.
      - exists (a (link lk)). split; [done|]. apply joins_ends. right. split; congruence. }
    destruct Hn as (other & Hn & Hjoins).
    destruct (find_exists (joins (Some name) (Some other)) links lk Hlk Hjoins)
      as [found Hfound].
    exists other, (path ++ [found]). split; [done|].
    apply find_some in Hfound as Hf. destruct Hf as [Hin Hj].
    split; [|split].
    + rewrite <- app_assoc. simpl. rewrite fmap_app. simpl.
      rewrite pathLinks_snoc. rewrite fmap_app in Hlinks. simpl in Hlinks.
      rewrite Hlinks, Hp, Hn, Hfound. by rewrite fmap_app.
    + rewrite !length_app in *. simpl in *. lia.
    + apply Walk_snoc with name; [done|by apply list_elem_of_In|done].
Qed.

(** Every system a chain of links leads to from a system that was reached
    was reached too. *)
Lemma Walk_seen nFrom st s w t :
  Inv (length (systemNames links)) graph nFrom None st -> queue st = [] ->
  Walk links s w t ->
  forall ns d,
    numberOf (systemNames links) s = Some ns -> seen st ns d ->
    exists nt d', numberOf (systemNames links) t = Some nt /\ seen st nt d'.
Proof.
  intros HI Hq. induction 1 as [s|s t u l rest Hl Hj _ IH]; intros ns d Hs Hseen.
  - by exists ns, d.
  - destruct (link_numbered l Hl) as [[na Ha] [nb Hb]].
    apply joins_ends in Hj.
    assert (Ht : exists nt, numberOf (systemNames links) t = Some nt /\ arc graph ns nt).
    { destruct Hj as [[<- <-]|[<- <-]].
      - exists nb. split; [done|]. apply graph_arcs. exists l. split; [done|].
        left. split; congruence.
      - exists na. split; [done|]. apply graph_arcs. exists l. split; [done|].
        right. split; congruence. }
    destruct Ht as (nt & Ht & Harc).
    destruct (closed_seen _ graph nFrom st ns d nt HI Hq Hseen Harc) as [d' Hd'].
    by apply (IH nt d').
Qed.

(** A chain of links adds at most its length to the distance. *)
Lemma Walk_distance nFrom st s w t :
  Inv (length (systemNames links)) graph nFrom None st -> queue st = [] ->
  (forall n d m d', seen st n d -> arc graph n m -> seen st m d' -> (d' <= S d)%nat) ->
  Walk links s w t ->
  forall ns d,
    numberOf (systemNames links) s = Some ns -> seen st ns d ->
    exists nt d',
      numberOf (systemNames links) t = Some nt /\ seen st nt d' /\
      (d' <= d + length w)%nat.
Proof.
  intros HI Hq Hrelaxed. induction 1 as [s|s t u l rest Hl Hj _ IH]; intros ns d Hs Hseen.
  - exists ns, d. repeat split; try done. lia.
  - destruct (link_numbered l Hl) as [[na Ha] [nb Hb]].
    apply joins_ends in Hj.
    assert (Ht : exists nt, numberOf (systemNames links) t = Some nt /\ arc graph ns nt).
    { destruct Hj as [[<- <-]|[<- <-]].
      - exists nb. split; [done|]. apply graph_arcs. exists l. split; [done|].
        left. split; congruence.
      - exists na. split; [done|]. apply graph_arcs. exists l. split; [done|].
        right. split; congruence. }
    destruct Ht as (nt & Ht & Harc).
    destruct (closed_seen _ graph nFrom st ns d nt HI Hq Hseen Harc) as [d1 Hd1].
    pose proof (Hrelaxed ns d nt d1 Hseen Harc Hd1).
    destruct (IH nt d1 Ht Hd1) as (nu & d' & Hnu & Hd' & Hle).
    exists nu, d'. repeat split; try done. simpl. lia.
Qed.


End Outcome.

Lemma Walk_ends links s w t :
  Walk links s w t -> w <> [] ->
  s ∈ systemNames links /\ t ∈ systemNames links.
Proof.
  destruct (systemNames_spec links) as [_ Hin].
  induction 1 as [s|s t u l rest Hl Hj Hrest IH]; intros Hne; [done|].
  apply joins_ends in Hj. split.
  - apply Hin. exists l. split; [done|]. destruct Hj as [[<- _]|[<- _]]; [by left|by right].
  - destruct rest as [|l' rest].
    + inversion Hrest; subst. apply Hin. exists l. split; [done|].
      destruct Hj as [[_ <-]|[_ <-]]; [by right|by left].
    + by apply IH.
Qed.

Lemma bind_Ret {A B : Type} (v : A) (k : A -> Exec B) : Ret v ≫= k = k v.
Proof. reflexivity. Qed.

Lemma unseen_replicate n : unseen (replicate n None) = n.
Proof. induction n as [|n IH]; simpl; [done|by rewrite IH]. Qed.

(** What [findLinks] returns. *)
Lemma findLinks_outcome links from to :
  exists path,
    findLinks links from to = Ret (Some <$> path) /\
    ((path = [] /\ (from = to \/ forall w, ~ Walk links from w to)) \/
     (path <> [] /\ from <> to /\ Walk links from path to /\
      forall w, Walk links from w to -> (length path <= length w)%nat)).
Proof.
  unfold findLinks. set (names := systemNames links).
  destruct (systemNames_spec links) as [Hnd Hnames]. fold names in Hnd, Hnames.
  assert (Hunknown : from ∉ names \/ to ∉ names ->
            from = to \/ forall w, ~ Walk links from w to).
  { intros Hnot. destruct (decide (from = to)) as [|Hne]; [by left|right].
    intros w Hw. destruct w as [|l w]; [by inversion Hw|].
    destruct (Walk_ends _ _ _ _ Hw) as [? ?]; [done|]. by destruct Hnot. }
  destruct (numberOf names from) as [nFrom|] eqn:HnFrom.
  2: { exists []. split; [done|]. left. split; [done|]. apply Hunknown. left.
       intros [? Hin]%numberOf_elem. congruence. }
  destruct (numberOf names to) as [nTo|] eqn:HnTo.
  2: { exists []. split; [done|]. left. split; [done|]. apply Hunknown. right.
       intros [? Hin]%numberOf_elem. congruence. }
  destruct (forOf_connect names links (replicate (length names) []))
    as (graph & -> & Hlen & Harcs).
  { by rewrite length_replicate. }
  { intros l Hl. split; apply numberOf_elem, Hnames; exists l;
      (split; [done|]); [by left|by right]. }
  rewrite length_replicate in Hlen.
  assert (Harc : forall p n, arc graph p n <-> edgeOf names links p n).
  { intros p n. rewrite Harcs. split; [|by right].
    intros [(ns & Hns & Hn)|?]; [|done].
    apply lookup_replicate in Hns as [-> _]. by apply elem_of_nil in Hn. }
  rewrite bind_Ret.
  pose proof (numberOf_lt _ _ _ HnFrom) as HltFrom.
  set (st0 := {| breadcrumbs := replicate (length names) None;
                 distances := <[nFrom := Some 0%nat]> (replicate (length names) None);
                 queue := [nFrom] |}).
  assert (Hseen0 : forall n d, seen st0 n d -> n = nFrom /\ d = 0%nat).
  { intros n d Hn. unfold seen in Hn. simpl in Hn.
    destruct (decide (n = nFrom)) as [->|Hne].
    - rewrite list_lookup_insert_eq in Hn by by rewrite length_replicate.
      split; congruence.
    - rewrite list_lookup_insert_ne in Hn by done.
      by apply lookup_replicate in Hn as [? _]. }
  assert (HI0 : Inv (length names) graph nFrom None st0).
  { split; simpl.
    - by rewrite length_replicate.
    - by rewrite length_insert, length_replicate.
    - intros n ->%list_elem_of_singleton. exists 0%nat.
      apply list_lookup_insert_eq. by rewrite length_replicate.
    - intros n p Hp. by apply lookup_replicate in Hp as [? _].
    - intros n d [-> ->]%Hseen0. left. split; [done|].
      by apply lookup_replicate.
    - intros n d m [-> ->]%Hseen0 Hq. destruct Hq. by left.
    - apply list_lookup_insert_eq. by rewrite length_replicate. }
  destruct (bfs_Inv (length names) graph nFrom Hlen (arcs_range links graph Harc)
              (S (length names)) st0 HI0) as (st & Hbfs & HI & Hq).
  { simpl.
    pose proof (unseen_insert (replicate (length names) None) nFrom 0) as Hu.
    rewrite unseen_replicate in Hu.
    assert (replicate (length names) (None : option nat) !! nFrom = Some None) as Hnone
      by by apply lookup_replicate.
    specialize (Hu Hnone). lia. }
  assert (HL0 : Level graph None 0 st0).
  { split; simpl.
    - intros n d [_ ->]%Hseen0. lia.
    - intros n d _ [_ ->]%Hseen0. lia.
    - intros i j n m dn dm _ _ _ [_ ->]%Hseen0 [_ ->]%Hseen0. lia.
    - intros n d m d' [-> _]%Hseen0 Hnq. destruct Hnq. by left. }
  pose proof (bfs_Level (length names) graph nFrom Hlen (arcs_range links graph Harc)
                (S (length names)) st0 0%nat st HI0 HL0 Hbfs) as Hrelaxed.
  rewrite Hbfs, bind_Ret.
  destruct (mjoin (distances st !! nTo)) as [d|] eqn:Hto.
  - assert (Hseen : seen st nTo d).
    { unfold seen. destruct (distances st !! nTo) as [[?|]|]; simpl in Hto; congruence. }
    destruct (crumbs_Trail _ graph nFrom Hlen st HI d nTo Hseen) as (l & Htrail & Hl & Hrun).
    specialize (Hrun []). simpl in Hrun. rewrite Hrun, bind_Ret, rev_involutive.
    subst names.
    destruct (Trail_Walk links graph Hlen Harc from nFrom nTo l) as
      (name & path & Hname & -> & Hlen' & Hwalk); [by apply numberOf_Some|done|].
    apply numberOf_Some in HnTo as Hto'. rewrite Hto' in Hname.
    inversion Hname; subst name; clear Hname.
    exists path. split; [done|].
    destruct d as [|d].
    + left. assert (path = []) as -> by (destruct path; [done|simpl in *; lia]).
      split; [done|]. left.
      destruct (inv_origin _ _ _ _ _ HI nTo 0%nat Hseen) as [[-> _]|[p Hp]].
      * apply numberOf_Some in HnFrom. congruence.
      * destruct (inv_crumb _ _ _ _ _ HI nTo p Hp) as (_ & d' & _ & Hn').
        unfold seen in *. congruence.
    + right. split; [destruct path; [simpl in *; lia|done]|]. split; [|split; [done|]].
      * intros ->. rewrite HnFrom in HnTo. inversion HnTo; subst nTo.
        pose proof (inv_from _ _ _ _ _ HI). unfold seen in *. congruence.
      * intros w Hw.
        destruct (Walk_distance links graph Hlen Harc nFrom st from w to HI Hq Hrelaxed Hw
                    nFrom 0%nat HnFrom (inv_from _ _ _ _ _ HI))
          as (nt & d' & Hnt & Hd' & Hle).
        rewrite HnTo in Hnt. inversion Hnt; subst nt.
        assert (d' = S d) as -> by (unfold seen in *; congruence).
        simpl in Hle. lia.
  - exists []. split; [done|]. left. split; [done|].
    destruct (decide (from = to)) as [|Hne]; [by left|right].
    intros w Hw.
    destruct (Walk_seen links graph Harc nFrom st from w to HI Hq Hw nFrom 0%nat HnFrom
                (inv_from _ _ _ _ _ HI)) as (nt & d' & Hnt & Hd').
    unfold names in HnTo. rewrite HnTo in Hnt. inversion Hnt; subst nt.
    unfold seen in Hd'.
    by rewrite Hd' in Hto.
Qed.

(** X24: [findLinks] returns, and holds no [undefined]: what it returns is
    empty, or a chain of links of the system that leads from [from] to [to],
    each link found joining the system the one before it led to. *)
Theorem findLinks_walk (links : list RuntimeLink) (from to : string) :
  exists path,
    findLinks links from to = Ret (Some <$> path) /\
    (path = [] \/ Walk links from path to).
Proof.
  destruct (findLinks_outcome links from to) as (path & Hrun & Hres).
  exists path. split; [done|]. destruct Hres as [[? _]|(_ & _ & ? & _)]; [by left|by right].
Qed.

(** X25: [findLinks] returns no link exactly when [from] and [to] are the
    same system, or when no chain of links leads from one to the other (as
    when one of them is an end of no link). *)
Theorem findLinks_empty_iff (links : list RuntimeLink) (from to : string) :
  findLinks links from to = Ret [] <->
  from = to \/ forall w, ~ Walk links from w to.
Proof.
  destruct (findLinks_outcome links from to) as (path & Hrun & Hres). rewrite Hrun.
  split.
  - intros [= Hpath]. destruct path; [|done].
    destruct Hres as [[_ ?]|[? _]]; done.
  - intros Hnone. destruct Hres as [[-> _]|(_ & Hne & Hwalk & _)]; [done|].
    destruct Hnone as [?|Hnone]; [done|]. by destruct (Hnone path).
Qed.


(** X26: no chain of links from [from] to [to] is shorter than the one
    [findLinks] returns. *)
Theorem findLinks_shortest (links : list RuntimeLink) (from to : string)
    (found : list (option RuntimeLink)) (w : list RuntimeLink) :
  findLinks links from to = Ret found ->
  Walk links from w to ->
  (length found <= length w)%nat.
Proof.
  intros Hrun Hw.
  destruct (findLinks_outcome links from to) as (path & Hrun' & Hres).
  rewrite Hrun in Hrun'. inversion Hrun'; subst found. rewrite length_fmap.
  destruct Hres as [[-> _]|(_ & _ & _ & Hshort)]; [simpl; lia|by apply Hshort].
Qed.

Lemma findLinks_shortest_witness :
  (length [Some (linkOf 3 "baz" "foo"); Some (linkOf 2 "baz" "qux")]
   <= length [linkOf 0 "foo" "bar"; linkOf 1 "bar" "baz"; linkOf 2 "baz" "qux"])%nat.
Proof.
  apply (findLinks_shortest network "foo" "qux").
  - vm_compute. reflexivity.
  - apply Walk_cons with "bar"; [by left|reflexivity|].
    apply Walk_cons with "baz"; [by right; left|reflexivity|].
    apply Walk_cons with "qux"; [by right; right; left|reflexivity|].
    constructor.
Defined.

End FlowLinks.
